(** * Main-thread task reconstruction (lighthouse-core)

    A shallow embedding of
    - [lighthouse-core/lib/task-groups.js] (the category taxonomy),
    - [lighthouse-core/gather/computed/main-thread-tasks.js]
      (the trace-event-to-task-tree engine), and
    - [getExecutionTimingsByURL] of [lighthouse-core/audits/bootup-time.js]
      (a consumer of the task forest),
    followed by the properties of the engine that the specification states and
    by further properties of the three, read off the code.

    Modelling decisions.
    - JavaScript numbers are IEEE-754 doubles.  A finite double is modelled by
      the rational it denotes, and every arithmetic operation rounds its exact
      result to the nearest double, ties to even ([round]); the two zeros are
      one.  The range of the exponent is bounded below (subnormal numbers) but
      not above: the infinities, which JavaScript gives for results of
      magnitude [2 ^ 1024] and more, are outside the model; timestamps in
      microseconds are nowhere near.  Timestamps and durations of trace events
      are integers; an integer literal of more than 53 bits is rounded when it
      is read, as by [JSON.parse].
    - Task nodes are JavaScript objects that reference each other ([parent],
      [children]) and are mutated in place.  Every node is pushed on the
      [tasks] array at the moment it is created, so the array is the store and
      the index of a node in it is its identity: [parent] is an optional index
      and [children] a list of indices.
    - [undefined] is [None]; [a || b] tests JavaScript truthiness.
    - Reading a property of a plain object looks at the properties of its own
      first and then at those every object inherits from [Object.prototype]
      ([constructor], [toString], ...).
    - [throw] is the outcome [Throw]; loops whose termination depends on the
      shape of the store take fuel, and running out of it (or following an index
      outside the store) is the outcome [Stuck], which is shown unreachable.
      The call stack is not bounded: the [RangeError] with which an engine
      stops a recursion that is too deep is outside the model. *)

From Stdlib Require Import ZArith QArith Qround Qpower Qfield Lqa Lia.
From Stdlib Require Qcanon.
From stdpp Require Import base option list strings gmap.

Local Open Scope string_scope.
Local Open Scope list_scope.
Local Open Scope nat_scope.

(* ================================================================== *)
(** * JavaScript values *)
(* ================================================================== *)

(** ** Rounding to the nearest double *)

(** [2 ^ z], for an exponent of either sign. *)
Definition pow2 (z : Z) : Q := (2 ^ z)%Q.

(** The binary exponent of a positive rational [x]: the [e] with
    [2 ^ e <= x < 2 ^ (e + 1)]. *)
Definition expo (x : Q) : Z :=
  let k := (Z.log2 (Qnum x) - Z.log2 (Zpos (Qden x)))%Z in
  if Qle_bool (pow2 k) x then k else (k - 1)%Z.

(** Rounding to the nearest integer, ties to the even one. *)
Definition rne (s : Q) : Z :=
  let f := Qfloor s in
  match (s - inject_Z f ?= 1 # 2)%Q with
  | Lt => f
  | Gt => (f + 1)%Z
  | Eq => if Z.even f then f else (f + 1)%Z
  end.

(** The exponent of the last of the 53 bits of the significand of a double near
    [x]; it is never below that of the subnormal numbers. *)
Definition quantum (x : Q) : Z := Z.max (expo x - 52) (-1074).

(** The multiple of [2 ^ c] nearest to [x]. *)
Definition on_grid (c : Z) (x : Q) : Q := (inject_Z (rne (x / pow2 c)) * pow2 c)%Q.

Definition round_pos (x : Q) : Q := Qred (on_grid (quantum x) x).

(** The double nearest to [x], as a fraction in lowest terms. *)
Definition round (x : Q) : Q :=
  match (x ?= 0)%Q with
  | Eq => 0%Q
  | Gt => round_pos x
  | Lt => (- round_pos (- x))%Q
  end.

(** ** Numbers *)

Inductive number : Type :=
  | Num (q : Q)
  | NaN.

Definition num_add (a b : number) : number :=
  match a, b with
  | Num x, Num y => Num (round (x + y))
  | _, _ => NaN
  end.

Definition num_sub (a b : number) : number :=
  match a, b with
  | Num x, Num y => Num (round (x - y))
  | _, _ => NaN
  end.

Definition num_mul (a b : number) : number :=
  match a, b with
  | Num x, Num y => Num (round (x * y))
  | _, _ => NaN
  end.

(** Division; a zero divisor (whose JavaScript result is an infinity or NaN)
    never occurs in this program: the only divisor is the literal 1000. *)
Definition num_div (a b : number) : number :=
  match a, b with
  | Num x, Num y => if Qeq_bool y 0 then NaN else Num (round (x / y))
  | _, _ => NaN
  end.

(** [Number.isFinite] *)
Definition isFinite (a : number) : bool :=
  match a with
  | Num _ => true
  | NaN => false
  end.

(** [a <= b]: false as soon as one side is NaN. *)
Definition num_le (a b : number) : bool :=
  match a, b with
  | Num x, Num y => Qle_bool x y
  | _, _ => false
  end.

(** [a == b] on numbers: two doubles are equal when they denote the same
    rational; NaN equals nothing. *)
Definition num_eq (a b : number) : Prop :=
  match a, b with
  | Num x, Num y => (x == y)%Q
  | _, _ => False
  end.

(** Order on numbers as a proposition. *)
Definition num_leq (a b : number) : Prop :=
  match a, b with
  | Num x, Num y => (x <= y)%Q
  | _, _ => False
  end.

(** The double that an integer literal denotes. *)
Definition of_Z (z : Z) : number := Num (round (inject_Z z)).

(** Truthiness of an optional string: [undefined] and [''] are falsy. *)
Definition truthy (u : option string) : bool :=
  match u with
  | Some s => negb (String.eqb s "")
  | None => false
  end.

(** [a || b] on optional strings. *)
Definition or_string (a b : option string) : option string :=
  if truthy a then a else b.

(** [a || b] on optional objects: every object is truthy. *)
Definition or_object {A : Type} (a b : option A) : option A :=
  match a with
  | Some _ => a
  | None => b
  end.

(* ================================================================== *)
(** * Outcomes of a computation *)
(* ================================================================== *)

(** The four failures the specification names.  In the source the first comes
    from the tracing processor; [UnbalancedTraceError] and
    [MismatchedEventError] are the two [throw] statements of
    [_createTasksFromEvents] and [InvalidTimingError] the one of
    [getMainThreadTasks]. *)
Inductive TraceError : Type :=
  | MissingAnchorError
  | UnbalancedTraceError
  | MismatchedEventError
  | InvalidTimingError.

(** The message of the JavaScript [Error] that is thrown: the two [throw]
    statements of [_createTasksFromEvents] carry the same one.  The first
    failure is raised outside the sources at hand. *)
Definition message (e : TraceError) : option string :=
  match e with
  | MissingAnchorError => None
  | UnbalancedTraceError => Some "Fatal trace logic error"
  | MismatchedEventError => Some "Fatal trace logic error"
  | InvalidTimingError => Some "Invalid task timing data"
  end.

Inductive outcome (A : Type) : Type :=
  | Ok (a : A)
  | Throw (e : TraceError)
  | Stuck.

Arguments Ok {A} a.
Arguments Throw {A} e.
Arguments Stuck {A}.

Definition bind {A B : Type} (m : outcome A) (k : A → outcome B) : outcome B :=
  match m with
  | Ok a => k a
  | Throw e => Throw e
  | Stuck => Stuck
  end.

Notation "'let*' x ':=' m 'in' k" := (bind m (fun x => k))
  (at level 10, x pattern, m at level 100, k at level 200).

(** A loop over an array whose body may throw. *)
Fixpoint foldM {A S : Type} (body : S → A → outcome S) (s : S) (l : list A) : outcome S :=
  match l with
  | [] => Ok s
  | x :: l' => let* s' := body s x in foldM body s' l'
  end.

(* ================================================================== *)
(** * Trace events *)
(* ================================================================== *)

Record StackFrame : Type := { url : option string }.

(** [event.args.data] *)
Record ArgsData : Type := {
  data_url : option string;
  stackTrace : option (list StackFrame);
}.

Record TraceEvent : Type := {
  pid : option Z;
  tid : option Z;
  ph : string;
  name : string;
  ts : Z;
  dur : option Z;
  args_data : option ArgsData;
}.

Definition same_id (a b : option Z) : bool := bool_decide (a = b).

(* ================================================================== *)
(** * lib/task-groups.js *)
(* ================================================================== *)

Module TaskGroups.

Record TaskGroup : Type := {
  id : string;
  label : string;
  traceEventNames : list string;
}.

Definition set_id (groupId : string) (g : TaskGroup) : TaskGroup :=
  {| id := groupId; label := label g; traceEventNames := traceEventNames g |}.

(** The object literal, keys in insertion order. *)
Definition taskGroups_literal : list (string * TaskGroup) := [
  ("ParseHTML",
   {| id := ""; label := "Parse HTML & CSS";
      traceEventNames := ["ParseHTML"; "ParseAuthorStyleSheet"] |});
  ("StyleLayout",
   {| id := ""; label := "Style & Layout";
      traceEventNames := [
        "ScheduleStyleRecalculation"; "RecalculateStyles"; "UpdateLayoutTree";
        "InvalidateLayout"; "Layout"; "UpdateLayer"; "UpdateLayerTree"] |});
  ("PaintCompositeRender",
   {| id := ""; label := "Rendering";
      traceEventNames := [
        "Animation"; "RequestMainThreadFrame"; "ActivateLayerTree"; "DrawFrame";
        "HitTest"; "PaintSetup"; "Paint"; "PaintImage"; "Rasterize"; "RasterTask";
        "ScrollLayer"; "CompositeLayers"] |});
  ("ScriptParseCompile",
   {| id := ""; label := "Script Parsing & Compilation";
      traceEventNames := ["v8.compile"; "v8.compileModule"; "v8.parseOnBackground"] |});
  ("ScriptEvaluation",
   {| id := ""; label := "Script Evaluation";
      traceEventNames := [
        "EventDispatch"; "EvaluateScript"; "EvaluateModule"; "FunctionCall";
        "TimerFire"; "FireIdleCallback"; "FireAnimationFrame"; "RunMicrotasks";
        "V8.Execute"] |});
  ("GarbageCollection",
   {| id := ""; label := "Garbage Collection";
      traceEventNames := [
        "GCEvent"; "MinorGC"; "MajorGC"; "ThreadState::performIdleLazySweep";
        "ThreadState::completeSweep"; "BlinkGCMarking"] |});
  ("Other",
   {| id := ""; label := "Other";
      traceEventNames := [
        "MessageLoop::RunTask"; "TaskQueueManager::ProcessTaskFromWorkQueue";
        "ThreadControllerImpl::DoWork"] |})
].

(** The state the initialisation loop of the module builds: the object
    [taskGroups], the keys of the object [taskNameToGroup] with their values and
    its prototype when it is no longer [Object.prototype], and the set
    [traceEventNames]. *)
Record Registry : Type := {
  reg_groups : list (string * TaskGroup);
  reg_nameToGroup : gmap string TaskGroup;
  reg_proto : option TaskGroup;
  reg_names : gset string;
}.

Definition emptyRegistry (literal : list (string * TaskGroup)) : Registry :=
  {| reg_groups := literal; reg_nameToGroup := ∅; reg_proto := None; reg_names := ∅ |}.

(** The inner loop: [taskNameToGroup[traceEventName] = group;
    traceEventNames.add(traceEventName)].  The assignment adds a key to the
    object, or replaces its value, for every name but [__proto__], for which it
    sets the prototype of the object and adds no key. *)
Definition register_name (group : TaskGroup) (r : Registry) (traceEventName : string) : Registry :=
  if String.eqb traceEventName "__proto__"
  then {| reg_groups := reg_groups r;
          reg_nameToGroup := reg_nameToGroup r;
          reg_proto := Some group;
          reg_names := {[traceEventName]} ∪ reg_names r |}
  else {| reg_groups := reg_groups r;
          reg_nameToGroup := <[traceEventName := group]> (reg_nameToGroup r);
          reg_proto := reg_proto r;
          reg_names := {[traceEventName]} ∪ reg_names r |}.

(** [taskGroups[key].id = groupId]: the assignment to the group under [key]. *)
Fixpoint assign_id (key : string) (entries : list (string * TaskGroup))
  : list (string * TaskGroup) :=
  match entries with
  | [] => []
  | (k, g) :: rest =>
    if String.eqb k key then (k, set_id key g) :: rest
    else (k, g) :: assign_id key rest
  end.

(** The outer loop body: [group.id = groupId], then the inner loop.  The
    values of the object literal are object literals themselves, so that every
    group is a different object, reached through its key alone until the loop
    enters it into [taskNameToGroup]; its [id] is set before that and never
    again, so that [taskNameToGroup] holds the group by value. *)
Definition register_group (r : Registry) (entry : string * TaskGroup) : Registry :=
  let '(groupId, group0) := entry in
  let group := set_id groupId group0 in
  let r1 := {| reg_groups := assign_id groupId (reg_groups r);
               reg_nameToGroup := reg_nameToGroup r;
               reg_proto := reg_proto r;
               reg_names := reg_names r |} in
  foldl (register_name group) r1 (traceEventNames group).

(** The loop runs over [Object.entries(taskGroups)], taken before the first
    iteration. *)
Definition initialise (literal : list (string * TaskGroup)) : Registry :=
  foldl register_group (emptyRegistry literal) literal.

Definition registry : Registry := initialise taskGroups_literal.

(** [taskGroups], after the module is loaded, as a list of its entries. *)
Definition taskGroups : list (string * TaskGroup) := reg_groups registry.

(** The property [key] of the entries of an object, [undefined] when the object
    has no such key of its own. *)
Fixpoint get (key : string) (entries : list (string * TaskGroup)) : option TaskGroup :=
  match entries with
  | [] => None
  | (k, g) :: rest => if String.eqb k key then Some g else get key rest
  end.

Definition taskNameToGroup : gmap string TaskGroup := reg_nameToGroup registry.

Definition traceEventNames_set : gset string := reg_names registry.

(** The names of the properties of [Object.prototype], which every plain
    object inherits. *)
Definition objectPrototype : list string := [
  "constructor"; "__defineGetter__"; "__defineSetter__"; "hasOwnProperty";
  "__lookupGetter__"; "__lookupSetter__"; "isPrototypeOf"; "propertyIsEnumerable";
  "toString"; "valueOf"; "__proto__"; "toLocaleString"
].

(** What a read of a property of [taskGroups] or of [taskNameToGroup] gives,
    when it gives something: a group, or a member of [Object.prototype] that
    the object inherits (a function, or the prototype itself for [__proto__]),
    which is no group but is truthy like one. *)
Inductive GroupValue : Type :=
  | IsGroup (g : TaskGroup)
  | IsInherited (key : string).

Definition inherited (key : string) : option GroupValue :=
  if bool_decide (key ∈ objectPrototype) then Some (IsInherited key) else None.

(** [taskGroups[key]] *)
Definition taskGroups_at (key : string) : option GroupValue :=
  match get key taskGroups with
  | Some g => Some (IsGroup g)
  | None => inherited key
  end.

(** [taskNameToGroup[name]].  The prototype of the object is [Object.prototype]:
    the loop has not changed it, [reg_proto registry] being [None]. *)
Definition taskNameToGroup_at (name : string) : option GroupValue :=
  match taskNameToGroup !! name with
  | Some g => Some (IsGroup g)
  | None => inherited name
  end.

(** [value.id], for the value of a [group] field: a member of
    [Object.prototype] has no such property. *)
Definition id_of (v : GroupValue) : option string :=
  match v with
  | IsGroup g => Some (id g)
  | IsInherited _ => None
  end.

End TaskGroups.

Import TaskGroups (TaskGroup, GroupValue, IsGroup, IsInherited, taskGroups, taskNameToGroup).

(* ================================================================== *)
(** * gather/computed/main-thread-tasks.js *)
(* ================================================================== *)

Record TaskNode : Type := {
  event : TraceEvent;
  children : list nat;
  parent : option nat;
  startTime : number;
  endTime : number;
  duration : number;
  selfTime : number;
  attributableURL : option string;
  group : option GroupValue;
}.

Definition push_child (c : nat) (t : TaskNode) : TaskNode :=
  {| event := event t; children := children t ++ [c]; parent := parent t;
     startTime := startTime t; endTime := endTime t; duration := duration t;
     selfTime := selfTime t; attributableURL := attributableURL t; group := group t |}.

Definition set_endTime (x : number) (t : TaskNode) : TaskNode :=
  {| event := event t; children := children t; parent := parent t;
     startTime := startTime t; endTime := x; duration := duration t;
     selfTime := selfTime t; attributableURL := attributableURL t; group := group t |}.

Definition set_timing (d s : number) (t : TaskNode) : TaskNode :=
  {| event := event t; children := children t; parent := parent t;
     startTime := startTime t; endTime := endTime t; duration := d;
     selfTime := s; attributableURL := attributableURL t; group := group t |}.

Definition set_attributableURL (u : option string) (t : TaskNode) : TaskNode :=
  {| event := event t; children := children t; parent := parent t;
     startTime := startTime t; endTime := endTime t; duration := duration t;
     selfTime := selfTime t; attributableURL := u; group := group t |}.

Definition set_group (g : option GroupValue) (t : TaskNode) : TaskNode :=
  {| event := event t; children := children t; parent := parent t;
     startTime := startTime t; endTime := endTime t; duration := duration t;
     selfTime := selfTime t; attributableURL := attributableURL t; group := g |}.

(** The store: the [tasks] array; position [i] holds the node of identity [i]. *)
Abbreviation Store := (list TaskNode).

(** Modelled from the spec: [TraceProcessor.findTracingStartedEvt], of
    lib/traces/tracing-processor.js, which is not part of the sources at hand.
    It locates the first event that marks the start of page tracking, whose
    process and thread ids identify the primary thread, and fails with
    [MissingAnchorError] when the trace has none.  The marker name is the one
    the test of this module uses. *)
Definition findTracingStartedEvt (traceEvents : list TraceEvent) : outcome TraceEvent :=
  match List.find (fun e => String.eqb (name e) "TracingStartedInPage") traceEvents with
  | Some e => Ok e
  | None => Throw MissingAnchorError
  end.

(** [_createNewTaskNode(event, parent)], followed by the [tasks.push(newTask)]
    that both of its callers perform: the new node takes the next index of the
    store, and that index is pushed on the parent's [children]. *)
Definition _createNewTaskNode (e : TraceEvent) (parent0 : option nat) (tasks : Store) : Store :=
  let newTask := {|
    event := e;
    startTime := of_Z (ts e);
    endTime := if String.eqb (ph e) "X"
               then num_add (of_Z (ts e)) (of_Z (default 0%Z (dur e)))
               else NaN;
    parent := parent0;
    children := [];
    group := TaskGroups.taskGroups_at "other";
    attributableURL := None;
    duration := NaN;
    selfTime := NaN |} in
  let tasks1 :=
    match parent0 with
    | Some p => alter (push_child (length tasks)) p tasks
    | None => tasks
    end in
  tasks1 ++ [newTask].

(** The [while] loop that closes out the tasks whose window has passed. *)
Fixpoint closeOut (fuel : nat) (tasks : Store) (currentTask : option nat) (t : Z)
  : outcome (option nat) :=
  match currentTask with
  | None => Ok None
  | Some c =>
    match tasks !! c with
    | None => Stuck
    | Some task =>
      if isFinite (endTime task) && num_le (endTime task) (of_Z t)
      then match fuel with
           | O => Stuck
           | S fuel' => closeOut fuel' tasks (parent task) t
           end
      else Ok (Some c)
    end
  end.

Record LoopState : Type := {
  tasks : Store;
  currentTask : option nat;
}.

Definition is_phase (e : TraceEvent) (p : string) : bool := String.eqb (ph e) p.

(** The events the loop looks at: those of the main thread whose phase is X, B or E. *)
Definition relevant (startedInPageEvt e : TraceEvent) : bool :=
  same_id (pid e) (pid startedInPageEvt) && same_id (tid e) (tid startedInPageEvt)
  && (is_phase e "X" || is_phase e "B" || is_phase e "E").

(** The body of the [for] loop, for an event that passed the two filters. *)
Definition handleEvent (s : LoopState) (e : TraceEvent) : outcome LoopState :=
  let* cur := closeOut (length (tasks s)) (tasks s) (currentTask s) (ts e) in
  match cur with
  | None =>
    if is_phase e "E" then Throw UnbalancedTraceError
    else Ok {| tasks := _createNewTaskNode e None (tasks s);
               currentTask := Some (length (tasks s)) |}
  | Some c =>
    if is_phase e "X" || is_phase e "B"
    then Ok {| tasks := _createNewTaskNode e (Some c) (tasks s);
               currentTask := Some (length (tasks s)) |}
    else
      match tasks s !! c with
      | None => Stuck
      | Some task =>
        if negb (String.eqb (ph (event task)) "B") then Throw MismatchedEventError
        else Ok {| tasks := <[c := set_endTime (of_Z (ts e)) task]> (tasks s);
                   currentTask := parent task |}
      end
  end.

Definition loopBody (startedInPageEvt : TraceEvent) (s : LoopState) (e : TraceEvent)
  : outcome LoopState :=
  if relevant startedInPageEvt e then handleEvent s e else Ok s.

Definition initialState : LoopState := {| tasks := []; currentTask := None |}.

Definition _createTasksFromEvents (traceEvents : list TraceEvent) : outcome Store :=
  let* startedInPageEvt := findTracingStartedEvt traceEvents in
  let* s := foldM (loopBody startedInPageEvt) initialState traceEvents in
  Ok (tasks s).

(** [children.map(f)], where [f] reads and updates the store. *)
Fixpoint mapM_store {A : Type} (f : nat → Store → outcome (Store * A))
    (l : list nat) (st : Store) : outcome (Store * list A) :=
  match l with
  | [] => Ok (st, [])
  | c :: l' =>
    let* (st1, a) := f c st in
    let* (st2, rest) := mapM_store f l' st1 in
    Ok (st2, a :: rest)
  end.

(** [.reduce((sum, child) => sum + child, 0)] *)
Definition sum_numbers (l : list number) : number := foldl num_add (of_Z 0) l.

Fixpoint _computeRecursiveSelfTime (fuel : nat) (i : nat) (st : Store)
  : outcome (Store * number) :=
  match fuel with
  | O => Stuck
  | S fuel' =>
    match st !! i with
    | None => Stuck
    | Some task =>
      let* (st1, durations) :=
        mapM_store (_computeRecursiveSelfTime fuel') (children task) st in
      let childTime := sum_numbers durations in
      match st1 !! i with
      | None => Stuck
      | Some task1 =>
        let d := num_sub (endTime task1) (startTime task1) in
        let s := num_sub d childTime in
        Ok (<[i := set_timing d s task1]> st1, d)
      end
    end
  end.

(** The candidate of a task itself: [argsData.url || (stackFrames[0] &&
    stackFrames[0].url)], with the two defaults of the source. *)
Definition taskURL (e : TraceEvent) : option string :=
  let argsData := default {| data_url := None; stackTrace := None |} (args_data e) in
  let stackFrames := default [ {| url := None |} ] (stackTrace argsData) in
  or_string (data_url argsData)
    (match stackFrames !! 0%nat with
     | Some frame => url frame
     | None => None
     end).

(** [parentURL || taskURL] *)
Definition resolveURL (e : TraceEvent) (parentURL : option string) : option string :=
  or_string parentURL (taskURL e).

Fixpoint _computeRecursiveAttributableURL (fuel : nat) (i : nat)
    (parentURL : option string) (st : Store) : outcome Store :=
  match fuel with
  | O => Stuck
  | S fuel' =>
    match st !! i with
    | None => Stuck
    | Some task =>
      let st1 := <[i := set_attributableURL (resolveURL (event task) parentURL) task]> st in
      foldM (fun s child =>
               match s !! i with
               | None => Stuck
               | Some task' =>
                 _computeRecursiveAttributableURL fuel' child (attributableURL task') s
               end)
            st1 (children task)
    end
  end.

(** [group || parentGroup || taskGroups.other] *)
Definition resolveGroup (e : TraceEvent) (parentGroup : option GroupValue)
  : option GroupValue :=
  or_object (or_object (TaskGroups.taskNameToGroup_at (name e)) parentGroup)
            (TaskGroups.taskGroups_at "other").

Fixpoint _computeRecursiveTaskGroup (fuel : nat) (i : nat)
    (parentGroup : option GroupValue) (st : Store) : outcome Store :=
  match fuel with
  | O => Stuck
  | S fuel' =>
    match st !! i with
    | None => Stuck
    | Some task =>
      let st1 := <[i := set_group (resolveGroup (event task) parentGroup) task]> st in
      foldM (fun s child =>
               match s !! i with
               | None => Stuck
               | Some task' => _computeRecursiveTaskGroup fuel' child (group task') s
               end)
            st1 (children task)
    end
  end.

(** The body of the first loop of [getMainThreadTasks], at the task of index [i]. *)
Definition computeToplevel (fuel : nat) (st : Store) (i : nat) : outcome Store :=
  match st !! i with
  | None => Stuck
  | Some task =>
    match parent task with
    | Some _ => Ok st
    | None =>
      let* (st1, _) := _computeRecursiveSelfTime fuel i st in
      let* st2 := _computeRecursiveAttributableURL fuel i None st1 in
      _computeRecursiveTaskGroup fuel i None st2
    end
  end.

Definition thousand : number := of_Z 1000.

(** The four assignments of the second loop. *)
Definition normalize (firstTs : number) (t : TaskNode) : TaskNode :=
  {| event := event t; children := children t; parent := parent t;
     startTime := num_div (num_sub (startTime t) firstTs) thousand;
     endTime := num_div (num_sub (endTime t) firstTs) thousand;
     duration := num_div (duration t) thousand;
     selfTime := num_div (selfTime t) thousand;
     attributableURL := attributableURL t; group := group t |}.

Definition normalizeBody (firstTs : number) (st : Store) (i : nat) : outcome Store :=
  match st !! i with
  | None => Stuck
  | Some task =>
    let task' := normalize firstTs task in
    if isFinite (selfTime task') then Ok (<[i := task']> st)
    else Throw InvalidTimingError
  end.

(** [(tasks[0] || {startTime: 0}).startTime] *)
Definition firstTs_of (st : Store) : number :=
  match st !! 0%nat with
  | Some t => startTime t
  | None => of_Z 0
  end.

(** The state of the store between the two loops of [getMainThreadTasks]. *)
Definition computedTasks (traceEvents : list TraceEvent) : outcome Store :=
  let* tasks0 := _createTasksFromEvents traceEvents in
  foldM (computeToplevel (length tasks0)) tasks0 (seq 0 (length tasks0)).

Definition getMainThreadTasks (traceEvents : list TraceEvent) : outcome Store :=
  let* tasks1 := computedTasks traceEvents in
  let firstTs := firstTs_of tasks1 in
  foldM (normalizeBody firstTs) tasks1 (seq 0 (length tasks1)).


(* ================================================================== *)
(** * audits/bootup-time.js *)
(* ================================================================== *)

Module BootupTime.

(** A [Map] with string keys is the list of its entries, in insertion order.
    [map_get] is [Map.prototype.get] and [map_set] is [Map.prototype.set]: the
    value of a key that the map has is replaced in place, a new key is added at
    the end. *)
Fixpoint map_get {V : Type} (key : string) (m : list (string * V)) : option V :=
  match m with
  | [] => None
  | (k, v) :: m' => if String.eqb k key then Some v else map_get key m'
  end.

Fixpoint map_set {V : Type} (key : string) (v : V) (m : list (string * V))
  : list (string * V) :=
  match m with
  | [] => [(key, v)]
  | (k, v0) :: m' =>
    if String.eqb k key then (k, v) :: m' else (k, v0) :: map_set key v m'
  end.

(** [x || 0] on a property that may be missing: [undefined], [NaN] and [0]
    are falsy. *)
Definition or_zero (x : option number) : number :=
  match x with
  | Some (Num q) => if Qeq_bool q 0 then of_Z 0 else Num q
  | _ => of_Z 0
  end.

(** [Map<string, Object<string, number>>]; the inner object is keyed by group
    id and is modelled by the properties of its own.  This is what the code
    reads as long as no group id is the name of a property that every object
    inherits ([constructor], [toString], ...); the ids of the taxonomy are none
    of these. *)
Abbreviation ExecutionTimings := (list (string * gmap string number)).

(** The property key that [task.group.id] is used as: [undefined] as a key is
    the string of that name. *)
Definition groupKey (v : GroupValue) : string :=
  default "undefined" (TaskGroups.id_of v).

(** The body of the loop of [getExecutionTimingsByURL].  [None] is the
    [TypeError] of reading [task.group.id] when [task.group] is [undefined]. *)
Definition chargeTask (multiplier : number) (result : ExecutionTimings) (task : TaskNode)
  : option ExecutionTimings :=
  match attributableURL task with
  | None => Some result
  | Some u =>
    if negb (truthy (Some u)) || String.eqb u "about:blank" then Some result
    else
      let timingByGroupId := default ∅ (map_get u result) in
      match group task with
      | None => None
      | Some g =>
        let original := or_zero (timingByGroupId !! groupKey g) in
        Some (map_set u
                (<[groupKey g := num_add original (num_mul (selfTime task) multiplier)]>
                   timingByGroupId)
                result)
      end
  end.

Fixpoint chargeTasks (multiplier : number) (result : ExecutionTimings)
    (tasks : list TaskNode) : option ExecutionTimings :=
  match tasks with
  | [] => Some result
  | task :: rest =>
    match chargeTask multiplier result task with
    | Some result' => chargeTasks multiplier result' rest
    | None => None
    end
  end.

Definition getExecutionTimingsByURL (tasks : list TaskNode) (multiplier : number)
  : option ExecutionTimings :=
  chargeTasks multiplier [] tasks.

End BootupTime.

(* ================================================================== *)
(** * The shape of a store *)
(* ================================================================== *)

(** [task.parent] and [task.children] of the node of index [i]. *)
Definition parent_of (st : Store) (i : nat) : option nat :=
  st !! i ≫= parent.

Definition children_of (st : Store) (i : nat) : list nat :=
  match st !! i with
  | Some t => children t
  | None => []
  end.

(** A store is a forest: parents come before their children in the array, and
    [parent] and [children] mirror each other. *)
Record forest (st : Store) : Prop := {
  forest_parent_lt : ∀ i p, parent_of st i = Some p → p < i;
  forest_parent_child : ∀ i p, parent_of st i = Some p → i ∈ children_of st p;
  forest_child_parent : ∀ p c, c ∈ children_of st p → parent_of st c = Some p;
  forest_children_nodup : ∀ p, NoDup (children_of st p);
}.

(** [within st r j]: node [j] belongs to the tree below node [r] ([r] included). *)
Inductive within (st : Store) (r : nat) : nat → Prop :=
  | within_self : within st r r
  | within_child j c : within st r j → c ∈ children_of st j → within st r c.

(** What the passes leave alone. *)
Definition skeleton (t : TaskNode) : TraceEvent * list nat * option nat * number * number :=
  (event t, children t, parent t, startTime t, endTime t).

Definition same_shape (st st' : Store) : Prop :=
  skeleton <$> st' = skeleton <$> st.

(** The durations of the tasks of indices [l]. *)
Definition durations (st : Store) (l : list nat) : list number :=
  omap (λ c, duration <$> st !! c) l.

(** The sum of the durations of the children of a node. *)
Definition childrenDuration (st : Store) (t : TaskNode) : number :=
  sum_numbers (durations st (children t)).

(** [duration = end - start] and [selfTime = duration - sum of the children]. *)
Definition timed (st : Store) (t : TaskNode) : Prop :=
  duration t = num_sub (endTime t) (startTime t)
  ∧ selfTime t = num_sub (duration t) (childrenDuration st t).

(** The attributable URL, or the group, of the parent of a node ([undefined] at a root). *)
Definition parentURL_of (st : Store) (t : TaskNode) : option string :=
  match parent t with
  | Some p => match st !! p with Some pt => attributableURL pt | None => None end
  | None => None
  end.

Definition parentGroup_of (st : Store) (t : TaskNode) : option GroupValue :=
  match parent t with
  | Some p => match st !! p with Some pt => group pt | None => None end
  | None => None
  end.

(** The task that is open when an event of timestamp [t] arrives: the current
    task, after the tasks whose window has passed are closed out. *)
Definition openTaskAt (s : LoopState) (t : Z) : outcome (option nat) :=
  closeOut (length (tasks s)) (tasks s) (currentTask s) t.

(** The timestamps of the events the loop looks at do not decrease. *)
Fixpoint ascending (startedInPageEvt : TraceEvent) (last : Z) (l : list TraceEvent) : Prop :=
  match l with
  | [] => True
  | e :: l' =>
    if relevant startedInPageEvt e
    then (last <= ts e)%Z ∧ ascending startedInPageEvt (ts e) l'
    else ascending startedInPageEvt last l'
  end.

(** The task [t'] is the task [t] with its times rebased to [t0] and scaled
    from microseconds to milliseconds; nothing else differs. *)
Definition rebased (t0 : number) (t t' : TaskNode) : Prop :=
  startTime t' = num_div (num_sub (startTime t) t0) (of_Z 1000)
  ∧ endTime t' = num_div (num_sub (endTime t) t0) (of_Z 1000)
  ∧ duration t' = num_div (duration t) (of_Z 1000)
  ∧ selfTime t' = num_div (selfTime t) (of_Z 1000)
  ∧ event t' = event t ∧ children t' = children t ∧ parent t' = parent t
  ∧ attributableURL t' = attributableURL t ∧ group t' = group t.

(** The candidate URL of a task itself, in the words of the specification:
    the explicit URL of the payload if present, else the URL of the first frame
    of the call stack if present, else unresolved.  Present means truthy. *)
Definition candidateURL (e : TraceEvent) : option string :=
  match args_data e with
  | None => None
  | Some d =>
    if truthy (data_url d) then data_url d
    else match stackTrace d with
         | Some (frame :: _) => url frame
         | _ => None
         end
  end.

(** A task whose recursive properties are all in place. *)
Definition complete (st : Store) (t : TaskNode) : Prop :=
  timed st t
  ∧ attributableURL t = resolveURL (event t) (parentURL_of st t)
  ∧ group t = resolveGroup (event t) (parentGroup_of st t).

(** The state of the store between the two loops of [getMainThreadTasks]. *)
Definition computed (st : Store) : Prop :=
  ∀ j t, st !! j = Some t → complete st t.

(** What the reconstruction loop maintains, whatever the events are. *)
Record reconstructed (s : LoopState) : Prop := {
  rec_forest : forest (tasks s);
  rec_current : ∀ c, currentTask s = Some c → c < length (tasks s);
  rec_fresh : ∀ i t, tasks s !! i = Some t →
    startTime t = of_Z (ts (event t)) ∧ duration t = NaN ∧ selfTime t = NaN;
}.

(** [onchain st cur j]: the task [j] is open, that is, it is the current task
    [cur] or one of its ancestors. *)
Inductive onchain (st : Store) : option nat → nat → Prop :=
  | onchain_here c : onchain st (Some c) c
  | onchain_up c j : onchain st (parent_of st c) j → onchain st (Some c) j.

(** What the reconstruction loop maintains when the timestamps ascend; [last]
    is the timestamp of the last event. *)
Record timeline (last : Z) (s : LoopState) : Prop := {
  tl_start : ∀ i t, tasks s !! i = Some t → (ts (event t) ≤ last)%Z;
  tl_parent_start : ∀ i t p tp,
    tasks s !! i = Some t → parent t = Some p → tasks s !! p = Some tp →
    (ts (event tp) ≤ ts (event t))%Z;
  tl_closed : ∀ j t,
    tasks s !! j = Some t → ¬ onchain (tasks s) (currentTask s) j →
    num_leq (endTime t) (of_Z last);
  tl_open : ∀ j t,
    tasks s !! j = Some t → onchain (tasks s) (currentTask s) j →
    ph (event t) = "B" → endTime t = NaN;
  tl_parent_end : ∀ i t p tp,
    tasks s !! i = Some t → parent t = Some p → tasks s !! p = Some tp →
    ph (event tp) = "B" → isFinite (endTime tp) = true →
    num_leq (endTime t) (endTime tp);
}.

(* ================================================================== *)
(** * Events and the tasks they open and close *)
(* ================================================================== *)

(** The events that open a task: those of the main thread of phase X or B. *)
Definition opens (startedInPageEvt e : TraceEvent) : bool :=
  relevant startedInPageEvt e && (is_phase e "X" || is_phase e "B").

(** The events that close one: those of the main thread of phase E. *)
Definition closes (startedInPageEvt e : TraceEvent) : bool :=
  relevant startedInPageEvt e && is_phase e "E".

(** The end time [_createNewTaskNode] gives to the task of an event. *)
Definition initialEndTime (e : TraceEvent) : number :=
  if String.eqb (ph e) "X"
  then num_add (of_Z (ts e)) (of_Z (default 0%Z (dur e)))
  else NaN.

(** What the store records of the events [pre] processed so far: one task for
    each event that opens one, in the order of the events; a task opened by a
    Complete event ends at [ts + dur]; a task opened by a Begin event is open or
    ends at the timestamp of an End event. *)
Record recorded (startedInPageEvt : TraceEvent) (pre : list TraceEvent)
    (s : LoopState) : Prop := {
  rcd_events : event <$> tasks s = List.filter (opens startedInPageEvt) pre;
  rcd_phase : ∀ i t, tasks s !! i = Some t →
    ph (event t) = "X" ∨ ph (event t) = "B";
  rcd_complete : ∀ i t, tasks s !! i = Some t → ph (event t) = "X" →
    endTime t = num_add (of_Z (ts (event t))) (of_Z (default 0%Z (dur (event t))));
  rcd_begin : ∀ i t, tasks s !! i = Some t → ph (event t) = "B" →
    endTime t = NaN
    ∨ ∃ e, e ∈ pre ∧ closes startedInPageEvt e = true ∧ endTime t = of_Z (ts e);
}.

(** The events of the main thread of phase B. *)
Definition begins (startedInPageEvt e : TraceEvent) : bool :=
  relevant startedInPageEvt e && is_phase e "B".

(** A task that was opened by a Begin event and is not closed yet. *)
Definition isOpenBegin (t : TaskNode) : bool :=
  String.eqb (ph (event t)) "B" && negb (isFinite (endTime t)).

(** The number of such tasks in a store. *)
Definition openBegins (st : Store) : nat :=
  length (List.filter isOpenBegin st).

(** What the loop maintains of Begin and End events: the open tasks that were
    opened by a Begin event are unresolved, and there is one unresolved task for
    each Begin event that no End event has answered yet. *)
Record balanced (startedInPageEvt : TraceEvent) (pre : list TraceEvent)
    (s : LoopState) : Prop := {
  bal_open : ∀ j t, tasks s !! j = Some t →
    onchain (tasks s) (currentTask s) j → ph (event t) = "B" → endTime t = NaN;
  bal_count :
    openBegins (tasks s) + length (List.filter (closes startedInPageEvt) pre)
      = length (List.filter (begins startedInPageEvt) pre);
}.

(** A URL that [getExecutionTimingsByURL] charges tasks to. *)
Definition chargeable (u : string) : Prop := u ≠ "" ∧ u ≠ "about:blank".




(** Of two tasks with the same parent, or without parent both, the one that
    comes first in the array has ended when the other one starts. *)
Definition ordered_siblings (st : Store) : Prop :=
  ∀ i1 i2 t1 t2,
    st !! i1 = Some t1 → st !! i2 = Some t2 → i1 < i2 → parent t1 = parent t2 →
    num_leq (endTime t1) (startTime t2).

(** A task that [getExecutionTimingsByURL] skips: it has no URL, an empty one
    or [about:blank]. *)
Definition skipped (t : TaskNode) : Prop :=
  ∀ u, attributableURL t = Some u → ¬ chargeable u.



(** What the initialisation loop of lib/task-groups.js has built when it has
    gone through the entries [done] and has the entries [todo] before it. *)
Record built (done todo : list (string * TaskGroup)) (r : TaskGroups.Registry) : Prop := {
  built_groups : TaskGroups.reg_groups r = ((λ kg, (kg.1, TaskGroups.set_id kg.1 kg.2)) <$> done) ++ todo;
  built_proto : TaskGroups.reg_proto r = None;
  built_dom : dom (TaskGroups.reg_nameToGroup r) = TaskGroups.reg_names r;
  built_names : ∀ n, n ∈ TaskGroups.reg_names r
                     ↔ ∃ key g, (key, g) ∈ done ∧ n ∈ TaskGroups.traceEventNames g;
  built_lookup : ∀ n g', TaskGroups.reg_nameToGroup r !! n = Some g' →
    ∃ key g, (key, g) ∈ done ∧ n ∈ TaskGroups.traceEventNames g ∧ g' = TaskGroups.set_id key g;
}.


(** A task that is closed ends no earlier than it starts. *)
Definition forward (st : Store) : Prop :=
  ∀ i t, st !! i = Some t → endTime t = NaN ∨ num_leq (startTime t) (endTime t).

(** The Complete events of the main thread have no negative [dur]. *)
Definition durationsNonNegative (startedInPageEvt : TraceEvent)
    (l : list TraceEvent) : Prop :=
  ∀ e, e ∈ l → relevant startedInPageEvt e = true → ph e = "X" →
       (0 ≤ default 0 (dur e))%Z.
(* ================================================================== *)
(** * Traces used as examples *)
(* ================================================================== *)

Definition emptyArgs : option ArgsData := Some {| data_url := None; stackTrace := None |}.

Definition mkEvent (p n : string) (t : Z) (d : option Z) : TraceEvent :=
  {| pid := None; tid := None; ph := p; name := n; ts := t; dur := d;
     args_data := emptyArgs |}.

Definition baseTs : Z := 1241250325.

(** The trace of the test 'should compute parent/child correctly'. *)
Definition scenarioA : list TraceEvent := [
  mkEvent "I" "TracingStartedInPage" baseTs None;
  mkEvent "X" "TaskA" baseTs (Some 100000%Z);
  mkEvent "B" "TaskB" (baseTs + 5000) None;
  mkEvent "X" "TaskC" (baseTs + 10000) (Some 30000%Z);
  mkEvent "E" "TaskB" (baseTs + 55000) None
].


(** Scenario B: an End event before any task has been opened. *)
Definition scenarioB : list TraceEvent := [
  mkEvent "I" "TracingStartedInPage" 0 None;
  mkEvent "E" "TaskB" 5000 None
].

(** An End event that arrives while a Complete task is still running. *)
Definition endInsideComplete : list TraceEvent := [
  mkEvent "I" "TracingStartedInPage" 0 None;
  mkEvent "X" "TaskA" 0 (Some 100000%Z);
  mkEvent "E" "TaskB" 50000 None
].

(** A Begin event that no End event closes. *)
Definition unclosedBegin : list TraceEvent := [
  mkEvent "I" "TracingStartedInPage" 0 None;
  mkEvent "B" "TaskB" 0 None;
  mkEvent "X" "TaskC" 10000 (Some 30000%Z)
].

(** A Complete event that starts inside another one and outlasts it. *)
Definition overlapping : list TraceEvent := [
  mkEvent "I" "TracingStartedInPage" 0 None;
  mkEvent "X" "TaskA" 0 (Some 100000%Z);
  mkEvent "X" "TaskB" 10000 (Some 1000000%Z)
].

(** A layout forced from inside a function call. *)
Definition layoutInFunctionCall : list TraceEvent := [
  mkEvent "I" "TracingStartedInPage" 0 None;
  mkEvent "X" "FunctionCall" 0 (Some 100000%Z);
  mkEvent "X" "Layout" 10000 (Some 30000%Z)
].

(** Scenario D: the root names its script, the call stack of the child points
    to another one. *)
Definition scenarioD : list TraceEvent := [
  mkEvent "I" "TracingStartedInPage" 0 None;
  {| pid := None; tid := None; ph := "X"; name := "EvaluateScript"; ts := 0;
     dur := Some 100000%Z;
     args_data := Some {| data_url := Some "https://example.com/a.js";
                          stackTrace := None |} |};
  {| pid := None; tid := None; ph := "X"; name := "FunctionCall"; ts := 10000;
     dur := Some 30000%Z;
     args_data := Some {| data_url := None;
                          stackTrace := Some [ {| url := Some "https://example.com/b.js" |} ] |} |}
].

(** The raw event names listed under the [Other] group. *)
Definition otherNames : list string :=
  ["MessageLoop::RunTask"; "TaskQueueManager::ProcessTaskFromWorkQueue";
   "ThreadControllerImpl::DoWork"].

Definition otherGroup : TaskGroup :=
  {| TaskGroups.id := "Other"; TaskGroups.label := "Other";
     TaskGroups.traceEventNames := otherNames |}.

(** The forest that is returned, the empty one when there is none. *)
Definition forest_of (o : outcome Store) : Store :=
  match o with
  | Ok st => st
  | _ => []
  end.

(** What the engine computes on some of the traces. *)
Definition forestA : Store :=
  Eval vm_compute in forest_of (getMainThreadTasks scenarioA).

Definition forestD : Store :=
  Eval vm_compute in forest_of (getMainThreadTasks scenarioD).

Definition forestLayout : Store :=
  Eval vm_compute in forest_of (getMainThreadTasks layoutInFunctionCall).

Definition reconstructedUnclosed : Store :=
  Eval vm_compute in forest_of (_createTasksFromEvents unclosedBegin).

(** The state of the reconstruction loop, the initial one when it has thrown. *)
Definition state_of (o : outcome LoopState) : LoopState :=
  match o with
  | Ok s => s
  | _ => initialState
  end.

(** The state in which the End event of Scenario A arrives. *)
Definition stateA : LoopState :=
  Eval vm_compute in
    state_of (foldM (loopBody (mkEvent "I" "TracingStartedInPage" baseTs None))
                initialState (take 4 scenarioA)).

(** The state in which the End event of [endInsideComplete] arrives. *)
Definition stateComplete : LoopState :=
  Eval vm_compute in
    state_of (foldM (loopBody (mkEvent "I" "TracingStartedInPage" 0 None))
                initialState (take 2 endInsideComplete)).



(** Two tasks one after the other. *)
Definition twoRoots : list TraceEvent := [
  mkEvent "I" "TracingStartedInPage" 0 None;
  mkEvent "X" "TaskA" 0 (Some 100000%Z);
  mkEvent "X" "TaskB" 150000 (Some 30000%Z)
].

Definition forestRoots : Store :=
  Eval vm_compute in forest_of (getMainThreadTasks twoRoots).

(** What [getExecutionTimingsByURL] computes on the forest of Scenario D. *)
Definition timingsD : BootupTime.ExecutionTimings :=
  Eval vm_compute in default [] (BootupTime.getExecutionTimingsByURL forestD (Num 1)).
(* ================================================================== *)
(** * Rounding to the nearest double *)
(* ================================================================== *)

Section Rounding.

Local Open Scope Z_scope.

Lemma pow2_pos z : (0 < pow2 z)%Q.
Proof. apply Qpower_0_lt. reflexivity. Qed.

Lemma pow2_add a b : (pow2 (a + b) == pow2 a * pow2 b)%Q.
Proof. apply Qpower_plus. discriminate. Qed.

Lemma pow2_le a b : a <= b -> (pow2 a <= pow2 b)%Q.
Proof. intros H. apply Qpower_le_compat_l; [exact H | discriminate]. Qed.

Lemma pow2_lt a b : a < b -> (pow2 a < pow2 b)%Q.
Proof. intros H. apply Qpower_lt_compat_l; [exact H | reflexivity]. Qed.

Lemma pow2_lt_inv a b : (pow2 a < pow2 b)%Q -> a < b.
Proof.
  intros H. destruct (Z_lt_le_dec a b) as [|Hle]; [assumption|].
  apply pow2_le in Hle. lra.
Qed.

Lemma pow2_Z z : 0 <= z -> (pow2 z == inject_Z (2 ^ z))%Q.
Proof. intros H. unfold pow2. rewrite Zpower_Qpower by exact H. reflexivity. Qed.

Lemma pow2_succ a : (pow2 (a + 1) == 2 * pow2 a)%Q.
Proof. rewrite pow2_add. change (pow2 1) with 2%Q. ring. Qed.

Lemma pow2_sub a b : (pow2 (a - b) == pow2 a / pow2 b)%Q.
Proof. apply Qpower_minus. discriminate. Qed.

Lemma expo_bounds (x : Q) :
  (0 < x)%Q ->
  let k := Z.log2 (Qnum x) - Z.log2 (Zpos (Qden x)) in
  (pow2 (k - 1) <= x)%Q /\ (x < pow2 (k + 1))%Q.
Proof.
  intros Hx k. destruct x as [n d]. simpl in k.
  assert (Hn : 0 < n).
  { unfold Qlt in Hx. simpl in Hx. lia. }
  pose proof (Z.log2_spec n Hn) as [Ha1 Ha2].
  pose proof (Z.log2_spec (Zpos d) (Pos2Z.is_pos d)) as [Hb1 Hb2].
  pose proof (Z.log2_nonneg n) as Ha0.
  pose proof (Z.log2_nonneg (Zpos d)) as Hb0.
  set (a := Z.log2 n) in *. set (b := Z.log2 (Zpos d)) in *.
  assert (Ea : (pow2 a == inject_Z (2 ^ a))%Q) by (apply pow2_Z; exact Ha0).
  assert (Eb : (pow2 b == inject_Z (2 ^ b))%Q) by (apply pow2_Z; exact Hb0).
  assert (HA : 0 < 2 ^ a) by (apply Z.pow_pos_nonneg; lia).
  assert (HB : 0 < 2 ^ b) by (apply Z.pow_pos_nonneg; lia).
  rewrite Z.pow_succ_r in Ha2, Hb2 by assumption.
  set (A := 2 ^ a) in *. set (B := 2 ^ b) in *.
  assert (Ek : (pow2 k == inject_Z A / inject_Z B)%Q).
  { unfold k. rewrite pow2_sub. apply Qdiv_comp; assumption. }
  assert (HBq : (0 < inject_Z B)%Q) by (rewrite <- (Zlt_Qlt 0); exact HB).
  assert (HAq : (0 < inject_Z A)%Q) by (rewrite <- (Zlt_Qlt 0); exact HA).
  clearbody A B. clear Ea Eb HAq HBq.
  destruct B as [|pB|pB]; try lia.
  assert (Ek' : (pow2 k == A # pB)%Q) by (rewrite Ek; symmetry; apply Qmake_Qdiv).
  assert (H1 : A * Z.pos d <= n * Z.pos d) by (apply Z.mul_le_mono_nonneg_r; lia).
  assert (H2 : n * Z.pos d <= n * (2 * Z.pos pB)) by (apply Z.mul_le_mono_nonneg_l; lia).
  assert (H3 : n * Z.pos pB < 2 * A * Z.pos pB) by (apply Z.mul_lt_mono_pos_r; lia).
  assert (H4 : 2 * A * Z.pos pB <= 2 * A * Z.pos d) by (apply Z.mul_le_mono_nonneg_l; lia).
  split.
  - replace (k - 1) with (k + -1) by lia. rewrite pow2_add, Ek'.
    change (pow2 (-1)) with (1 # 2)%Q.
    unfold Qle, Qmult. cbn [Qnum Qden]. rewrite Pos2Z.inj_mul. lia.
  - rewrite pow2_succ, Ek'.
    unfold Qlt, Qmult. cbn [Qnum Qden]. rewrite ?Pos2Z.inj_mul. lia.
Qed.

Lemma expo_spec (x : Q) :
  (0 < x)%Q -> (pow2 (expo x) <= x)%Q /\ (x < pow2 (expo x + 1))%Q.
Proof.
  intros Hx. destruct (expo_bounds x Hx) as [Hlo Hhi]. unfold expo.
  set (k := Z.log2 (Qnum x) - Z.log2 (Zpos (Qden x))) in *.
  destruct (Qle_bool (pow2 k) x) eqn:E.
  - apply Qle_bool_iff in E. split; assumption.
  - split; [exact Hlo|]. replace (k - 1 + 1) with k by lia.
    apply Qnot_le_lt. intros H. apply Qle_bool_iff in H. congruence.
Qed.

Lemma expo_unique (x : Q) (e : Z) :
  (pow2 e <= x)%Q -> (x < pow2 (e + 1))%Q -> expo x = e.
Proof.
  intros Hlo Hhi.
  assert (Hx : (0 < x)%Q) by (pose proof (pow2_pos e); lra).
  destruct (expo_spec x Hx) as [Hlo' Hhi'].
  assert (expo x < e + 1) by (apply pow2_lt_inv; lra).
  assert (e < expo x + 1) by (apply pow2_lt_inv; lra).
  lia.
Qed.

Lemma expo_comp (x y : Q) : (0 < x)%Q -> (x == y)%Q -> expo x = expo y.
Proof.
  intros Hx E. symmetry. apply expo_unique; rewrite <- E; apply expo_spec; exact Hx.
Qed.

Lemma expo_mono (x y : Q) : (0 < x)%Q -> (x <= y)%Q -> expo x <= expo y.
Proof.
  intros Hx Hxy.
  destruct (expo_spec x Hx) as [Hlo _].
  destruct (expo_spec y ltac:(lra)) as [_ Hhi].
  assert (expo x < expo y + 1) by (apply pow2_lt_inv; lra). lia.
Qed.

(** Rounding to the nearest integer, ties to even. *)

Lemma Qfloor_comp' (x y : Q) : (x == y)%Q -> Qfloor x = Qfloor y.
Proof.
  intros E. apply Z.le_antisymm; apply Qfloor_resp_le; rewrite E; apply Qle_refl.
Qed.

Lemma rne_comp (x y : Q) : (x == y)%Q -> rne x = rne y.
Proof.
  intros E. unfold rne. rewrite (Qfloor_comp' x y E).
  assert (E' : (x - inject_Z (Qfloor y) == y - inject_Z (Qfloor y))%Q) by (rewrite E; reflexivity).
  rewrite (Qcompare_comp _ _ E' (1#2) (1#2) (Qeq_refl _)). reflexivity.
Qed.

Lemma rne_Z (k : Z) : rne (inject_Z k) = k.
Proof.
  unfold rne. rewrite Qfloor_Z.
  assert (E : (inject_Z k - inject_Z k ?= 1 # 2)%Q = Lt).
  { apply (proj1 (Qlt_alt _ _)). lra. }
  rewrite E. reflexivity.
Qed.

Lemma rne_mono (x y : Q) : (x <= y)%Q -> rne x <= rne y.
Proof.
  intros Hxy. pose proof (Qfloor_resp_le x y Hxy) as Hf.
  pose proof (Qfloor_le x) as Hxlo. pose proof (Qlt_floor x) as Hxhi.
  pose proof (Qfloor_le y) as Hylo. pose proof (Qlt_floor y) as Hyhi.
  rewrite inject_Z_plus in Hxhi, Hyhi. change (inject_Z 1) with 1%Q in Hxhi, Hyhi.
  unfold rne. set (f := Qfloor x) in *. set (g := Qfloor y) in *.
  destruct (Z.eq_dec f g) as [<-|Hne].
  - destruct (Qcompare_spec (x - inject_Z f) (1 # 2)) as [Ex|Ex|Ex];
      destruct (Qcompare_spec (y - inject_Z f) (1 # 2)) as [Ey|Ey|Ey];
      try destruct (Z.even f); try lia; exfalso; lra.
  - assert (f + 1 <= g) by lia.
    assert (rx : forall (c : comparison) (b : bool), (match c with Eq => if b then f else f + 1 | Lt => f | Gt => f + 1 end) <= f + 1).
    { intros [] []; lia. }
    assert (ry : forall (c : comparison) (b : bool), g <= (match c with Eq => if b then g else g + 1 | Lt => g | Gt => g + 1 end)).
    { intros [] []; lia. }
    specialize (rx (x - inject_Z f ?= 1 # 2)%Q (Z.even f)).
    specialize (ry (y - inject_Z g ?= 1 # 2)%Q (Z.even g)). lia.
Qed.

Lemma rne_nonneg (x : Q) : (0 <= x)%Q -> 0 <= rne x.
Proof. intros H. rewrite <- (rne_Z 0). by apply rne_mono. Qed.

(** The grid of the multiples of [2 ^ c]. *)

Lemma round_pos_grid (x : Q) : (round_pos x == on_grid (quantum x) x)%Q.
Proof. unfold round_pos. apply Qred_correct. Qed.

Lemma div_pow2_le (c : Z) (x y : Q) : (x <= y)%Q -> (x / pow2 c <= y / pow2 c)%Q.
Proof.
  intros H. pose proof (pow2_pos c) as Hc. unfold Qdiv.
  apply Qmult_le_compat_r; [exact H|]. apply Qlt_le_weak, Qinv_lt_0_compat, Hc.
Qed.

Lemma on_grid_mono (c : Z) (x y : Q) : (x <= y)%Q -> (on_grid c x <= on_grid c y)%Q.
Proof.
  intros H. unfold on_grid. pose proof (pow2_pos c) as Hc.
  apply Qmult_le_compat_r; [|lra].
  rewrite <- Zle_Qle. apply rne_mono, div_pow2_le, H.
Qed.

Lemma on_grid_fix (c k : Z) (x : Q) :
  (x == inject_Z k * pow2 c)%Q -> (on_grid c x == x)%Q.
Proof.
  intros E. unfold on_grid. pose proof (pow2_pos c) as Hc.
  assert (E' : (x / pow2 c == inject_Z k)%Q).
  { rewrite E. field. lra. }
  rewrite (rne_comp _ _ E'), rne_Z. symmetry. exact E.
Qed.

Lemma on_grid_comp (c : Z) (x y : Q) : (x == y)%Q -> (on_grid c x == on_grid c y)%Q.
Proof.
  intros E. unfold on_grid.
  assert (E' : (x / pow2 c == y / pow2 c)%Q) by (rewrite E; reflexivity).
  rewrite (rne_comp _ _ E'). reflexivity.
Qed.

Lemma pow2_on_grid (c e : Z) : c <= e -> (pow2 e == inject_Z (2 ^ (e - c)) * pow2 c)%Q.
Proof.
  intros H. rewrite <- pow2_Z by lia. rewrite <- pow2_add.
  replace (e - c + c) with e by lia. reflexivity.
Qed.

Lemma quantum_mono (x y : Q) : (0 < x)%Q -> (x <= y)%Q -> quantum x <= quantum y.
Proof. intros Hx Hxy. pose proof (expo_mono x y Hx Hxy). unfold quantum. lia. Qed.

Lemma quantum_comp (x y : Q) : (0 < x)%Q -> (x == y)%Q -> quantum x = quantum y.
Proof. intros Hx E. unfold quantum. by rewrite (expo_comp x y Hx E). Qed.

Lemma round_pos_nonneg (x : Q) : (0 < x)%Q -> (0 <= round_pos x)%Q.
Proof.
  intros Hx. rewrite round_pos_grid. unfold on_grid.
  pose proof (pow2_pos (quantum x)) as Hc.
  apply Qmult_le_0_compat; [|lra].
  rewrite <- (Zle_Qle 0). apply rne_nonneg.
  apply Qle_shift_div_l; [exact Hc|]. lra.
Qed.

Lemma round_pos_mono (x y : Q) :
  (0 < x)%Q -> (x <= y)%Q -> (round_pos x <= round_pos y)%Q.
Proof.
  intros Hx Hxy. rewrite !round_pos_grid.
  pose proof (quantum_mono x y Hx Hxy) as Hq.
  destruct (Z.eq_dec (quantum x) (quantum y)) as [E|Hne].
  - rewrite E. by apply on_grid_mono.
  - assert (Hlt : quantum x < quantum y) by lia.
    assert (Hy : (0 < y)%Q) by lra.
    destruct (expo_spec x Hx) as [_ Hxhi].
    destruct (expo_spec y Hy) as [Hylo _].
    assert (He : expo x < expo y) by (unfold quantum in Hlt; lia).
    assert (Hcy : quantum y <= expo y) by (unfold quantum in *; lia).
    assert (Hp : (pow2 (expo x + 1) <= pow2 (expo y))%Q) by (apply pow2_le; lia).
    apply Qle_trans with (pow2 (expo y)).
    + rewrite <- (on_grid_fix (quantum x) (2 ^ (expo y - quantum x)) (pow2 (expo y)))
        by (apply pow2_on_grid; lia).
      apply on_grid_mono. lra.
    + rewrite <- (on_grid_fix (quantum y) (2 ^ (expo y - quantum y)) (pow2 (expo y))) at 1
        by (apply pow2_on_grid; lia).
      apply on_grid_mono. exact Hylo.
Qed.

Lemma round_pos_comp (x y : Q) : (0 < x)%Q -> (x == y)%Q -> round_pos x = round_pos y.
Proof.
  intros Hx E. unfold round_pos. apply Qred_complete.
  rewrite (quantum_comp x y Hx E). apply on_grid_comp, E.
Qed.

Lemma round_comp (x y : Q) : (x == y)%Q -> round x = round y.
Proof.
  intros E. unfold round. rewrite (Qcompare_comp x y E 0%Q 0%Q (Qeq_refl 0%Q)).
  destruct (Qcompare_spec y 0) as [H|H|H]; [reflexivity| |].
  - f_equal. apply round_pos_comp; [rewrite E; lra | by rewrite E].
  - apply round_pos_comp; [rewrite E; exact H | exact E].
Qed.

Lemma round_nonneg (x : Q) : (0 <= x)%Q -> (0 <= round x)%Q.
Proof.
  intros H. unfold round. destruct (Qcompare_spec x 0) as [E|E|E]; [lra|lra|].
  by apply round_pos_nonneg.
Qed.

Lemma round_nonpos (x : Q) : (x <= 0)%Q -> (round x <= 0)%Q.
Proof.
  intros H. unfold round. destruct (Qcompare_spec x 0) as [E|E|E]; [lra| |lra].
  pose proof (round_pos_nonneg (- x) ltac:(lra)). lra.
Qed.

Lemma round_mono (x y : Q) : (x <= y)%Q -> (round x <= round y)%Q.
Proof.
  intros H. destruct (Qlt_le_dec 0 x) as [Hx|Hx].
  - unfold round. destruct (Qcompare_spec x 0) as [E|E|E]; [lra|lra|].
    destruct (Qcompare_spec y 0) as [E'|E'|E']; [lra|lra|].
    by apply round_pos_mono.
  - destruct (Qlt_le_dec y 0) as [Hy|Hy].
    + unfold round. destruct (Qcompare_spec x 0) as [E|E|E]; [lra| |lra].
      destruct (Qcompare_spec y 0) as [E'|E'|E']; [lra| |lra].
      pose proof (round_pos_mono (- y) (- x) ltac:(lra) ltac:(lra)). lra.
    + pose proof (round_nonpos x Hx). pose proof (round_nonneg y Hy). lra.
Qed.

(** Representable numbers are fixed. *)

Lemma round_pos_fix (y : Q) (k j : Z) :
  (0 < y)%Q -> (y == inject_Z k * pow2 j)%Q -> quantum y <= j ->
  (round_pos y == y)%Q.
Proof.
  intros Hy E Hj. rewrite round_pos_grid.
  apply (on_grid_fix _ (k * 2 ^ (j - quantum y))).
  etransitivity; [exact E|].
  rewrite inject_Z_mult, <- pow2_Z by lia.
  rewrite <- Qmult_assoc, <- pow2_add.
  replace (j - quantum y + quantum y) with j by lia. reflexivity.
Qed.

Lemma round_pos_representable (x : Q) :
  (0 < x)%Q ->
  (round_pos x == 0)%Q
  \/ (0 < round_pos x)%Q
     /\ exists k j, (round_pos x == inject_Z k * pow2 j)%Q /\ quantum (round_pos x) <= j.
Proof.
  intros Hx. pose proof (round_pos_grid x) as Hy. unfold on_grid in Hy.
  set (y := round_pos x) in *. set (c := quantum x) in *.
  set (M := rne (x / pow2 c)) in *.
  pose proof (pow2_pos c) as Hc.
  destruct (expo_spec x Hx) as [Hlo Hhi].
  assert (HM : 0 <= M).
  { apply rne_nonneg. apply Qle_shift_div_l; [exact Hc | lra]. }
  destruct (Z.eq_dec M 0) as [E0|Hne].
  { left. rewrite Hy, E0. ring. }
  right.
  assert (HM1 : (1 <= inject_Z M)%Q) by (rewrite <- (Zle_Qle 1); lia).
  assert (Hypos : (0 < y)%Q).
  { rewrite Hy. apply Qlt_le_trans with (1 * pow2 c)%Q; [lra|].
    apply Qmult_le_compat_r; lra. }
  split; [exact Hypos|].
  destruct (Z_le_gt_dec c (expo x)) as [Hce|Hce].
  - assert (HN : (pow2 (expo x + 1) == inject_Z (2 ^ (expo x + 1 - c)) * pow2 c)%Q)
      by (apply pow2_on_grid; lia).
    set (N := 2 ^ (expo x + 1 - c)) in *.
    assert (HMN : M <= N).
    { rewrite <- (rne_Z N). apply rne_mono.
      apply Qle_shift_div_r; [exact Hc | lra]. }
    destruct (Z.eq_dec M N) as [E|HneN].
    + exists 1, (expo x + 1).
      assert (Ey : (y == pow2 (expo x + 1))%Q) by (rewrite Hy, E, HN; reflexivity).
      split; [rewrite Ey; ring|].
      assert (Ee : expo y = expo x + 1).
      { apply expo_unique; rewrite Ey; [lra|]. apply pow2_lt. lia. }
      unfold quantum in *. lia.
    + exists M, c. split; [exact Hy|].
      assert (Hlt : (y < pow2 (expo x + 1))%Q).
      { rewrite Hy, HN. apply Qmult_lt_compat_r; [exact Hc|].
        rewrite <- Zlt_Qlt. lia. }
      destruct (expo_spec y Hypos) as [Hylo _].
      assert (expo y < expo x + 1) by (apply pow2_lt_inv; lra).
      unfold quantum in *. lia.
  - assert (Ec : c = -1074) by (unfold c, quantum in *; lia).
    assert (HM1' : M <= 1).
    { rewrite <- (rne_Z 1). apply rne_mono.
      apply Qle_shift_div_r; [exact Hc|].
      assert ((pow2 (expo x + 1) <= pow2 c)%Q) by (apply pow2_le; lia).
      change (inject_Z 1) with 1%Q. lra. }
    assert (E1 : M = 1) by lia.
    assert (Ey : (y == pow2 c)%Q) by (rewrite Hy, E1; change (inject_Z 1) with 1%Q; ring).
    exists 1, c. split; [rewrite Ey; change (inject_Z 1) with 1%Q; ring|].
    assert (Ee : expo y = c).
    { apply expo_unique; rewrite Ey; [lra|]. apply pow2_lt. lia. }
    unfold quantum. lia.
Qed.

Lemma round_pos_canonical (x : Q) (y : Q) :
  (round_pos x == y)%Q -> Qred y = round_pos x.
Proof. intros E. unfold round_pos in *. apply Qred_complete. rewrite <- E. by rewrite Qred_correct. Qed.

Lemma round_pos_idempotent (x : Q) :
  (0 < x)%Q -> round (round_pos x) = round_pos x.
Proof.
  intros Hx. destruct (round_pos_representable x Hx) as [E0|(Hy & k & j & E & Hj)].
  - rewrite (round_comp _ 0 E0). rewrite <- (round_pos_canonical x 0 E0). reflexivity.
  - unfold round. destruct (Qcompare_spec (round_pos x) 0) as [H|H|H]; [lra|lra|].
    pose proof (round_pos_fix _ k j Hy E Hj) as Hfix.
    rewrite <- (round_pos_canonical x (round_pos x) (Qeq_refl _)) at 2.
    unfold round_pos at 1. apply Qred_complete.
    fold (on_grid (quantum (round_pos x)) (round_pos x)).
    rewrite <- round_pos_grid. exact Hfix.
Qed.

Lemma round_idempotent (x : Q) : round (round x) = round x.
Proof.
  unfold round at 2 3. destruct (Qcompare_spec x 0) as [H|H|H].
  - reflexivity.
  - assert (Hx : (0 < - x)%Q) by lra.
    pose proof (round_pos_idempotent (- x) Hx) as Hi.
    destruct (round_pos_representable (- x) Hx) as [E0|(Hy & _)].
    + rewrite <- (round_pos_canonical _ 0 E0). reflexivity.
    + unfold round. destruct (Qcompare_spec (- round_pos (- x)) 0) as [H'|H'|H']; [lra| |lra].
      f_equal. rewrite (round_pos_comp _ (round_pos (- x))); [|lra|ring].
      unfold round in Hi.
      destruct (Qcompare_spec (round_pos (- x)) 0) as [H''|H''|H'']; [lra|lra|].
      exact Hi.
  - by apply round_pos_idempotent.
Qed.

(** Integers below [2 ^ 53] are representable. *)
Lemma round_Z (n : Z) : Z.abs n < 2 ^ 53 -> round (inject_Z n) = inject_Z n.
Proof.
  intros Hn.
  assert (Hpos : forall m, 0 < m < 2 ^ 53 -> round_pos (inject_Z m) = inject_Z m).
  { intros m [Hm0 Hm].
    assert (Hq : (0 < inject_Z m)%Q) by (rewrite <- (Zlt_Qlt 0); exact Hm0).
    assert (Hfix : (round_pos (inject_Z m) == inject_Z m)%Q).
    { apply (round_pos_fix _ m 0 Hq); [change (pow2 0) with 1%Q; ring|].
      destruct (expo_spec _ Hq) as [Hlo _].
      assert (H53 : (inject_Z m < pow2 53)%Q).
      { rewrite (pow2_Z 53) by lia. rewrite <- Zlt_Qlt. exact Hm. }
      assert (expo (inject_Z m) < 53) by (apply pow2_lt_inv; lra).
      unfold quantum. lia. }
    rewrite <- (round_pos_canonical _ _ Hfix).
    apply Qcanon.Qred_identity. simpl. apply Z.gcd_1_r. }
  unfold round. destruct (Qcompare_spec (inject_Z n) 0) as [H|H|H].
  - unfold Qeq in H. simpl in H. assert (n = 0) by lia. subst. reflexivity.
  - assert (Hn0 : n < 0) by (unfold Qlt in H; simpl in H; lia).
    rewrite (round_pos_comp _ (inject_Z (- n))).
    + rewrite Hpos by lia. unfold Qopp, inject_Z. simpl. by rewrite Z.opp_involutive.
    + lra.
    + by rewrite inject_Z_opp.
  - assert (Hn0 : 0 < n) by (unfold Qlt in H; simpl in H; lia).
    apply Hpos. lia.
Qed.


End Rounding.

(* ================================================================== *)
(** * Outcomes and loops *)
(* ================================================================== *)

Lemma bind_Ok {A B : Type} (m : outcome A) (k : A → outcome B) (b : B) :
  bind m k = Ok b ↔ ∃ a, m = Ok a ∧ k a = Ok b.
Proof.
  split.
  - destruct m as [a| |]; simpl; intros H; try discriminate H. by exists a.
  - intros (a & -> & H). exact H.
Qed.

Lemma foldM_app {A S : Type} (body : S → A → outcome S) (s : S) (l1 l2 : list A) :
  foldM body s (l1 ++ l2) = let* s' := foldM body s l1 in foldM body s' l2.
Proof.
  revert s. induction l1 as [|x l1 IH]; intros s; simpl; [reflexivity|].
  destruct (body s x) as [s'| |]; simpl; [apply IH | reflexivity | reflexivity].
Qed.

(** An invariant of the loop body holds when the loop is over. *)
Lemma foldM_invariant {A S : Type} (I : S → Prop) (body : S → A → outcome S) (l : list A) :
  (∀ s x s', x ∈ l → I s → body s x = Ok s' → I s') →
  ∀ s s', I s → foldM body s l = Ok s' → I s'.
Proof.
  induction l as [|x l IH]; intros Hstep s s' Hs Hrun; simpl in Hrun.
  - by injection Hrun as <-.
  - apply bind_Ok in Hrun as (s1 & H1 & H2).
    eapply IH; [ | | exact H2].
    + intros ? ? ? ?. apply Hstep. by right.
    + eapply Hstep; [by left | exact Hs | exact H1].
Qed.

(** A loop whose body never gets stuck under an invariant does not get stuck. *)
Lemma foldM_not_stuck {A S : Type} (I : S → Prop) (body : S → A → outcome S) (l : list A) :
  (∀ s x s', x ∈ l → I s → body s x = Ok s' → I s') →
  (∀ s x, x ∈ l → I s → body s x ≠ Stuck) →
  ∀ s, I s → foldM body s l ≠ Stuck.
Proof.
  induction l as [|x l IH]; intros Hstep Hns s Hs; simpl; [discriminate|].
  destruct (body s x) as [s1| |] eqn:E; simpl.
  - apply IH.
    + intros ? ? ? ?. apply Hstep. by right.
    + intros ? ? ?. apply Hns. by right.
    + eapply Hstep; [by left | exact Hs | exact E].
  - discriminate.
  - exfalso. eapply Hns; [by left | exact Hs | exact E].
Qed.

(* ================================================================== *)
(** * Forests *)
(* ================================================================== *)

Lemma parent_of_Some (st : Store) (i p : nat) :
  parent_of st i = Some p ↔ ∃ t, st !! i = Some t ∧ parent t = Some p.
Proof.
  unfold parent_of. destruct (st !! i) as [t|]; simpl; split.
  - intros H. by exists t.
  - by intros (t' & [= <-] & H).
  - discriminate.
  - by intros (t' & [=] & _).
Qed.

Lemma children_of_Some (st : Store) (i : nat) (t : TaskNode) :
  st !! i = Some t → children_of st i = children t.
Proof. unfold children_of. by intros ->. Qed.

Lemma elem_of_children_of (st : Store) (i c : nat) :
  c ∈ children_of st i → ∃ t, st !! i = Some t ∧ c ∈ children t.
Proof.
  unfold children_of. destruct (st !! i) as [t|]; intros H.
  - by exists t.
  - by apply elem_of_nil in H.
Qed.

Section Forest.

Context (st : Store) (Hforest : forest st).

Lemma child_gt (p c : nat) : c ∈ children_of st p → p < c.
Proof.
  intros H. eapply forest_parent_lt; [exact Hforest|].
  by apply forest_child_parent.
Qed.

Lemma child_lt_length (p c : nat) : c ∈ children_of st p → c < length st.
Proof.
  intros H. apply (forest_child_parent st Hforest) in H.
  apply parent_of_Some in H as (t & Ht & _). by eapply lookup_lt_Some.
Qed.

Lemma within_le (r j : nat) : within st r j → r ≤ j.
Proof.
  induction 1 as [|j c _ IH Hc]; [lia|].
  apply child_gt in Hc. lia.
Qed.

Lemma within_lt_length (r j : nat) : r < length st → within st r j → j < length st.
Proof.
  intros Hr. destruct 1 as [|j c _ Hc]; [exact Hr|].
  by eapply child_lt_length.
Qed.

(** Below [r], every node but [r] reaches [r] through its parent. *)
Lemma within_parent (r j : nat) :
  within st r j → j ≠ r → ∃ p, parent_of st j = Some p ∧ within st r p.
Proof.
  destruct 1 as [|j c Hj Hc]; intros Hne; [done|].
  exists j. split; [|exact Hj].
  by apply forest_child_parent.
Qed.

Lemma within_step_up (r j p : nat) :
  within st r p → parent_of st j = Some p → within st r j.
Proof.
  intros Hp Hj. eapply within_child; [exact Hp|].
  by apply forest_parent_child.
Qed.

Lemma within_under_child (i c j : nat) :
  c ∈ children_of st i → within st c j → within st i j.
Proof.
  intros Hc. induction 1 as [|j c' _ IH Hc'].
  - eapply within_child; [apply within_self | exact Hc].
  - eapply within_child; [exact IH | exact Hc'].
Qed.

(** A node below [i] is [i] or lies below one of the children of [i]. *)
Lemma within_inv (i j : nat) :
  within st i j → j = i ∨ ∃ c, c ∈ children_of st i ∧ within st c j.
Proof.
  induction 1 as [|j c _ IH Hc]; [by left|]. right.
  destruct IH as [->|(c0 & Hc0 & Hw)].
  - exists c. split; [exact Hc | apply within_self].
  - exists c0. split; [exact Hc0|]. eapply within_child; [exact Hw | exact Hc].
Qed.

Lemma not_within_child (i c : nat) : c ∈ children_of st i → ¬ within st c i.
Proof.
  intros Hc Hw. apply within_le in Hw. apply child_gt in Hc. lia.
Qed.

(** The trees below two distinct children of a node share no node. *)
Lemma within_children_disjoint (i c1 c2 j : nat) :
  c1 ∈ children_of st i → c2 ∈ children_of st i → c1 ≠ c2 →
  within st c1 j → within st c2 j → False.
Proof.
  intros H1 H2 Hne. induction j as [j IH] using lt_wf_ind. intros W1 W2.
  destruct (decide (j = c1)) as [->|N1].
  { destruct (within_parent _ _ W2 Hne) as (p & Hp & Wp).
    rewrite (forest_child_parent st Hforest _ _ H1) in Hp. injection Hp as <-.
    exact (not_within_child _ _ H2 Wp). }
  destruct (decide (j = c2)) as [->|N2].
  { destruct (within_parent _ _ W1 (not_eq_sym Hne)) as (p & Hp & Wp).
    rewrite (forest_child_parent st Hforest _ _ H2) in Hp. injection Hp as <-.
    exact (not_within_child _ _ H1 Wp). }
  destruct (within_parent _ _ W1 N1) as (p & Hp & Wp).
  destruct (within_parent _ _ W2 N2) as (p' & Hp' & Wp').
  rewrite Hp in Hp'. injection Hp' as <-.
  apply (IH p); [|exact Wp|exact Wp'].
  by eapply forest_parent_lt.
Qed.

(** Every node lies below a root. *)
Lemma below_a_root (j : nat) :
  j < length st → ∃ r, r < length st ∧ parent_of st r = None ∧ within st r j.
Proof.
  induction j as [j IH] using lt_wf_ind. intros Hj.
  destruct (parent_of st j) as [p|] eqn:Hp.
  - assert (Hlt : p < j) by by eapply forest_parent_lt.
    destruct (IH p Hlt) as (r & Hr & Hroot & Hw); [lia|].
    exists r. repeat split; [exact Hr | exact Hroot |].
    by eapply within_step_up.
  - exists j. repeat split; [exact Hj | exact Hp | apply within_self].
Qed.

(** The tree below a root is closed under parents and children. *)
Lemma outside_root_child (r j c : nat) :
  parent_of st r = None → ¬ within st r j → c ∈ children_of st j → ¬ within st r c.
Proof.
  intros Hroot Hj Hc Hw.
  pose proof (forest_child_parent st Hforest _ _ Hc) as Hpc.
  destruct (within_parent r c Hw) as (p & Hp & Wp).
  - intros ->. congruence.
  - rewrite Hpc in Hp. injection Hp as <-. by apply Hj.
Qed.

Lemma outside_parent (r j p : nat) :
  ¬ within st r j → parent_of st j = Some p → ¬ within st r p.
Proof. intros Hj Hp Hw. apply Hj. by eapply within_step_up. Qed.

End Forest.

(** ** Stores of the same shape *)

Lemma same_shape_refl (st : Store) : same_shape st st.
Proof. reflexivity. Qed.

Lemma same_shape_trans (st1 st2 st3 : Store) :
  same_shape st1 st2 → same_shape st2 st3 → same_shape st1 st3.
Proof. unfold same_shape. congruence. Qed.

Lemma same_shape_length (st st' : Store) : same_shape st st' → length st' = length st.
Proof.
  intros H. apply (f_equal length) in H. by rewrite !length_fmap in H.
Qed.

Lemma same_shape_lookup (st st' : Store) (i : nat) :
  same_shape st st' → skeleton <$> st' !! i = skeleton <$> st !! i.
Proof. intros H. by rewrite <- !list_lookup_fmap, H. Qed.

Lemma same_shape_lookup_Some (st st' : Store) (i : nat) (t : TaskNode) :
  same_shape st st' → st !! i = Some t →
  ∃ t', st' !! i = Some t' ∧ skeleton t' = skeleton t.
Proof.
  intros H Ht. pose proof (same_shape_lookup _ _ i H) as E. rewrite Ht in E.
  destruct (st' !! i) as [t'|]; simpl in E; [|discriminate E].
  exists t'. split; [reflexivity | congruence].
Qed.

Lemma same_shape_parent_of (st st' : Store) (i : nat) :
  same_shape st st' → parent_of st' i = parent_of st i.
Proof.
  intros H. pose proof (same_shape_lookup _ _ i H) as E. unfold parent_of.
  destruct (st' !! i) as [t'|], (st !! i) as [t|]; simpl in *; try done.
  unfold skeleton in E. congruence.
Qed.

Lemma same_shape_children_of (st st' : Store) (i : nat) :
  same_shape st st' → children_of st' i = children_of st i.
Proof.
  intros H. pose proof (same_shape_lookup _ _ i H) as E. unfold children_of.
  destruct (st' !! i) as [t'|], (st !! i) as [t|]; simpl in *; try done.
  unfold skeleton in E. congruence.
Qed.

Lemma same_shape_forest (st st' : Store) :
  same_shape st st' → forest st → forest st'.
Proof.
  intros H [F1 F2 F3 F4]. split.
  - intros i p. rewrite (same_shape_parent_of _ _ _ H). apply F1.
  - intros i p. rewrite (same_shape_parent_of _ _ _ H), (same_shape_children_of _ _ _ H).
    apply F2.
  - intros p c. rewrite (same_shape_parent_of _ _ _ H), (same_shape_children_of _ _ _ H).
    apply F3.
  - intros p. rewrite (same_shape_children_of _ _ _ H). apply F4.
Qed.

Lemma same_shape_within (st st' : Store) (r j : nat) :
  same_shape st st' → within st r j → within st' r j.
Proof.
  intros H. induction 1 as [|j c _ IH Hc]; [apply within_self|].
  eapply within_child; [exact IH|]. by rewrite (same_shape_children_of _ _ _ H).
Qed.

Lemma same_shape_sym (st st' : Store) : same_shape st st' → same_shape st' st.
Proof. unfold same_shape. congruence. Qed.

Lemma same_shape_within_iff (st st' : Store) (r j : nat) :
  same_shape st st' → within st' r j ↔ within st r j.
Proof.
  intros H. split; apply same_shape_within; [by apply same_shape_sym | exact H].
Qed.

(* ================================================================== *)
(** * The reconstruction loop builds a forest *)
(* ================================================================== *)

Lemma forest_ext (st st' : Store) :
  (∀ i, parent_of st' i = parent_of st i) →
  (∀ i, children_of st' i = children_of st i) →
  forest st → forest st'.
Proof.
  intros HP HC [F1 F2 F3 F4]. split.
  - intros i p. rewrite HP. apply F1.
  - intros i p. rewrite HP, HC. apply F2.
  - intros p c. rewrite HP, HC. apply F3.
  - intros p. rewrite HC. apply F4.
Qed.

Lemma createNewTaskNode_length (e : TraceEvent) (p : option nat) (st : Store) :
  length (_createNewTaskNode e p st) = S (length st).
Proof.
  unfold _createNewTaskNode. rewrite length_app. simpl.
  destruct p; [rewrite length_alter|]; lia.
Qed.

(** The node that is created. *)
Lemma createNewTaskNode_new (e : TraceEvent) (p : option nat) (st : Store) :
  ∃ t, _createNewTaskNode e p st !! length st = Some t
       ∧ event t = e ∧ parent t = p ∧ children t = []
       ∧ startTime t = of_Z (ts e)
       ∧ (endTime t = NaN ∨ ph e = "X")
       ∧ duration t = NaN ∧ selfTime t = NaN.
Proof.
  unfold _createNewTaskNode. eexists. split.
  - assert (L : length (match p with Some q => alter (push_child (length st)) q st
                                 | None => st end) = length st).
    { destruct p; [apply length_alter | reflexivity]. }
    rewrite lookup_app_r; rewrite L; [|lia]. by rewrite Nat.sub_diag.
  - simpl. repeat split.
    destruct (String.eqb (ph e) "X") eqn:E; [right; by apply String.eqb_eq | by left].
Qed.

(** The nodes that were there: only the parent changes, by one more child. *)
Lemma createNewTaskNode_old (e : TraceEvent) (p : option nat) (st : Store)
    (i : nat) (t : TaskNode) :
  st !! i = Some t →
  _createNewTaskNode e p st !! i
    = Some (if decide (p = Some i) then push_child (length st) t else t).
Proof.
  intros Ht. unfold _createNewTaskNode.
  pose proof (lookup_lt_Some _ _ _ Ht) as Hlt.
  destruct p as [q|].
  - rewrite lookup_app_l; [|by rewrite length_alter].
    destruct (decide (Some q = Some i)) as [[= ->]|Hne].
    + by rewrite list_lookup_alter_eq, Ht.
    + rewrite list_lookup_alter_ne; [exact Ht | congruence].
  - rewrite lookup_app_l; [|exact Hlt]. rewrite Ht. by rewrite decide_False.
Qed.

Lemma createNewTaskNode_parent_of (e : TraceEvent) (p : option nat) (st : Store) (i : nat) :
  parent_of (_createNewTaskNode e p st) i
    = if decide (i = length st) then p else parent_of st i.
Proof.
  destruct (decide (i = length st)) as [->|Hne].
  - destruct (createNewTaskNode_new e p st) as (t & Ht & _ & Hp & _).
    unfold parent_of. by rewrite Ht.
  - unfold parent_of. destruct (st !! i) as [t|] eqn:Ht.
    + rewrite (createNewTaskNode_old e p st i t Ht). simpl. by case_decide.
    + apply lookup_ge_None in Ht.
      rewrite (lookup_ge_None_2 (_createNewTaskNode e p st) i); [reflexivity|].
      rewrite createNewTaskNode_length. lia.
Qed.

Lemma createNewTaskNode_children_of (e : TraceEvent) (p : option nat) (st : Store) (i : nat) :
  (∀ c, p = Some c → c < length st) →
  children_of (_createNewTaskNode e p st) i
    = if decide (p = Some i) then children_of st i ++ [length st] else children_of st i.
Proof.
  intros Hp. unfold children_of. destruct (st !! i) as [t|] eqn:Ht.
  - rewrite (createNewTaskNode_old e p st i t Ht). by case_decide.
  - apply lookup_ge_None in Ht. rewrite decide_False.
    2:{ intros ->. specialize (Hp i eq_refl). lia. }
    destruct (decide (i = length st)) as [->|Hne].
    + destruct (createNewTaskNode_new e p st) as (t & -> & _ & _ & -> & _). reflexivity.
    + rewrite (lookup_ge_None_2 (_createNewTaskNode e p st) i); [reflexivity|].
      rewrite createNewTaskNode_length. lia.
Qed.

Lemma forest_createNewTaskNode (e : TraceEvent) (p : option nat) (st : Store) :
  (∀ c, p = Some c → c < length st) →
  forest st → forest (_createNewTaskNode e p st).
Proof.
  intros Hp F. pose proof F as [F1 F2 F3 F4]. split.
  - intros i q. rewrite createNewTaskNode_parent_of. case_decide as E.
    + intros ->. subst i. by apply Hp.
    + apply F1.
  - intros i q. rewrite createNewTaskNode_parent_of, createNewTaskNode_children_of by done.
    destruct (decide (i = length st)) as [->|Hne].
    + intros ->. rewrite decide_True by done. apply elem_of_app. right.
      apply list_elem_of_singleton. reflexivity.
    + intros H. apply F2 in H. case_decide; [apply elem_of_app; by left | exact H].
  - intros q c. rewrite createNewTaskNode_parent_of, createNewTaskNode_children_of by done.
    destruct (decide (p = Some q)) as [->|Hne].
    + intros [H|H]%elem_of_app.
      * rewrite decide_False; [by apply F3|].
        pose proof (child_lt_length st F _ _ H). lia.
      * apply list_elem_of_singleton in H as ->. by rewrite decide_True.
    + intros H. rewrite decide_False; [by apply F3|].
      pose proof (child_lt_length st F _ _ H). lia.
  - intros q. rewrite createNewTaskNode_children_of by done. case_decide; [|apply F4].
    apply NoDup_app. split; [apply F4|]. split; [|apply NoDup_singleton].
    intros x Hx ->%list_elem_of_singleton.
    pose proof (child_lt_length st F _ _ Hx). lia.
Qed.

(** Closing a task touches neither [parent] nor [children]. *)
Lemma parent_of_set_endTime (st : Store) (c i : nat) (task : TaskNode) (x : number) :
  st !! c = Some task →
  parent_of (<[c := set_endTime x task]> st) i = parent_of st i.
Proof.
  intros Hc. unfold parent_of. destruct (decide (c = i)) as [->|Hne].
  - rewrite list_lookup_insert_eq by by eapply lookup_lt_Some. by rewrite Hc.
  - by rewrite list_lookup_insert_ne.
Qed.

Lemma children_of_set_endTime (st : Store) (c i : nat) (task : TaskNode) (x : number) :
  st !! c = Some task →
  children_of (<[c := set_endTime x task]> st) i = children_of st i.
Proof.
  intros Hc. unfold children_of. destruct (decide (c = i)) as [->|Hne].
  - rewrite list_lookup_insert_eq by by eapply lookup_lt_Some. by rewrite Hc.
  - by rewrite list_lookup_insert_ne.
Qed.

(** The close-out loop ends, on a task of the store or on none. *)
Lemma closeOut_ok (st : Store) (t : Z) (fuel : nat) (cur : option nat) :
  forest st →
  (∀ c, cur = Some c → c < length st ∧ c < fuel) →
  ∃ r, closeOut fuel st cur t = Ok r ∧ ∀ c, r = Some c → c < length st.
Proof.
  intros F. revert cur. induction fuel as [|fuel IH]; intros cur Hc.
  - destruct cur as [c|]; [destruct (Hc c eq_refl); lia|].
    exists None. split; [reflexivity | discriminate].
  - destruct cur as [c|]; [|exists None; split; [reflexivity | discriminate]].
    destruct (Hc c eq_refl) as [Hlen Hfuel].
    destruct (lookup_lt_is_Some_2 st c Hlen) as [task Htask].
    simpl. rewrite Htask.
    destruct (isFinite (endTime task) && num_le (endTime task) (of_Z t)).
    + apply IH. intros p Hp.
      assert (p < c).
      { eapply forest_parent_lt; [exact F|]. apply parent_of_Some. eauto. }
      lia.
    + exists (Some c). split; [reflexivity|]. by intros ? [= <-].
Qed.

Lemma reconstructed_initial : reconstructed initialState.
Proof.
  split; simpl.
  - split.
    + intros i p H. apply parent_of_Some in H as (t & Ht & _). by rewrite lookup_nil in Ht.
    + intros i p H. apply parent_of_Some in H as (t & Ht & _). by rewrite lookup_nil in Ht.
    + intros p c H. apply elem_of_children_of in H as (t & Ht & _). by rewrite lookup_nil in Ht.
    + intros p. unfold children_of. rewrite lookup_nil. apply NoDup_nil_2.
  - discriminate.
  - intros i t H. by rewrite lookup_nil in H.
Qed.

Lemma reconstructed_create (s : LoopState) (e : TraceEvent) (p : option nat) :
  reconstructed s →
  (∀ c, p = Some c → c < length (tasks s)) →
  reconstructed {| tasks := _createNewTaskNode e p (tasks s);
                   currentTask := Some (length (tasks s)) |}.
Proof.
  intros [F C Fr] Hp. split; simpl.
  - by apply forest_createNewTaskNode.
  - intros c [= <-]. rewrite createNewTaskNode_length. lia.
  - intros i t Ht.
    destruct (decide (i = length (tasks s))) as [->|Hne].
    + destruct (createNewTaskNode_new e p (tasks s))
        as (t' & Ht' & He & _ & _ & Hs & _ & Hd & Hself).
      rewrite Ht' in Ht. injection Ht as <-. rewrite He. done.
    + assert (Hi : i < length (tasks s)).
      { apply lookup_lt_Some in Ht. rewrite createNewTaskNode_length in Ht. lia. }
      destruct (lookup_lt_is_Some_2 _ _ Hi) as [t0 Ht0].
      rewrite (createNewTaskNode_old e p _ i t0 Ht0) in Ht. injection Ht as <-.
      destruct (Fr i t0 Ht0) as (? & ? & ?). by case_decide.
Qed.

Lemma reconstructed_handleEvent (s s' : LoopState) (e : TraceEvent) :
  reconstructed s → handleEvent s e = Ok s' → reconstructed s'.
Proof.
  intros R H. pose proof R as [F C Fr]. unfold handleEvent in H.
  apply bind_Ok in H as (cur & Hcur & H).
  destruct (closeOut_ok (tasks s) (ts e) (length (tasks s)) (currentTask s) F)
    as (r & Hr & Hlen).
  { intros c Hc. split; by apply C. }
  rewrite Hr in Hcur. injection Hcur as <-.
  destruct r as [c|].
  - destruct (is_phase e "X" || is_phase e "B").
    + injection H as <-. apply reconstructed_create; [exact R|].
      intros ? [= <-]. by apply Hlen.
    + destruct (tasks s !! c) as [task|] eqn:Htask; [|discriminate H].
      destruct (negb (String.eqb (ph (event task)) "B")); [discriminate H|].
      injection H as <-. split; simpl.
      * eapply forest_ext; [| |exact F].
        -- intros i. by apply parent_of_set_endTime.
        -- intros i. by apply children_of_set_endTime.
      * intros p Hp. rewrite length_insert.
        assert (p < c); [|apply lookup_lt_Some in Htask; lia].
        eapply forest_parent_lt; [exact F|]. apply parent_of_Some. eauto.
      * intros i t Ht. apply list_lookup_insert_Some in Ht as [(-> & <- & _)|(_ & Ht)].
        -- simpl. eapply Fr. exact Htask.
        -- eapply Fr. exact Ht.
  - destruct (is_phase e "E"); [discriminate H|].
    injection H as <-. apply reconstructed_create; [exact R | discriminate].
Qed.

Lemma handleEvent_not_stuck (s : LoopState) (e : TraceEvent) :
  reconstructed s → handleEvent s e ≠ Stuck.
Proof.
  intros [F C Fr]. unfold handleEvent.
  destruct (closeOut_ok (tasks s) (ts e) (length (tasks s)) (currentTask s) F)
    as (r & Hr & Hlen).
  { intros c Hc. split; by apply C. }
  rewrite Hr. simpl. destruct r as [c|].
  - destruct (is_phase e "X" || is_phase e "B"); [discriminate|].
    destruct (lookup_lt_is_Some_2 _ _ (Hlen c eq_refl)) as [task ->].
    by destruct (negb (String.eqb (ph (event task)) "B")).
  - by destruct (is_phase e "E").
Qed.

Lemma reconstructed_loopBody (startedInPageEvt e : TraceEvent) (s s' : LoopState) :
  reconstructed s → loopBody startedInPageEvt s e = Ok s' → reconstructed s'.
Proof.
  intros R. unfold loopBody. destruct (relevant startedInPageEvt e).
  - by apply reconstructed_handleEvent.
  - by intros [= <-].
Qed.

Lemma reconstructed_loop (startedInPageEvt : TraceEvent) (l : list TraceEvent)
    (s s' : LoopState) :
  reconstructed s → foldM (loopBody startedInPageEvt) s l = Ok s' → reconstructed s'.
Proof.
  apply foldM_invariant. intros s0 e s1 _. apply reconstructed_loopBody.
Qed.

Lemma loop_not_stuck (startedInPageEvt : TraceEvent) (l : list TraceEvent) :
  foldM (loopBody startedInPageEvt) initialState l ≠ Stuck.
Proof.
  apply (foldM_not_stuck reconstructed); [| |apply reconstructed_initial].
  - intros s e s' _. apply reconstructed_loopBody.
  - intros s e _ R. unfold loopBody. destruct (relevant startedInPageEvt e).
    + by apply handleEvent_not_stuck.
    + discriminate.
Qed.

(** What [_createTasksFromEvents] returns. *)
Lemma createTasksFromEvents_reconstructed (traceEvents : list TraceEvent) (st : Store) :
  _createTasksFromEvents traceEvents = Ok st →
  ∃ s, tasks s = st ∧ reconstructed s.
Proof.
  unfold _createTasksFromEvents. intros H.
  apply bind_Ok in H as (a & _ & H). apply bind_Ok in H as (s & Hs & [= <-]).
  exists s. split; [reflexivity|].
  eapply reconstructed_loop; [apply reconstructed_initial | exact Hs].
Qed.

(* ================================================================== *)
(** * The two top-down passes *)
(* ================================================================== *)

Lemma skeleton_fields (t t' : TaskNode) :
  skeleton t' = skeleton t →
  event t' = event t ∧ children t' = children t ∧ parent t' = parent t
  ∧ startTime t' = startTime t ∧ endTime t' = endTime t.
Proof. unfold skeleton. intros [= -> -> -> -> ->]. done. Qed.

Lemma foldM_ext {A S : Type} (body body' : S → A → outcome S) (s : S) (l : list A) :
  (∀ s x, body s x = body' s x) → foldM body s l = foldM body' s l.
Proof.
  intros H. revert s. induction l as [|x l IH]; intros s; simpl; [reflexivity|].
  rewrite H. destruct (body' s x); simpl; [apply IH | reflexivity | reflexivity].
Qed.

(** Both [_computeRecursiveAttributableURL] and [_computeRecursiveTaskGroup]
    assign one field of the task from the event of the task and the value of
    the parent, and hand the field to the children.  [preorder] is that scheme;
    [getV] and [setV] read and write the field, [f] computes it, and [undef] is
    the value a root is given. *)
Section Preorder.

Context {V : Type} (getV : TaskNode → V) (setV : V → TaskNode → TaskNode)
        (f : TraceEvent → V → V) (undef : V).

Hypothesis get_set : ∀ v t, getV (setV v t) = v.
Hypothesis set_set : ∀ v w t, setV v (setV w t) = setV v t.
Hypothesis skel_set : ∀ v t, skeleton (setV v t) = skeleton t.

Fixpoint preorder (fuel : nat) (i : nat) (a : V) (st : Store) : outcome Store :=
  match fuel with
  | O => Stuck
  | S fuel' =>
    match st !! i with
    | None => Stuck
    | Some task =>
      let st1 := <[i := setV (f (event task) a) task]> st in
      foldM (fun s child =>
               match s !! i with
               | None => Stuck
               | Some task' => preorder fuel' child (getV task') s
               end)
            st1 (children task)
    end
  end.

(** Two stores that differ in the field only. *)
Definition unchanged_but (st st' : Store) : Prop :=
  setV undef <$> st' = setV undef <$> st.

(** The value a task receives from its parent. *)
Definition inherited (st : Store) (t : TaskNode) : V :=
  match parent t with
  | Some p => match st !! p with Some pt => getV pt | None => undef end
  | None => undef
  end.

Definition resolved (st : Store) (t : TaskNode) : Prop :=
  getV t = f (event t) (inherited st t).

Lemma unchanged_but_refl (st : Store) : unchanged_but st st.
Proof. reflexivity. Qed.

Lemma unchanged_but_trans (st1 st2 st3 : Store) :
  unchanged_but st1 st2 → unchanged_but st2 st3 → unchanged_but st1 st3.
Proof. unfold unchanged_but. congruence. Qed.

Lemma unchanged_but_shape (st st' : Store) : unchanged_but st st' → same_shape st st'.
Proof.
  unfold unchanged_but, same_shape. intros H.
  assert (E : ∀ l : Store, skeleton <$> l = skeleton <$> (setV undef <$> l)).
  { intros l. rewrite <- list_fmap_compose. apply list_fmap_ext.
    intros ? t _. simpl. by rewrite skel_set. }
  rewrite (E st), (E st'). by rewrite H.
Qed.

Lemma unchanged_but_insert (st : Store) (i : nat) (t : TaskNode) (v : V) :
  st !! i = Some t → unchanged_but st (<[i := setV v t]> st).
Proof.
  intros Ht. unfold unchanged_but. rewrite list_fmap_insert, set_set.
  apply list_insert_id. by rewrite list_lookup_fmap, Ht.
Qed.

Lemma unchanged_but_lookup (st st' : Store) (j : nat) (t' : TaskNode) :
  unchanged_but st st' → st' !! j = Some t' →
  ∃ t, st !! j = Some t ∧ setV undef t' = setV undef t.
Proof.
  intros H Ht'. apply (f_equal (λ l, l !! j)) in H.
  rewrite !list_lookup_fmap, Ht' in H.
  destruct (st !! j) as [t|]; simpl in H; [|discriminate H].
  exists t. split; [reflexivity | congruence].
Qed.

Definition preorder_spec (fuel i : nat) (a : V) (st : Store) : Prop :=
  ∃ st', preorder fuel i a st = Ok st'
    ∧ unchanged_but st st'
    ∧ (∀ j, ¬ within st i j → st' !! j = st !! j)
    ∧ (∃ t', st' !! i = Some t' ∧ getV t' = f (event t') a)
    ∧ (∀ j t', within st i j → j ≠ i → st' !! j = Some t' → resolved st' t').

(** The loop over the children of the task [i], once the task itself is done. *)
Lemma preorder_children (fuel : nat) (st0 : Store) (i : nat) (v : V) :
  (∀ c a st, forest st → c < length st → length st ≤ fuel + c →
             preorder_spec fuel c a st) →
  forest st0 → length st0 ≤ S fuel + i →
  ∀ (l : list nat) (s : Store) (ti : TaskNode),
    (∀ c, c ∈ l → c ∈ children_of st0 i) → NoDup l →
    unchanged_but st0 s → s !! i = Some ti → getV ti = v →
    ∃ s', foldM (fun s child =>
                   match s !! i with
                   | None => Stuck
                   | Some task' => preorder fuel child (getV task') s
                   end) s l = Ok s'
      ∧ unchanged_but s s'
      ∧ (∀ j, (∀ c, c ∈ l → ¬ within st0 c j) → s' !! j = s !! j)
      ∧ (∀ c j t', c ∈ l → within st0 c j → s' !! j = Some t' → resolved s' t').
Proof.
  intros IHfuel F Hfuel. induction l as [|c l IHl]; intros s ti Hsub Hnd Hun Hi Hv.
  { exists s. split; [reflexivity|]. split; [apply unchanged_but_refl|].
    split; [done|]. intros c j t' Hc. by apply elem_of_nil in Hc. }
  assert (Hc : c ∈ children_of st0 i) by (apply Hsub; by left).
  pose proof (unchanged_but_shape _ _ Hun) as Hsh.
  pose proof (same_shape_forest _ _ Hsh F) as Fs.
  pose proof (same_shape_length _ _ Hsh) as Hlen.
  pose proof (child_lt_length st0 F _ _ Hc) as Hclt.
  pose proof (child_gt st0 F _ _ Hc) as Hcgt.
  destruct (IHfuel c v s Fs) as (s1 & Hrun1 & Hun1 & Hframe1 & (tc & Htc & Hgetc) & Hpost1);
    [lia | lia |].
  assert (Hi1 : s1 !! i = Some ti).
  { rewrite Hframe1; [exact Hi|]. rewrite (same_shape_within_iff _ _ _ _ Hsh).
    by apply not_within_child. }
  apply NoDup_cons in Hnd as [Hnotin Hnd].
  destruct (IHl s1 ti) as (s' & Hrun' & Hun' & Hframe' & Hpost'); try done.
  { intros c' Hc'. apply Hsub. by right. }
  { by eapply unchanged_but_trans. }
  pose proof (unchanged_but_shape _ _ Hun1) as Hsh1.
  pose proof (unchanged_but_shape _ _ Hun') as Hsh'.
  assert (Hi' : s' !! i = Some ti).
  { rewrite Hframe'; [exact Hi1|]. intros c' Hc'. apply not_within_child; [exact F|].
    apply Hsub. by right. }
  exists s'. split; [|split; [|split]].
  - simpl. rewrite Hi, Hv, Hrun1. simpl. exact Hrun'.
  - by eapply unchanged_but_trans.
  - intros j Hj. rewrite Hframe'.
    + apply Hframe1. rewrite (same_shape_within_iff _ _ _ _ Hsh). apply Hj. by left.
    + intros c' Hc'. apply Hj. by right.
  - intros c0 j t' Hc0 Hw Hj. apply elem_of_cons in Hc0 as [->|Hc0]; [|by eapply Hpost'].
    assert (Hout : ∀ p, within st0 c p → ∀ c', c' ∈ l → ¬ within st0 c' p).
    { intros p Hp c' Hc' Hw'. eapply (within_children_disjoint st0 F i c c' p); try done.
      - apply Hsub. by right.
      - intros ->. done. }
    assert (Hj1 : s1 !! j = Some t').
    { rewrite <- Hframe'; [exact Hj|]. by apply Hout. }
    unfold resolved, inherited.
    destruct (decide (j = c)) as [->|Hne].
    + rewrite Htc in Hj1. injection Hj1 as <-.
      assert (Hp : parent tc = Some i).
      { pose proof (forest_child_parent st0 F _ _ Hc) as Hp.
        rewrite <- (same_shape_parent_of _ _ c Hsh),
                <- (same_shape_parent_of _ _ c Hsh1) in Hp.
        apply parent_of_Some in Hp as (t & Ht & Hp). congruence. }
      rewrite Hp, Hi', Hv. exact Hgetc.
    + destruct (within_parent st0 F c j Hw Hne) as (p & Hp & Wp).
      assert (Hp' : parent t' = Some p).
      { rewrite <- (same_shape_parent_of _ _ j Hsh),
                <- (same_shape_parent_of _ _ j Hsh1) in Hp.
        apply parent_of_Some in Hp as (t & Ht & Hp). congruence. }
      rewrite Hp', (Hframe' p (Hout p Wp)).
      specialize (Hpost1 j t'). unfold resolved, inherited in Hpost1.
      rewrite Hp' in Hpost1. apply Hpost1; [|exact Hne|exact Hj1].
      by rewrite (same_shape_within_iff _ _ _ _ Hsh).
Qed.

Lemma preorder_correct (fuel i : nat) (a : V) (st : Store) :
  forest st → i < length st → length st ≤ fuel + i → preorder_spec fuel i a st.
Proof.
  revert i a st. induction fuel as [|fuel IH]; intros i a st F Hi Hfuel; [lia|].
  destruct (lookup_lt_is_Some_2 st i Hi) as [task Htask].
  set (v := f (event task) a).
  pose proof (unchanged_but_insert st i task v Htask) as Hun1.
  destruct (preorder_children fuel st i v IH F Hfuel (children task)
              (<[i := setV v task]> st) (setV v task))
    as (s' & Hrun & Hun & Hframe & Hpost).
  { intros c Hc. by rewrite (children_of_Some st i task Htask). }
  { rewrite <- (children_of_Some st i task Htask). by apply forest_children_nodup. }
  { exact Hun1. }
  { by apply list_lookup_insert_eq. }
  { apply get_set. }
  assert (Hi' : s' !! i = Some (setV v task)).
  { rewrite Hframe; [by apply list_lookup_insert_eq|].
    intros c Hc. apply not_within_child; [exact F|].
    by rewrite (children_of_Some st i task Htask). }
  exists s'. split; [|split; [|split; [|split]]].
  - simpl. rewrite Htask. exact Hrun.
  - by eapply unchanged_but_trans.
  - intros j Hj. rewrite Hframe.
    + apply list_lookup_insert_ne. intros ->. apply Hj, within_self.
    + intros c Hc Hw. apply Hj. eapply within_under_child; [|exact Hw].
      by rewrite (children_of_Some st i task Htask).
  - exists (setV v task). split; [exact Hi'|]. rewrite get_set.
    destruct (skeleton_fields _ _ (skel_set v task)) as (-> & _). reflexivity.
  - intros j t' Hw Hne Hj.
    destruct (within_inv st i j Hw) as [->|(c & Hc & Hwc)]; [done|].
    eapply Hpost; [|exact Hwc|exact Hj].
    by rewrite <- (children_of_Some st i task Htask).
Qed.

(** The pass started at a root: every task of the tree below it is resolved. *)
Lemma preorder_root (fuel r : nat) (st : Store) :
  forest st → r < length st → length st ≤ fuel + r → parent_of st r = None →
  ∃ st', preorder fuel r undef st = Ok st'
    ∧ unchanged_but st st'
    ∧ (∀ j, ¬ within st r j → st' !! j = st !! j)
    ∧ (∀ j t', within st r j → st' !! j = Some t' → resolved st' t').
Proof.
  intros F Hr Hfuel Hroot.
  destruct (preorder_correct fuel r undef st F Hr Hfuel)
    as (st' & Hrun & Hun & Hframe & (tr & Htr & Hget) & Hpost).
  exists st'. split; [exact Hrun|]. split; [exact Hun|]. split; [exact Hframe|].
  intros j t' Hw Hj. destruct (decide (j = r)) as [->|Hne]; [|by eapply Hpost].
  rewrite Htr in Hj. injection Hj as <-. unfold resolved, inherited.
  rewrite <- (same_shape_parent_of _ _ r (unchanged_but_shape _ _ Hun)) in Hroot.
  unfold parent_of in Hroot. rewrite Htr in Hroot. simpl in Hroot.
  by rewrite Hroot.
Qed.

End Preorder.

(** ** The two passes of the source are instances of the scheme *)

Lemma attributableURL_preorder (fuel i : nat) (parentURL : option string) (st : Store) :
  _computeRecursiveAttributableURL fuel i parentURL st
    = preorder attributableURL set_attributableURL resolveURL fuel i parentURL st.
Proof.
  revert i parentURL st. induction fuel as [|fuel IH]; intros i u st; simpl; [reflexivity|].
  destruct (st !! i); [|reflexivity]. apply foldM_ext. intros s c.
  destruct (s !! i); [apply IH | reflexivity].
Qed.

Lemma taskGroup_preorder (fuel i : nat) (parentGroup : option GroupValue) (st : Store) :
  _computeRecursiveTaskGroup fuel i parentGroup st
    = preorder group set_group resolveGroup fuel i parentGroup st.
Proof.
  revert i parentGroup st. induction fuel as [|fuel IH]; intros i g st; simpl; [reflexivity|].
  destruct (st !! i); [|reflexivity]. apply foldM_ext. intros s c.
  destruct (s !! i); [apply IH | reflexivity].
Qed.

(* ================================================================== *)
(** * The bottom-up pass *)
(* ================================================================== *)

Definition set_times (v : number * number) (t : TaskNode) : TaskNode :=
  set_timing v.1 v.2 t.

(** Two stores that differ in [duration] and [selfTime] only. *)
Definition same_but_times : Store → Store → Prop :=
  unchanged_but set_times (NaN, NaN).

Lemma set_times_set_times (v w : number * number) (t : TaskNode) :
  set_times v (set_times w t) = set_times v t.
Proof. reflexivity. Qed.

Lemma skeleton_set_times (v : number * number) (t : TaskNode) :
  skeleton (set_times v t) = skeleton t.
Proof. reflexivity. Qed.

Lemma durations_cons (st : Store) (c : nat) (l : list nat) :
  durations st (c :: l)
    = match st !! c with
      | Some t => duration t :: durations st l
      | None => durations st l
      end.
Proof. unfold durations. cbn. by destruct (st !! c). Qed.

Lemma durations_ext (st st' : Store) (l : list nat) :
  (∀ c, c ∈ l → st' !! c = st !! c) → durations st' l = durations st l.
Proof.
  induction l as [|c l IH]; intros H; [reflexivity|].
  rewrite !durations_cons, (H c) by by left. rewrite IH; [reflexivity|].
  intros c' Hc'. apply H. by right.
Qed.

Lemma timed_ext (st st' : Store) (t : TaskNode) :
  (∀ c, c ∈ children t → st' !! c = st !! c) → timed st t → timed st' t.
Proof.
  intros H [H1 H2]. split; [exact H1|]. rewrite H2. unfold childrenDuration.
  fold (durations st (children t)). fold (durations st' (children t)).
  by rewrite (durations_ext st st').
Qed.

Definition selfTime_spec (fuel i : nat) (st : Store) : Prop :=
  ∃ st' d, _computeRecursiveSelfTime fuel i st = Ok (st', d)
    ∧ same_but_times st st'
    ∧ (∀ j, ¬ within st i j → st' !! j = st !! j)
    ∧ (∃ t', st' !! i = Some t' ∧ duration t' = d)
    ∧ (∀ j t', within st i j → st' !! j = Some t' → timed st' t').

(** [task.children.map(_computeRecursiveSelfTime)] *)
Lemma selfTime_children (fuel : nat) (st0 : Store) (i : nat) :
  (∀ c st, forest st → c < length st → length st ≤ fuel + c → selfTime_spec fuel c st) →
  forest st0 → length st0 ≤ S fuel + i →
  ∀ (l : list nat) (s : Store),
    (∀ c, c ∈ l → c ∈ children_of st0 i) → NoDup l → same_but_times st0 s →
    ∃ s' ds, mapM_store (_computeRecursiveSelfTime fuel) l s = Ok (s', ds)
      ∧ same_but_times s s'
      ∧ (∀ j, (∀ c, c ∈ l → ¬ within st0 c j) → s' !! j = s !! j)
      ∧ ds = durations s' l
      ∧ (∀ c j t', c ∈ l → within st0 c j → s' !! j = Some t' → timed s' t').
Proof.
  intros IHfuel F Hfuel. induction l as [|c l IHl]; intros s Hsub Hnd Hun.
  { exists s, []. split; [reflexivity|]. split; [apply unchanged_but_refl|].
    split; [done|]. split; [reflexivity|].
    intros c j t' Hc. by apply elem_of_nil in Hc. }
  assert (Hc : c ∈ children_of st0 i) by (apply Hsub; by left).
  pose proof (unchanged_but_shape _ _ skeleton_set_times _ _ Hun) as Hsh.
  pose proof (same_shape_forest _ _ Hsh F) as Fs.
  pose proof (same_shape_length _ _ Hsh) as Hlen.
  pose proof (child_lt_length st0 F _ _ Hc) as Hclt.
  pose proof (child_gt st0 F _ _ Hc) as Hcgt.
  destruct (IHfuel c s Fs) as (s1 & d & Hrun1 & Hun1 & Hframe1 & (tc & Htc & Hd) & Hpost1);
    [lia | lia |].
  apply NoDup_cons in Hnd as [Hnotin Hnd].
  destruct (IHl s1) as (s' & ds & Hrun' & Hun' & Hframe' & Hds & Hpost'); try done.
  { intros c' Hc'. apply Hsub. by right. }
  { by eapply unchanged_but_trans. }
  pose proof (unchanged_but_shape _ _ skeleton_set_times _ _ Hun1) as Hsh1.
  assert (Hout : ∀ p, within st0 c p → ∀ c', c' ∈ l → ¬ within st0 c' p).
  { intros p Hp c' Hc' Hw'. eapply (within_children_disjoint st0 F i c c' p); try done.
    - apply Hsub. by right.
    - intros ->. done. }
  exists s', (d :: ds). split; [|split; [|split; [|split]]].
  - simpl. rewrite Hrun1. simpl. rewrite Hrun'. reflexivity.
  - by eapply unchanged_but_trans.
  - intros j Hj. rewrite Hframe'.
    + apply Hframe1. rewrite (same_shape_within_iff _ _ _ _ Hsh). apply Hj. by left.
    + intros c' Hc'. apply Hj. by right.
  - rewrite durations_cons, (Hframe' c (Hout c (within_self _ _))), Htc.
    by rewrite Hd, Hds.
  - intros c0 j t' Hc0 Hw Hj. apply elem_of_cons in Hc0 as [->|Hc0]; [|by eapply Hpost'].
    assert (Hj1 : s1 !! j = Some t').
    { rewrite <- Hframe'; [exact Hj|]. by apply Hout. }
    apply (timed_ext s1).
    + intros c' Hc'. apply Hframe', Hout. eapply within_child; [exact Hw|].
      rewrite <- (same_shape_children_of _ _ j Hsh),
              <- (same_shape_children_of _ _ j Hsh1).
      by rewrite (children_of_Some s1 j t' Hj1).
    + apply (Hpost1 j t'); [|exact Hj1]. by rewrite (same_shape_within_iff _ _ _ _ Hsh).
Qed.

Lemma selfTime_correct (fuel i : nat) (st : Store) :
  forest st → i < length st → length st ≤ fuel + i → selfTime_spec fuel i st.
Proof.
  revert i st. induction fuel as [|fuel IH]; intros i st F Hi Hfuel; [lia|].
  destruct (lookup_lt_is_Some_2 st i Hi) as [task Htask].
  pose proof (children_of_Some st i task Htask) as Hch.
  destruct (selfTime_children fuel st i IH F Hfuel (children task) st)
    as (s1 & ds & Hrun & Hun & Hframe & Hds & Hpost).
  { intros c Hc. by rewrite Hch. }
  { rewrite <- Hch. by apply forest_children_nodup. }
  { apply unchanged_but_refl. }
  assert (Hi1 : s1 !! i = Some task).
  { rewrite Hframe; [exact Htask|].
    intros c Hc. apply not_within_child; [exact F|]. by rewrite Hch. }
  set (d := num_sub (endTime task) (startTime task)).
  set (t' := set_timing d (num_sub d (sum_numbers ds)) task).
  assert (Hother : ∀ c, i < c → <[i := t']> s1 !! c = s1 !! c).
  { intros c Hc. apply list_lookup_insert_ne. lia. }
  exists (<[i := t']> s1), d. split; [|split; [|split; [|split]]].
  - simpl. rewrite Htask, Hrun. simpl. rewrite Hi1. reflexivity.
  - eapply unchanged_but_trans; [exact Hun|].
    apply (unchanged_but_insert set_times (NaN, NaN) set_times_set_times
             s1 i task (d, num_sub d (sum_numbers ds)) Hi1).
  - intros j Hj. rewrite list_lookup_insert_ne.
    + apply Hframe. intros c Hc Hw. apply Hj. eapply within_under_child; [|exact Hw].
      by rewrite Hch.
    + intros ->. apply Hj, within_self.
  - exists t'. split; [|reflexivity].
    apply list_lookup_insert_eq. by eapply lookup_lt_Some.
  - intros j tj Hw Hj.
    destruct (within_inv st i j Hw) as [->|(c & Hc & Hwc)].
    + rewrite list_lookup_insert_eq in Hj by by eapply lookup_lt_Some.
      injection Hj as <-. split; [reflexivity|]. simpl. f_equal.
      unfold childrenDuration. simpl. fold (durations (<[i := t']> s1) (children task)).
      rewrite Hds. f_equal. symmetry. apply durations_ext. intros c Hc. apply Hother.
      apply (child_gt st F). by rewrite Hch.
    + pose proof (child_gt st F _ _ Hc) as Hcgt.
      pose proof (within_le st F _ _ Hwc) as Hcle.
      rewrite Hother in Hj by lia.
      apply (timed_ext s1).
      * intros c' Hc'. apply Hother.
        assert (j < c'); [|lia]. apply (child_gt st F).
        rewrite <- (same_shape_children_of _ _ j
                      (unchanged_but_shape _ _ skeleton_set_times _ _ Hun)).
        by rewrite (children_of_Some s1 j tj Hj).
      * eapply Hpost; [|exact Hwc|exact Hj]. by rewrite <- Hch.
Qed.

(* ================================================================== *)
(** * The first loop of [getMainThreadTasks] *)
(* ================================================================== *)

(** What a pass that writes other fields keeps of a task. *)
Definition timing_view (t : TaskNode) :=
  (skeleton t, duration t, selfTime t).

Definition url_view (t : TaskNode) :=
  (skeleton t, attributableURL t).

Lemma unchanged_but_view {V W : Type} (setV : V → TaskNode → TaskNode) (undef : V)
    (view : TaskNode → W) (st st' : Store) :
  (∀ v t, view (setV v t) = view t) →
  unchanged_but setV undef st st' → view <$> st' = view <$> st.
Proof.
  unfold unchanged_but. intros Hview H.
  assert (E : ∀ l : Store, view <$> l = view <$> (setV undef <$> l)).
  { intros l. rewrite <- list_fmap_compose. apply list_fmap_ext.
    intros ? t _. simpl. by rewrite Hview. }
  rewrite (E st), (E st'). by rewrite H.
Qed.

Lemma view_lookup {W : Type} (view : TaskNode → W) (st st' : Store) (j : nat) :
  view <$> st' = view <$> st → view <$> st' !! j = view <$> st !! j.
Proof. intros H. by rewrite <- !list_lookup_fmap, H. Qed.

Lemma view_lookup_Some {W : Type} (view : TaskNode → W) (st st' : Store)
    (j : nat) (t' : TaskNode) :
  view <$> st' = view <$> st → st' !! j = Some t' →
  ∃ t, st !! j = Some t ∧ view t' = view t.
Proof.
  intros H Ht'. pose proof (view_lookup view st st' j H) as E. rewrite Ht' in E.
  destruct (st !! j) as [t|]; simpl in E; [|discriminate E].
  exists t. split; [reflexivity | congruence].
Qed.

Lemma durations_view (st st' : Store) (l : list nat) :
  timing_view <$> st' = timing_view <$> st → durations st' l = durations st l.
Proof.
  intros H. induction l as [|c l IH]; [reflexivity|].
  rewrite !durations_cons, IH. pose proof (view_lookup _ _ _ c H) as E.
  destruct (st' !! c) as [t'|], (st !! c) as [t|]; simpl in E; try done.
  unfold timing_view in E. congruence.
Qed.

Lemma timed_view (st st' : Store) (t t' : TaskNode) :
  timing_view <$> st' = timing_view <$> st → timing_view t' = timing_view t →
  timed st t → timed st' t'.
Proof.
  intros H E [H1 H2].
  assert (Esk : skeleton t' = skeleton t) by (unfold timing_view in E; congruence).
  assert (Ed : duration t' = duration t) by (unfold timing_view in E; congruence).
  assert (Es : selfTime t' = selfTime t) by (unfold timing_view in E; congruence).
  destruct (skeleton_fields _ _ Esk) as (_ & Ech & _ & Est & Een).
  split.
  - by rewrite Ed, Een, Est.
  - rewrite Es, Ed, H2. unfold childrenDuration.
    fold (durations st (children t)). fold (durations st' (children t')).
    by rewrite Ech, (durations_view st st').
Qed.

Lemma parentURL_view (st st' : Store) (t t' : TaskNode) :
  url_view <$> st' = url_view <$> st → url_view t' = url_view t →
  parentURL_of st' t' = parentURL_of st t.
Proof.
  intros H E.
  assert (Esk : skeleton t' = skeleton t) by (unfold url_view in E; congruence).
  destruct (skeleton_fields _ _ Esk) as (_ & _ & Ep & _).
  unfold parentURL_of. rewrite Ep. destruct (parent t) as [p|]; [|reflexivity].
  pose proof (view_lookup _ _ _ p H) as Ev.
  destruct (st' !! p) as [pt'|], (st !! p) as [pt|]; simpl in Ev; try done.
  unfold url_view in Ev. congruence.
Qed.

Lemma complete_ext (st st' : Store) (t : TaskNode) :
  (∀ c, c ∈ children t → st' !! c = st !! c) →
  (∀ p, parent t = Some p → st' !! p = st !! p) →
  complete st t → complete st' t.
Proof.
  intros Hc Hp (HT & HU & HG). split; [by apply (timed_ext st)|].
  unfold parentURL_of, parentGroup_of in *.
  destruct (parent t) as [p|]; [|done]. by rewrite (Hp p eq_refl).
Qed.

(** A node lies below one root only. *)
Lemma roots_unique (st : Store) (r1 r2 j : nat) :
  forest st → parent_of st r1 = None → parent_of st r2 = None →
  within st r1 j → within st r2 j → r1 = r2.
Proof.
  intros F R1 R2. induction j as [j IH] using lt_wf_ind. intros W1 W2.
  destruct (decide (j = r1)) as [->|N1].
  { destruct (decide (r1 = r2)) as [|N]; [done|].
    destruct (within_parent st F _ _ W2 N) as (p & Hp & _). congruence. }
  destruct (decide (j = r2)) as [->|N2].
  { destruct (within_parent st F _ _ W1 N1) as (p & Hp & _). congruence. }
  destruct (within_parent st F _ _ W1 N1) as (p & Hp & Wp).
  destruct (within_parent st F _ _ W2 N2) as (p' & Hp' & Wp').
  rewrite Hp in Hp'. injection Hp' as <-.
  apply (IH p); [|exact Wp|exact Wp']. by eapply forest_parent_lt.
Qed.

Lemma skeleton_set_attributableURL (u : option string) (t : TaskNode) :
  skeleton (set_attributableURL u t) = skeleton t.
Proof. reflexivity. Qed.

Lemma skeleton_set_group (g : option GroupValue) (t : TaskNode) :
  skeleton (set_group g t) = skeleton t.
Proof. reflexivity. Qed.

(** The three passes, started at a root. *)
Lemma computeToplevel_root (fuel r : nat) (st : Store) :
  forest st → r < length st → length st ≤ fuel → parent_of st r = None →
  ∃ st', computeToplevel fuel st r = Ok st'
    ∧ same_shape st st'
    ∧ (∀ j, ¬ within st r j → st' !! j = st !! j)
    ∧ (∀ j t', within st r j → st' !! j = Some t' → complete st' t').
Proof.
  intros F Hr Hfuel Hroot.
  destruct (selfTime_correct fuel r st F Hr) as (st1 & d & Hrun1 & Hun1 & Hfr1 & _ & Hpost1);
    [lia|].
  pose proof (unchanged_but_shape _ _ skeleton_set_times _ _ Hun1) as Hsh1.
  pose proof (same_shape_forest _ _ Hsh1 F) as F1.
  pose proof (same_shape_length _ _ Hsh1) as L1.
  destruct (preorder_root attributableURL set_attributableURL resolveURL None
              (λ _ _, eq_refl) (λ _ _ _, eq_refl) skeleton_set_attributableURL
              fuel r st1 F1)
    as (st2 & Hrun2 & Hun2 & Hfr2 & Hpost2); [lia | lia | |].
  { by rewrite (same_shape_parent_of _ _ _ Hsh1). }
  pose proof (unchanged_but_shape _ _ skeleton_set_attributableURL _ _ Hun2) as Hsh2.
  pose proof (same_shape_forest _ _ Hsh2 F1) as F2.
  pose proof (same_shape_length _ _ Hsh2) as L2.
  destruct (preorder_root group set_group resolveGroup None
              (λ _ _, eq_refl) (λ _ _ _, eq_refl) skeleton_set_group fuel r st2 F2)
    as (st3 & Hrun3 & Hun3 & Hfr3 & Hpost3); [lia | lia | |].
  { by rewrite (same_shape_parent_of _ _ _ Hsh2), (same_shape_parent_of _ _ _ Hsh1). }
  pose proof (unchanged_but_shape _ _ skeleton_set_group _ _ Hun3) as Hsh3.
  assert (W12 : ∀ j, within st1 r j ↔ within st r j)
    by (intros j; by apply same_shape_within_iff).
  assert (W23 : ∀ j, within st2 r j ↔ within st1 r j)
    by (intros j; by apply same_shape_within_iff).
  exists st3. split; [|split; [|split]].
  - unfold computeToplevel.
    destruct (lookup_lt_is_Some_2 st r Hr) as [task Htask]. rewrite Htask.
    unfold parent_of in Hroot. rewrite Htask in Hroot. simpl in Hroot. rewrite Hroot.
    rewrite Hrun1. simpl. rewrite attributableURL_preorder, Hrun2. simpl.
    rewrite taskGroup_preorder. exact Hrun3.
  - eapply same_shape_trans; [exact Hsh1|]. eapply same_shape_trans; [exact Hsh2 | exact Hsh3].
  - intros j Hj. rewrite Hfr3, Hfr2, Hfr1; [reflexivity | exact Hj | |].
    + by rewrite W12.
    + by rewrite W23, W12.
  - intros j t3 Hw Hj3.
    pose proof (unchanged_but_view set_group None timing_view st2 st3 (λ _ _, eq_refl) Hun3)
      as HT3.
    pose proof (unchanged_but_view set_group None url_view st2 st3 (λ _ _, eq_refl) Hun3)
      as HU3.
    pose proof (unchanged_but_view set_attributableURL None timing_view st1 st2
                  (λ _ _, eq_refl) Hun2) as HT2.
    destruct (view_lookup_Some timing_view st2 st3 j t3 HT3 Hj3) as (t2 & Hj2 & E32).
    destruct (view_lookup_Some url_view st2 st3 j t3 HU3 Hj3) as (t2' & Hj2' & E32').
    rewrite Hj2 in Hj2'. injection Hj2' as <-.
    destruct (view_lookup_Some timing_view st1 st2 j t2 HT2 Hj2) as (t1 & Hj1 & E21).
    split; [|split].
    + apply (timed_view st2 st3 t2 t3 HT3 E32).
      apply (timed_view st1 st2 t1 t2 HT2 E21).
      apply (Hpost1 j t1); [exact Hw | exact Hj1].
    + rewrite (parentURL_view st2 st3 t2 t3 HU3 E32').
      assert (Esk : skeleton t3 = skeleton t2) by (unfold url_view in E32'; congruence).
      assert (EU : attributableURL t3 = attributableURL t2)
        by (unfold url_view in E32'; congruence).
      destruct (skeleton_fields _ _ Esk) as (-> & _). rewrite EU.
      apply (Hpost2 j t2); [by rewrite W12 | exact Hj2].
    + apply (Hpost3 j t3); [by rewrite W23, W12 | exact Hj3].
Qed.

(** The loop over the array: the tasks below the roots met so far are complete. *)
Lemma toplevel_loop (fuel : nat) (st0 : Store) :
  forest st0 → length st0 ≤ fuel →
  ∀ (m k : nat) (st : Store),
    k + m = length st0 → same_shape st0 st →
    (∀ j t r, st !! j = Some t → r < k → parent_of st0 r = None → within st0 r j →
              complete st t) →
    ∃ st', foldM (computeToplevel fuel) st (seq k m) = Ok st'
      ∧ same_shape st0 st'
      ∧ (∀ j t r, st' !! j = Some t → r < k + m → parent_of st0 r = None →
                  within st0 r j → complete st' t).
Proof.
  intros F0 Hfuel. induction m as [|m IH]; intros k st Hk Hsh Hinv.
  { exists st. split; [reflexivity|]. split; [exact Hsh|].
    intros j t r Hj Hr. apply (Hinv j t r Hj). lia. }
  pose proof (same_shape_forest _ _ Hsh F0) as F.
  pose proof (same_shape_length _ _ Hsh) as L.
  assert (Hklt : k < length st) by lia.
  destruct (parent_of st0 k) as [p|] eqn:Hpk.
  - (* not a root: [continue] *)
    destruct (IH (S k) st) as (st' & Hrun & Hsh' & Hinv'); [lia | exact Hsh | |].
    + intros j t r Hj Hr Hroot. apply (Hinv j t r Hj); [|exact Hroot].
      destruct (decide (r = k)) as [->|]; [congruence | lia].
    + exists st'. split; [|split; [exact Hsh'|]].
      * simpl. unfold computeToplevel at 1.
        rewrite <- (same_shape_parent_of _ _ _ Hsh) in Hpk.
        apply parent_of_Some in Hpk as (task & -> & ->). simpl. exact Hrun.
      * intros j t r Hj Hr. apply (Hinv' j t r Hj). lia.
  - (* a root *)
    destruct (computeToplevel_root fuel k st F Hklt) as (st1 & Hrun1 & Hsh1 & Hfr1 & Hpost1);
      [lia | by rewrite (same_shape_parent_of _ _ _ Hsh) |].
    destruct (IH (S k) st1) as (st' & Hrun & Hsh' & Hinv'); [lia | | |].
    + by eapply same_shape_trans.
    + intros j t r Hj Hr Hroot Hw.
      destruct (decide (r = k)) as [->|Hne].
      * apply (Hpost1 j t); [|exact Hj]. by rewrite (same_shape_within_iff _ _ _ _ Hsh).
      * assert (Hout : ¬ within st0 k j).
        { intros Hwk. apply Hne. by eapply (roots_unique st0 r k j). }
        assert (Hj0 : st !! j = Some t) by (rewrite <- Hfr1; [exact Hj|];
          by rewrite (same_shape_within_iff _ _ _ _ Hsh)).
        apply (complete_ext st).
        -- intros c Hc. apply Hfr1. rewrite (same_shape_within_iff _ _ _ _ Hsh).
           apply (outside_root_child st0 F0 k j c Hpk Hout).
           rewrite <- (same_shape_children_of _ _ _ Hsh).
           by rewrite (children_of_Some st j t Hj0).
        -- intros p Hp. apply Hfr1. rewrite (same_shape_within_iff _ _ _ _ Hsh).
           apply (outside_parent st0 F0 k j p Hout).
           rewrite <- (same_shape_parent_of _ _ _ Hsh). apply parent_of_Some. eauto.
        -- apply (Hinv j t r Hj0); [lia | exact Hroot | exact Hw].
    + exists st'. split; [|split; [exact Hsh'|]].
      * simpl. rewrite Hrun1. simpl. exact Hrun.
      * intros j t r Hj Hr. apply (Hinv' j t r Hj). lia.
Qed.

Lemma computedTasks_ok (traceEvents : list TraceEvent) (st0 : Store) :
  _createTasksFromEvents traceEvents = Ok st0 →
  ∃ st, computedTasks traceEvents = Ok st ∧ same_shape st0 st ∧ computed st.
Proof.
  intros H0. destruct (createTasksFromEvents_reconstructed _ _ H0) as (s & <- & R).
  pose proof (rec_forest s R) as F.
  destruct (toplevel_loop (length (tasks s)) (tasks s) F (le_n _)
              (length (tasks s)) 0 (tasks s)) as (st & Hrun & Hsh & Hinv).
  - reflexivity.
  - apply same_shape_refl.
  - intros j t r _ Hr. lia.
  - exists st. split; [|split; [exact Hsh|]].
    + unfold computedTasks. rewrite H0. exact Hrun.
    + intros j t Hj.
      assert (Hlt : j < length (tasks s)).
      { rewrite <- (same_shape_length _ _ Hsh). by eapply lookup_lt_Some. }
      destruct (below_a_root (tasks s) F j Hlt) as (r & Hr & Hroot & Hw).
      apply (Hinv j t r Hj); [simpl; lia | exact Hroot | exact Hw].
Qed.

(* ================================================================== *)
(** * The second loop of [getMainThreadTasks] *)
(* ================================================================== *)

(** The loop over the indices [k, k + m): it either rewrites every task of the
    range, each of them having a finite self-time afterwards, or throws at a
    task whose self-time is not finite. *)
Lemma normalize_loop (firstTs : number) (m k : nat) (st : Store) :
  k + m ≤ length st →
  (∃ out, foldM (normalizeBody firstTs) st (seq k m) = Ok out
     ∧ (∀ i, out !! i = if decide (k ≤ i < k + m)
                        then normalize firstTs <$> st !! i else st !! i)
     ∧ (∀ i t, k ≤ i < k + m → st !! i = Some t →
               isFinite (selfTime (normalize firstTs t)) = true))
  ∨ (foldM (normalizeBody firstTs) st (seq k m) = Throw InvalidTimingError
     ∧ ∃ i t, k ≤ i < k + m ∧ st !! i = Some t
              ∧ isFinite (selfTime (normalize firstTs t)) = false).
Proof.
  revert k st. induction m as [|m IH]; intros k st Hlen.
  { left. exists st. split; [reflexivity|]. split.
    - intros i. rewrite decide_False; [reflexivity | lia].
    - intros i t Hi. lia. }
  destruct (lookup_lt_is_Some_2 st k) as [task Htask]; [lia|].
  assert (Hbody : normalizeBody firstTs st k =
            if isFinite (selfTime (normalize firstTs task))
            then Ok (<[k := normalize firstTs task]> st)
            else Throw InvalidTimingError).
  { unfold normalizeBody. rewrite Htask. reflexivity. }
  change (seq k (S m)) with (k :: seq (S k) m). cbn [foldM]. rewrite Hbody.
  destruct (isFinite (selfTime (normalize firstTs task))) eqn:Hfin; cbn [bind].
  2:{ right. split; [reflexivity|]. exists k, task. repeat split; [lia | lia | done | done]. }
  set (st1 := <[k := normalize firstTs task]> st).
  assert (Hne : ∀ i, i ≠ k → st1 !! i = st !! i).
  { intros i Hi. apply list_lookup_insert_ne. lia. }
  destruct (IH (S k) st1) as [(out & Hrun & Hout & Hall)|(Hrun & i & t & Hi & Ht & Hnf)].
  { unfold st1. rewrite length_insert. lia. }
  - left. exists out. split; [exact Hrun|]. split.
    + intros i. rewrite Hout. destruct (decide (i = k)) as [->|Hik].
      * rewrite decide_False by lia. rewrite decide_True by lia.
        unfold st1. rewrite list_lookup_insert_eq by lia. by rewrite Htask.
      * rewrite (Hne i Hik).
        destruct (decide (S k ≤ i < S k + m)), (decide (k ≤ i < k + S m));
          try reflexivity; lia.
    + intros i t Hi Ht. destruct (decide (i = k)) as [->|Hik].
      * rewrite Htask in Ht. by injection Ht as <-.
      * apply (Hall i); [lia|]. by rewrite (Hne i Hik).
  - right. split; [exact Hrun|]. exists i, t. repeat split; try lia; try done.
    rewrite <- (Hne i); [exact Ht | lia].
Qed.

(** The forest that is returned is the computed one, every task rewritten. *)
Lemma getMainThreadTasks_Ok (traceEvents : list TraceEvent) (out : Store) :
  getMainThreadTasks traceEvents = Ok out →
  ∃ pre, computedTasks traceEvents = Ok pre
    ∧ out = normalize (firstTs_of pre) <$> pre
    ∧ (∀ i t, pre !! i = Some t →
              isFinite (selfTime (normalize (firstTs_of pre) t)) = true).
Proof.
  unfold getMainThreadTasks. intros H. apply bind_Ok in H as (pre & Hpre & Hrun).
  exists pre. split; [exact Hpre|].
  destruct (normalize_loop (firstTs_of pre) (length pre) 0 pre (le_n _))
    as [(out' & Hrun' & Hout & Hall)|(Hrun' & _)]; [|congruence].
  rewrite Hrun' in Hrun. injection Hrun as <-. split.
  - apply list_eq. intros i. rewrite Hout, list_lookup_fmap.
    case_decide as Hi; [reflexivity|].
    rewrite (lookup_ge_None_2 pre i); [reflexivity | lia].
  - intros i t Ht. apply (Hall i t); [|exact Ht].
    apply lookup_lt_Some in Ht. lia.
Qed.

(** A task whose self-time is not finite makes the second loop throw. *)
Lemma getMainThreadTasks_invalid (traceEvents : list TraceEvent) (pre : Store)
    (i : nat) (t : TaskNode) :
  computedTasks traceEvents = Ok pre → pre !! i = Some t → selfTime t = NaN →
  getMainThreadTasks traceEvents = Throw InvalidTimingError.
Proof.
  intros Hpre Ht Hnan. unfold getMainThreadTasks. rewrite Hpre. simpl.
  destruct (normalize_loop (firstTs_of pre) (length pre) 0 pre (le_n _))
    as [(out' & _ & _ & Hall)|(Hrun' & _)]; [|exact Hrun'].
  specialize (Hall i t). simpl in Hall. rewrite Hnan in Hall. simpl in Hall.
  apply lookup_lt_Some in Ht as Hlt. discriminate Hall; [lia | exact Ht].
Qed.

(** The fuel is enough: the computation returns a forest or throws. *)
Lemma getMainThreadTasks_total (traceEvents : list TraceEvent) :
  getMainThreadTasks traceEvents ≠ Stuck.
Proof.
  unfold getMainThreadTasks.
  destruct (_createTasksFromEvents traceEvents) as [st0| |] eqn:H0.
  - destruct (computedTasks_ok _ _ H0) as (pre & -> & _). simpl.
    destruct (normalize_loop (firstTs_of pre) (length pre) 0 pre (le_n _))
      as [(out' & -> & _)|(-> & _)]; discriminate.
  - unfold computedTasks. rewrite H0. discriminate.
  - exfalso. unfold _createTasksFromEvents in H0.
    destruct (findTracingStartedEvt traceEvents) as [a| |] eqn:Ha; simpl in H0.
    + pose proof (loop_not_stuck a traceEvents) as Hns.
      destruct (foldM (loopBody a) initialState traceEvents); simpl in H0; congruence.
    + discriminate H0.
    + unfold findTracingStartedEvt in Ha.
      by destruct (List.find _ traceEvents).
Qed.

(* ================================================================== *)
(** * Arithmetic on numbers *)
(* ================================================================== *)

Lemma thousand_eq : thousand = Num (inject_Z 1000).
Proof. vm_compute. reflexivity. Qed.

Lemma num_div_thousand (a : number) :
  num_div a thousand
    = match a with Num x => Num (round (x / inject_Z 1000)) | NaN => NaN end.
Proof. rewrite thousand_eq. by destruct a. Qed.

Lemma num_sub_Num (a b : number) (q : Q) :
  num_sub a b = Num q → ∃ x y, a = Num x ∧ b = Num y ∧ q = round (x - y).
Proof. destruct a as [x|], b as [y|]; simpl; intros [=]. by exists x, y. Qed.

(** The order of the numbers, and the operations that keep it. *)

Lemma num_leq_trans (a b c : number) : num_leq a b → num_leq b c → num_leq a c.
Proof.
  destruct a as [x|], b as [y|], c as [z|]; simpl; try done. apply Qle_trans.
Qed.

Lemma of_Z_mono (z1 z2 : Z) : (z1 ≤ z2)%Z → num_leq (of_Z z1) (of_Z z2).
Proof. intros H. simpl. apply round_mono. by rewrite <- Zle_Qle. Qed.

Lemma num_sub_mono (a b f : number) :
  isFinite f = true → num_leq a b → num_leq (num_sub a f) (num_sub b f).
Proof.
  destruct a as [x|], b as [y|], f as [z|]; simpl; try done.
  intros _ H. apply round_mono. lra.
Qed.

Lemma num_div_thousand_mono (a b : number) :
  num_leq a b → num_leq (num_div a thousand) (num_div b thousand).
Proof.
  rewrite !num_div_thousand. destruct a as [x|], b as [y|]; simpl; try done.
  intros H. apply round_mono. unfold Qdiv.
  apply Qmult_le_compat_r; [exact H | done].
Qed.

(** Rebasing and scaling keep the order. *)
Lemma normalize_mono (a b f : number) :
  isFinite f = true → num_leq a b →
  num_leq (num_div (num_sub a f) thousand) (num_div (num_sub b f) thousand).
Proof. intros Hf H. by apply num_div_thousand_mono, num_sub_mono. Qed.

Lemma num_div_thousand_nonneg (a : number) :
  num_leq (of_Z 0) a → num_leq (of_Z 0) (num_div a thousand).
Proof.
  intros H. apply (num_div_thousand_mono (of_Z 0) a) in H.
  rewrite num_div_thousand in H. exact H.
Qed.

Lemma num_sub_nonneg (a b : number) :
  num_leq a b → num_leq (of_Z 0) (num_sub b a).
Proof.
  destruct a as [x|], b as [y|]; simpl; try done.
  intros H. change (0 <= round (y - x))%Q. apply round_nonneg. lra.
Qed.

(** A number that an operation has given is a double. *)
Definition isDouble (a : number) : Prop :=
  match a with
  | Num x => round x = x
  | NaN => True
  end.

Lemma of_Z_isDouble (z : Z) : isDouble (of_Z z).
Proof. apply round_idempotent. Qed.

Lemma num_add_nonneg (a b : number) :
  isDouble a → num_leq (of_Z 0) b → isFinite a = true → num_leq a (num_add a b).
Proof.
  destruct a as [x|], b as [y|]; simpl; try done.
  intros Hx Hy _. change (0 <= y)%Q in Hy. rewrite <- Hx at 1. apply round_mono. lra.
Qed.

(** Integers of less than 54 bits are doubles, and so are their sums and
    differences of less than 54 bits: no rounding takes place. *)
Lemma of_Z_exact (z : Z) : (Z.abs z < 2 ^ 53)%Z → of_Z z = Num (inject_Z z).
Proof. intros H. unfold of_Z. by rewrite round_Z. Qed.

Lemma of_Z_add (a b : Z) :
  (Z.abs a < 2 ^ 53)%Z → (Z.abs b < 2 ^ 53)%Z →
  num_add (of_Z a) (of_Z b) = of_Z (a + b).
Proof.
  intros Ha Hb. rewrite (of_Z_exact a Ha), (of_Z_exact b Hb). unfold of_Z, num_add.
  f_equal. apply round_comp. by rewrite inject_Z_plus.
Qed.

Lemma of_Z_sub (a b : Z) :
  (Z.abs a < 2 ^ 53)%Z → (Z.abs b < 2 ^ 53)%Z →
  num_sub (of_Z a) (of_Z b) = of_Z (a - b).
Proof.
  intros Ha Hb. rewrite (of_Z_exact a Ha), (of_Z_exact b Hb). unfold of_Z, num_sub.
  f_equal. apply round_comp. unfold Z.sub. rewrite inject_Z_plus, inject_Z_opp. ring.
Qed.

Lemma parentURL_normalize (firstTs : number) (st : Store) (t : TaskNode) :
  parentURL_of (normalize firstTs <$> st) (normalize firstTs t) = parentURL_of st t.
Proof.
  unfold parentURL_of. simpl. destruct (parent t) as [p|]; [|reflexivity].
  rewrite list_lookup_fmap. by destruct (st !! p).
Qed.

Lemma parentGroup_normalize (firstTs : number) (st : Store) (t : TaskNode) :
  parentGroup_of (normalize firstTs <$> st) (normalize firstTs t) = parentGroup_of st t.
Proof.
  unfold parentGroup_of. simpl. destruct (parent t) as [p|]; [|reflexivity].
  rewrite list_lookup_fmap. by destruct (st !! p).
Qed.

(** What is known of the store between the two loops. *)
Lemma computedTasks_facts (traceEvents : list TraceEvent) (pre : Store) :
  computedTasks traceEvents = Ok pre →
  ∃ st0, _createTasksFromEvents traceEvents = Ok st0
    ∧ same_shape st0 pre ∧ forest pre ∧ computed pre
    ∧ (∀ i t, pre !! i = Some t → startTime t = of_Z (ts (event t))).
Proof.
  intros H. pose proof H as H'. unfold computedTasks in H'.
  apply bind_Ok in H' as (st0 & H0 & _).
  destruct (computedTasks_ok _ _ H0) as (st & Hst & Hsh & Hc).
  rewrite H in Hst. injection Hst as <-.
  destruct (createTasksFromEvents_reconstructed _ _ H0) as (s & <- & R).
  exists (tasks s). split; [exact H0|]. split; [exact Hsh|].
  split; [exact (same_shape_forest _ _ Hsh (rec_forest s R))|]. split; [exact Hc|].
  intros i t Ht.
  destruct (view_lookup_Some skeleton (tasks s) pre i t Hsh Ht) as (t0 & Ht0 & E).
  destruct (skeleton_fields _ _ E) as (-> & _ & _ & -> & _).
  by apply (rec_fresh s R i t0).
Qed.

Lemma firstTs_of_finite (traceEvents : list TraceEvent) (pre : Store) :
  computedTasks traceEvents = Ok pre → ∃ q, firstTs_of pre = Num q.
Proof.
  intros H. destruct (computedTasks_facts _ _ H) as (_ & _ & _ & _ & _ & Hstart).
  unfold firstTs_of. destruct (pre !! 0) as [t|] eqn:E.
  - rewrite (Hstart 0 t E). by eexists.
  - by eexists.
Qed.

(* ================================================================== *)
(** * The reconstruction loop on ascending timestamps *)
(* ================================================================== *)

Lemma onchain_None (st : Store) (j : nat) : ¬ onchain st None j.
Proof. inversion 1. Qed.

Lemma onchain_inv (st : Store) (c j : nat) :
  onchain st (Some c) j ↔ j = c ∨ onchain st (parent_of st c) j.
Proof.
  split.
  - inversion 1; subst; [by left | by right].
  - intros [->|H]; [apply onchain_here | by apply onchain_up].
Qed.

Lemma onchain_le (st : Store) (cur : option nat) (j : nat) :
  forest st → onchain st cur j → ∀ c, cur = Some c → j ≤ c.
Proof.
  intros F. induction 1 as [c|c j H IH]; intros c' [= <-]; [lia|].
  destruct (parent_of st c) as [p|] eqn:Hp; [|by apply onchain_None in H].
  specialize (IH p eq_refl). pose proof (forest_parent_lt st F _ _ Hp). lia.
Qed.

(** The chain of a task depends on the parents of the tasks before it only. *)
Lemma onchain_agree (st st' : Store) (n : nat) (cur : option nat) (j : nat) :
  forest st →
  (∀ i, i < n → parent_of st' i = parent_of st i) →
  (∀ c, cur = Some c → c < n) →
  onchain st' cur j ↔ onchain st cur j.
Proof.
  intros F Hagree Hcur. split.
  - intros H. induction H as [c|c j H IH]; [apply onchain_here|].
    specialize (Hcur c eq_refl). apply onchain_up. rewrite Hagree in IH by done.
    apply IH. intros p Hp. pose proof (forest_parent_lt st F _ _ Hp). lia.
  - intros H. induction H as [c|c j H IH]; [apply onchain_here|].
    specialize (Hcur c eq_refl). apply onchain_up. rewrite Hagree by done.
    apply IH. intros p Hp. pose proof (forest_parent_lt st F _ _ Hp). lia.
Qed.

Lemma num_leq_refl_of_Z (z : Z) : num_leq (of_Z z) (of_Z z).
Proof. simpl. apply Qle_refl. Qed.

Lemma num_leq_of_Z (a : number) (x y : Z) :
  num_leq a (of_Z x) → (x ≤ y)%Z → num_leq a (of_Z y).
Proof.
  intros H Hxy. eapply num_leq_trans; [exact H|]. by apply of_Z_mono.
Qed.

Lemma popped_closed (a : number) (t : Z) :
  isFinite a && num_le a (of_Z t) = true → num_leq a (of_Z t).
Proof.
  destruct a as [q|]; simpl; [|done]. intros H. by apply Qle_bool_iff.
Qed.

(** The close-out loop moves the cursor up the chain, past closed tasks only. *)
Lemma closeOut_chain (st : Store) (t : Z) (fuel : nat) (cur r : option nat) :
  closeOut fuel st cur t = Ok r →
  (∀ j, onchain st r j → onchain st cur j)
  ∧ ((∀ j tj, st !! j = Some tj → ¬ onchain st cur j → num_leq (endTime tj) (of_Z t)) →
     (∀ j tj, st !! j = Some tj → ¬ onchain st r j → num_leq (endTime tj) (of_Z t))).
Proof.
  revert cur. induction fuel as [|fuel IH]; intros cur H.
  - destruct cur as [c|]; simpl in H; [|by injection H as <-].
    destruct (st !! c) as [task|]; [|discriminate H].
    destruct (isFinite (endTime task) && num_le (endTime task) (of_Z t));
      [discriminate H | by injection H as <-].
  - destruct cur as [c|]; simpl in H; [|by injection H as <-].
    destruct (st !! c) as [task|] eqn:Htask; [|discriminate H].
    destruct (isFinite (endTime task) && num_le (endTime task) (of_Z t)) eqn:Hpop;
      [|by injection H as <-].
    assert (Hp : parent task = parent_of st c) by (unfold parent_of; by rewrite Htask).
    rewrite Hp in H. destruct (IH _ H) as [IH1 IH2]. split.
    + intros j Hj. apply onchain_up. by apply IH1.
    + intros Hclosed. apply IH2. intros j tj Hj Hoff.
      destruct (decide (j = c)) as [->|Hne].
      * rewrite Htask in Hj. injection Hj as <-. by apply popped_closed.
      * apply (Hclosed j tj Hj). rewrite onchain_inv. by intros [?|?].
Qed.

Lemma timeline_initial (last : Z) : timeline last initialState.
Proof.
  split; simpl; intros *; rewrite lookup_nil; discriminate.
Qed.

(** Step 1 of the body: the close-out loop. *)
Lemma timeline_closeOut (last t : Z) (s : LoopState) (r : option nat) :
  (last ≤ t)%Z → timeline last s →
  closeOut (length (tasks s)) (tasks s) (currentTask s) t = Ok r →
  timeline t {| tasks := tasks s; currentTask := r |}.
Proof.
  intros Hle [T1 T2 T3 T4 T5] Hr.
  destruct (closeOut_chain _ _ _ _ _ Hr) as [C1 C2]. split; simpl.
  - intros i ti Hi. specialize (T1 i ti Hi). lia.
  - exact T2.
  - apply C2. intros j tj Hj Hoff. eapply num_leq_of_Z; [|exact Hle]. by eapply T3.
  - intros j tj Hj Hon. apply (T4 j tj Hj). by apply C1.
  - exact T5.
Qed.

(** Steps 2 and 3: a task is created under the cursor. *)
Lemma timeline_create (s : LoopState) (e : TraceEvent) :
  reconstructed s → timeline (ts e) s →
  timeline (ts e) {| tasks := _createNewTaskNode e (currentTask s) (tasks s);
                     currentTask := Some (length (tasks s)) |}.
Proof.
  intros [F C _] [T1 T2 T3 T4 T5].
  set (st := tasks s) in *. set (r := currentTask s) in *.
  set (st' := _createNewTaskNode e r st). set (n := length st).
  destruct (createNewTaskNode_new e r st) as (tn & Hn & Hev & Hpar & _ & _ & Hend & _).
  fold st' n in Hn.
  (* the tasks that were there keep their event, parent and end time *)
  assert (Hold : ∀ i ti, st' !! i = Some ti → i ≠ n →
            ∃ t0, st !! i = Some t0 ∧ event ti = event t0 ∧ parent ti = parent t0
                  ∧ endTime ti = endTime t0).
  { intros i ti Hi Hne.
    assert (Hlt : i < n).
    { apply lookup_lt_Some in Hi. unfold st' in Hi.
      rewrite createNewTaskNode_length in Hi. fold n in Hi. lia. }
    destruct (lookup_lt_is_Some_2 st i Hlt) as [t0 Ht0].
    unfold st' in Hi. rewrite (createNewTaskNode_old e r st i t0 Ht0) in Hi.
    injection Hi as <-. exists t0. by case_decide. }
  assert (Hchain : ∀ j, onchain st' (Some n) j ↔ j = n ∨ onchain st r j).
  { intros j. rewrite onchain_inv.
    assert (E : parent_of st' n = r).
    { unfold st'. rewrite createNewTaskNode_parent_of. by rewrite decide_True. }
    rewrite E. rewrite (onchain_agree st st' n r j F); [done | | apply C].
    intros i Hi. unfold st'. rewrite createNewTaskNode_parent_of.
    rewrite decide_False; [done | fold n; lia]. }
  split; simpl; fold st st' r n.
  - intros i ti Hi. destruct (decide (i = n)) as [->|Hne].
    + rewrite Hn in Hi. injection Hi as <-. rewrite Hev. lia.
    + destruct (Hold i ti Hi Hne) as (t0 & Ht0 & -> & _). by eapply T1.
  - intros i ti p tp Hi Hp Hpt.
    assert (Hpn : p ≠ n).
    { intros ->. assert (n < i).
      { eapply forest_parent_lt; [apply forest_createNewTaskNode; [apply C | exact F]|].
        apply parent_of_Some. eauto. }
      apply lookup_lt_Some in Hi. unfold st' in Hi.
      rewrite createNewTaskNode_length in Hi. fold n in Hi. lia. }
    destruct (Hold p tp Hpt Hpn) as (tp0 & Htp0 & -> & _).
    destruct (decide (i = n)) as [->|Hne].
    + rewrite Hn in Hi. injection Hi as <-. rewrite Hev. by eapply T1.
    + destruct (Hold i ti Hi Hne) as (t0 & Ht0 & -> & Hp0 & _). rewrite Hp0 in Hp.
      by eapply T2.
  - intros j tj Hj Hoff. rewrite Hchain in Hoff.
    destruct (decide (j = n)) as [->|Hne]; [exfalso; apply Hoff; by left|].
    destruct (Hold j tj Hj Hne) as (t0 & Ht0 & _ & _ & ->).
    apply (T3 j t0 Ht0). intros Hon. apply Hoff. by right.
  - intros j tj Hj Hon HB. rewrite Hchain in Hon.
    destruct (decide (j = n)) as [->|Hne].
    + rewrite Hn in Hj. injection Hj as <-. destruct Hend as [Hnan|HX]; [exact Hnan|].
      rewrite Hev in HB. congruence.
    + destruct Hon as [?|Hon]; [done|].
      destruct (Hold j tj Hj Hne) as (t0 & Ht0 & Ee & _ & ->).
      apply (T4 j t0 Ht0 Hon). by rewrite <- Ee.
  - intros i ti p tp Hi Hp Hpt HB Hfin.
    assert (Hpn : p ≠ n).
    { intros ->. assert (n < i).
      { eapply forest_parent_lt; [apply forest_createNewTaskNode; [apply C | exact F]|].
        apply parent_of_Some. eauto. }
      apply lookup_lt_Some in Hi. unfold st' in Hi.
      rewrite createNewTaskNode_length in Hi. fold n in Hi. lia. }
    destruct (Hold p tp Hpt Hpn) as (tp0 & Htp0 & Ee & _ & Een).
    rewrite Ee in HB. rewrite Een in Hfin |- *.
    destruct (decide (i = n)) as [->|Hne].
    + rewrite Hn in Hi. injection Hi as <-. rewrite Hpar in Hp.
      rewrite (T4 p tp0 Htp0) in Hfin; [discriminate Hfin | | exact HB].
      rewrite Hp. apply onchain_here.
    + destruct (Hold i ti Hi Hne) as (t0 & Ht0 & _ & Hp0 & ->). rewrite Hp0 in Hp.
      by eapply T5.
Qed.

(** Step 4: the current task is closed by an End event. *)
Lemma timeline_close (s : LoopState) (e : TraceEvent) (c : nat) (task : TaskNode) :
  reconstructed s → timeline (ts e) s →
  currentTask s = Some c → tasks s !! c = Some task → ph (event task) = "B" →
  timeline (ts e) {| tasks := <[c := set_endTime (of_Z (ts e)) task]> (tasks s);
                     currentTask := parent task |}.
Proof.
  intros [F C _] [T1 T2 T3 T4 T5] Hcur Htask HB.
  set (st := tasks s) in *. rewrite Hcur in *.
  set (st' := <[c := set_endTime (of_Z (ts e)) task]> st).
  assert (Hc : c < length st) by by eapply lookup_lt_Some.
  assert (Hpar : parent task = parent_of st c) by (unfold parent_of; by rewrite Htask).
  assert (Hold : ∀ i ti, st' !! i = Some ti →
            ∃ t0, st !! i = Some t0 ∧ event ti = event t0 ∧ parent ti = parent t0
                  ∧ (i ≠ c → endTime ti = endTime t0)
                  ∧ (i = c → endTime ti = of_Z (ts e))).
  { intros i ti Hi. unfold st' in Hi.
    apply list_lookup_insert_Some in Hi as [(<- & <- & _)|(Hne & Hi)].
    - exists task. by repeat split.
    - exists ti. repeat split; [exact Hi | done]. }
  assert (Hchain : ∀ j, onchain st' (parent task) j ↔ onchain st (parent_of st c) j).
  { intros j. rewrite Hpar. apply (onchain_agree st st' (length st) _ j F).
    - intros i _. by apply parent_of_set_endTime.
    - intros p Hp. pose proof (forest_parent_lt st F _ _ Hp). lia. }
  assert (Hnotc : ¬ onchain st (parent_of st c) c).
  { intros Hon. destruct (parent_of st c) as [p|] eqn:Hp; [|by apply onchain_None in Hon].
    pose proof (onchain_le st _ _ F Hon p eq_refl).
    pose proof (forest_parent_lt st F _ _ Hp). lia. }
  split; simpl; fold st st'.
  - intros i ti Hi. destruct (Hold i ti Hi) as (t0 & Ht0 & -> & _). by eapply T1.
  - intros i ti p tp Hi Hp Hpt.
    destruct (Hold i ti Hi) as (t0 & Ht0 & -> & Hp0 & _).
    destruct (Hold p tp Hpt) as (tp0 & Htp0 & -> & _). rewrite Hp0 in Hp. by eapply T2.
  - intros j tj Hj Hoff. rewrite Hchain in Hoff.
    destruct (Hold j tj Hj) as (t0 & Ht0 & _ & _ & Hne & Heq).
    destruct (decide (j = c)) as [->|Hjc].
    + rewrite (Heq eq_refl). apply num_leq_refl_of_Z.
    + rewrite (Hne Hjc). apply (T3 j t0 Ht0). rewrite onchain_inv. by intros [?|?].
  - intros j tj Hj Hon HBj. rewrite Hchain in Hon.
    destruct (Hold j tj Hj) as (t0 & Ht0 & Ee & _ & Hne & _).
    assert (Hjc : j ≠ c) by (intros ->; by apply Hnotc).
    rewrite (Hne Hjc). apply (T4 j t0 Ht0); [by apply onchain_up | by rewrite <- Ee].
  - intros i ti p tp Hi Hp Hpt HBp Hfin.
    destruct (Hold i ti Hi) as (t0 & Ht0 & _ & Hp0 & Hine & Hieq).
    destruct (Hold p tp Hpt) as (tp0 & Htp0 & Ee & _ & Hpne & Hpeq).
    rewrite Hp0 in Hp. rewrite Ee in HBp.
    assert (Hlt : p < i).
    { eapply forest_parent_lt; [exact F|]. apply parent_of_Some. eauto. }
    destruct (decide (p = c)) as [->|Hpc].
    + rewrite (Hpeq eq_refl), (Hine ltac:(lia)).
      apply (T3 i t0 Ht0). intros Hon.
      pose proof (onchain_le st _ _ F Hon c eq_refl). lia.
    + rewrite (Hpne Hpc) in Hfin |- *.
      destruct (decide (i = c)) as [->|Hic].
      * rewrite Htask in Ht0. injection Ht0 as <-.
        rewrite (T4 p tp0 Htp0) in Hfin; [discriminate Hfin | | exact HBp].
        apply onchain_up. rewrite <- Hpar, Hp. apply onchain_here.
      * rewrite (Hine Hic). by eapply T5.
Qed.

Lemma timeline_handleEvent (last : Z) (s s' : LoopState) (e : TraceEvent) :
  (last ≤ ts e)%Z → reconstructed s → timeline last s →
  handleEvent s e = Ok s' → timeline (ts e) s'.
Proof.
  intros Hle R T H. unfold handleEvent in H.
  apply bind_Ok in H as (r & Hr & H).
  pose proof (timeline_closeOut last (ts e) s r Hle T Hr) as T'.
  assert (R' : reconstructed {| tasks := tasks s; currentTask := r |}).
  { destruct R as [F C Fr]. split; simpl; [exact F | | exact Fr].
    destruct (closeOut_ok (tasks s) (ts e) (length (tasks s)) (currentTask s) F)
      as (r' & Hr' & Hlen).
    { intros c Hc. split; by apply C. }
    rewrite Hr in Hr'. injection Hr' as <-. exact Hlen. }
  destruct r as [c|].
  - destruct (is_phase e "X" || is_phase e "B").
    + injection H as <-. apply (timeline_create _ e R' T').
    + destruct (tasks s !! c) as [task|] eqn:Htask; [|discriminate H].
      destruct (String.eqb (ph (event task)) "B") eqn:HB; [|discriminate H].
      injection H as <-. apply String.eqb_eq in HB.
      by apply (timeline_close _ e c task R' T').
  - destruct (is_phase e "E"); [discriminate H|].
    injection H as <-. apply (timeline_create _ e R' T').
Qed.

Lemma timeline_loop (startedInPageEvt : TraceEvent) (l : list TraceEvent) :
  ∀ (last : Z) (s s' : LoopState),
    ascending startedInPageEvt last l → reconstructed s → timeline last s →
    foldM (loopBody startedInPageEvt) s l = Ok s' →
    ∃ last', timeline last' s'.
Proof.
  induction l as [|e l IH]; intros last s s' Hasc R T H.
  - injection H as <-. by exists last.
  - simpl in H, Hasc. apply bind_Ok in H as (s1 & H1 & H).
    pose proof (reconstructed_loopBody _ _ _ _ R H1) as R1.
    unfold loopBody in H1. destruct (relevant startedInPageEvt e).
    + destruct Hasc as [Hle Hasc].
      eapply (IH (ts e) s1 s' Hasc R1); [|exact H].
      exact (timeline_handleEvent last s s1 e Hle R T H1).
    + injection H1 as <-. by eapply (IH last s s').
Qed.
(* ================================================================== *)
(** * Scenario A: nesting and timing *)
(* ================================================================== *)

(** C1.  On the four events of Scenario A (after the tracing-start marker)
    [getMainThreadTasks] returns exactly three tasks, at the indices 0, 1, 2 of
    the result: TaskA is a root of duration 100 and self-time 50 whose only child
    is TaskB; TaskB runs from 5 to 55, has duration 50, self-time 20, parent
    TaskA and the only child TaskC; TaskC runs from 10 to 40, has duration 30,
    self-time 30, parent TaskB and no child (all times in milliseconds). *)
Theorem scenarioA_three_tasks :
  ∃ tA tB tC,
    getMainThreadTasks scenarioA = Ok [tA; tB; tC]
    ∧ (name (event tA) = "TaskA" ∧ parent tA = None ∧ children tA = [1%nat]
       ∧ num_eq (duration tA) (of_Z 100) ∧ num_eq (selfTime tA) (of_Z 50))
    ∧ (name (event tB) = "TaskB" ∧ parent tB = Some 0%nat ∧ children tB = [2%nat]
       ∧ num_eq (startTime tB) (of_Z 5) ∧ num_eq (endTime tB) (of_Z 55)
       ∧ num_eq (duration tB) (of_Z 50) ∧ num_eq (selfTime tB) (of_Z 20))
    ∧ (name (event tC) = "TaskC" ∧ parent tC = Some 1%nat ∧ children tC = []
       ∧ num_eq (startTime tC) (of_Z 10) ∧ num_eq (endTime tC) (of_Z 40)
       ∧ num_eq (duration tC) (of_Z 30) ∧ num_eq (selfTime tC) (of_Z 30)).
Proof.
  do 3 eexists. split; [vm_compute; reflexivity|].
  repeat split; vm_compute; reflexivity.
Qed.

(* ================================================================== *)
(** * The category taxonomy *)
(* ================================================================== *)

(** The key the engine reads, [taskGroups.other], is not a key of the object. *)
Lemma taskGroups_other_undefined : TaskGroups.get "other" taskGroups = None.
Proof. vm_compute. reflexivity. Qed.

(** C9 fails as it is stated.  The reverse lookup maps the raw event name
    [MessageLoop::RunTask] to the [Other] group: the group is populated through
    explicit names. *)
Lemma other_group_is_looked_up :
  ∃ g, taskNameToGroup !! "MessageLoop::RunTask" = Some g
       ∧ TaskGroups.id g = "Other"
       ∧ TaskGroups.get "Other" taskGroups = Some g.
Proof. eexists. repeat split; vm_compute; reflexivity. Qed.

(** The engine reads the key [other], which [taskGroups] neither has nor
    inherits. *)
Lemma taskGroups_at_other : TaskGroups.taskGroups_at "other" = None.
Proof. vm_compute. reflexivity. Qed.

(** The loop leaves the prototype of [taskNameToGroup] as it is. *)
Lemma registry_proto : TaskGroups.reg_proto TaskGroups.registry = None.
Proof. vm_compute. reflexivity. Qed.

(** A read of [taskNameToGroup] gives a group for the keys of the object only. *)
Lemma taskNameToGroup_at_group (n : string) (g : TaskGroup) :
  TaskGroups.taskNameToGroup_at n = Some (IsGroup g) ↔ taskNameToGroup !! n = Some g.
Proof.
  unfold TaskGroups.taskNameToGroup_at, TaskGroups.inherited.
  destruct (taskNameToGroup !! n) as [g'|].
  - split; intros [= ->]; reflexivity.
  - case_bool_decide; split; intros [=].
Qed.

(** C9, as the code has it.  The reverse lookup maps a raw event name to the
    [Other] group, the group under the key [Other] of [taskGroups], exactly
    when the name is one of the three names listed under that group. *)
Theorem other_group_names (n : string) :
  (∃ g, TaskGroups.taskNameToGroup_at n = Some (IsGroup g)
        ∧ TaskGroups.get "Other" taskGroups = Some g)
  ↔ n ∈ otherNames.
Proof.
  split.
  - intros (g & H & Hother). apply taskNameToGroup_at_group in H.
    assert (Eg : g = otherGroup).
    { assert (E : TaskGroups.get "Other" taskGroups = Some otherGroup)
        by (vm_compute; reflexivity).
      congruence. }
    subst g. clear Hother. apply elem_of_map_to_list in H.
    set (l := map_to_list taskNameToGroup) in H. vm_compute in l. subst l.
    repeat (apply elem_of_cons in H as [H|H];
      [first [ discriminate H
             | (injection H as ->; apply list_elem_of_In; simpl; tauto) ] |]).
    by apply elem_of_nil in H.
  - intros H. exists otherGroup. split; [|vm_compute; reflexivity].
    unfold otherNames in H.
    repeat (apply elem_of_cons in H as [->|H]; [vm_compute; reflexivity|]).
    by apply elem_of_nil in H.
Qed.

(* ================================================================== *)
(** * End events that cannot be matched *)
(* ================================================================== *)

(** An error thrown by the body of the reconstruction loop is the outcome of the
    whole computation. *)
Lemma loop_throws (traceEvents pre post : list TraceEvent)
    (startedInPageEvt e : TraceEvent) (s : LoopState) (err : TraceError) :
  findTracingStartedEvt traceEvents = Ok startedInPageEvt →
  traceEvents = pre ++ e :: post →
  foldM (loopBody startedInPageEvt) initialState pre = Ok s →
  loopBody startedInPageEvt s e = Throw err →
  getMainThreadTasks traceEvents = Throw err.
Proof.
  intros Hanchor -> Hpre Hbody.
  unfold getMainThreadTasks, computedTasks, _createTasksFromEvents.
  rewrite Hanchor. simpl. rewrite foldM_app, Hpre. simpl. rewrite Hbody.
  reflexivity.
Qed.

(** C6.  Let an End event [e] of the primary thread arrive after the events
    [pre] have been processed, at a point where no task is open once the tasks
    whose end time is at most the timestamp of [e] are closed out.  Then
    [getMainThreadTasks] fails with [UnbalancedTraceError]. *)
Theorem end_without_open_task (traceEvents pre post : list TraceEvent)
    (startedInPageEvt e : TraceEvent) (s : LoopState) :
  findTracingStartedEvt traceEvents = Ok startedInPageEvt →
  traceEvents = pre ++ e :: post →
  foldM (loopBody startedInPageEvt) initialState pre = Ok s →
  relevant startedInPageEvt e = true →
  ph e = "E" →
  openTaskAt s (ts e) = Ok None →
  getMainThreadTasks traceEvents = Throw UnbalancedTraceError.
Proof.
  intros Hanchor Hsplit Hpre Hrel HE Hopen.
  eapply loop_throws; [exact Hanchor | exact Hsplit | exact Hpre |].
  unfold loopBody. rewrite Hrel. unfold handleEvent.
  unfold openTaskAt in Hopen. rewrite Hopen. simpl.
  unfold is_phase. rewrite HE. reflexivity.
Qed.

Lemma end_without_open_task_witness :
  getMainThreadTasks scenarioB = Throw UnbalancedTraceError.
Proof.
  apply (end_without_open_task scenarioB
           [mkEvent "I" "TracingStartedInPage" 0 None] []
           (mkEvent "I" "TracingStartedInPage" 0 None)
           (mkEvent "E" "TaskB" 5000 None) initialState);
    vm_compute; reflexivity.
Defined.

(** C7.  Let an End event [e] of the primary thread arrive while, after the
    close-out step, the task [c] is the current one.  If [c] was not opened by a
    Begin event, [getMainThreadTasks] fails with [MismatchedEventError].  If it
    was, the loop goes on from the state in which the end time of [c] is the
    timestamp of [e] and the cursor is the parent of [c]. *)
Theorem end_with_open_task (traceEvents pre post : list TraceEvent)
    (startedInPageEvt e : TraceEvent) (s : LoopState) (c : nat) (task : TaskNode) :
  findTracingStartedEvt traceEvents = Ok startedInPageEvt →
  traceEvents = pre ++ e :: post →
  foldM (loopBody startedInPageEvt) initialState pre = Ok s →
  relevant startedInPageEvt e = true →
  ph e = "E" →
  openTaskAt s (ts e) = Ok (Some c) →
  tasks s !! c = Some task →
  (ph (event task) ≠ "B" →
     getMainThreadTasks traceEvents = Throw MismatchedEventError)
  ∧ (ph (event task) = "B" →
     foldM (loopBody startedInPageEvt) initialState (pre ++ [e])
       = Ok {| tasks := <[c := set_endTime (of_Z (ts e)) task]> (tasks s);
               currentTask := parent task |}
     ∧ endTime <$> (<[c := set_endTime (of_Z (ts e)) task]> (tasks s)) !! c
       = Some (of_Z (ts e))).
Proof.
  intros Hanchor Hsplit Hpre Hrel HE Hopen Htask.
  assert (Hbody : loopBody startedInPageEvt s e =
    if negb (String.eqb (ph (event task)) "B") then Throw MismatchedEventError
    else Ok {| tasks := <[c := set_endTime (of_Z (ts e)) task]> (tasks s);
               currentTask := parent task |}).
  { unfold loopBody. rewrite Hrel. unfold handleEvent.
    unfold openTaskAt in Hopen. rewrite Hopen. simpl.
    unfold is_phase. rewrite HE. simpl. rewrite Htask. reflexivity. }
  split; intros Hph.
  - eapply loop_throws; [exact Hanchor | exact Hsplit | exact Hpre |].
    rewrite Hbody. apply String.eqb_neq in Hph. rewrite Hph. reflexivity.
  - split.
    + rewrite foldM_app, Hpre. simpl. rewrite Hbody.
      apply String.eqb_eq in Hph. rewrite Hph. reflexivity.
    + rewrite list_lookup_insert_eq; [reflexivity|].
      eapply lookup_lt_Some. exact Htask.
Qed.

Lemma end_with_open_task_witness :
  getMainThreadTasks endInsideComplete = Throw MismatchedEventError
  ∧ ∃ s, foldM (loopBody (mkEvent "I" "TracingStartedInPage" baseTs None))
           initialState scenarioA = Ok s
         ∧ endTime <$> tasks s !! 1%nat = Some (of_Z (baseTs + 55000)).
Proof.
  split.
  - assert (Htask : ∃ task, tasks stateComplete !! 0 = Some task ∧ ph (event task) ≠ "B").
    { eexists. split; [vm_compute; reflexivity | vm_compute; discriminate]. }
    destruct Htask as (task & Htask & Hph).
    apply (proj1 (end_with_open_task endInsideComplete
                    (take 2 endInsideComplete) []
                    (mkEvent "I" "TracingStartedInPage" 0 None)
                    (mkEvent "E" "TaskB" 50000 None) stateComplete 0 task
                    ltac:(vm_compute; reflexivity) ltac:(vm_compute; reflexivity)
                    ltac:(vm_compute; reflexivity) ltac:(vm_compute; reflexivity)
                    ltac:(vm_compute; reflexivity) ltac:(vm_compute; reflexivity)
                    Htask) Hph).
  - assert (Htask : ∃ task, tasks stateA !! 1 = Some task ∧ ph (event task) = "B").
    { eexists. split; vm_compute; reflexivity. }
    destruct Htask as (task & Htask & Hph).
    pose proof (proj2 (end_with_open_task scenarioA
                     (take 4 scenarioA) []
                     (mkEvent "I" "TracingStartedInPage" baseTs None)
                     (mkEvent "E" "TaskB" (baseTs + 55000) None) stateA 1 task
                     ltac:(vm_compute; reflexivity) ltac:(vm_compute; reflexivity)
                     ltac:(vm_compute; reflexivity) ltac:(vm_compute; reflexivity)
                     ltac:(vm_compute; reflexivity) ltac:(vm_compute; reflexivity)
                     Htask) Hph) as [H1 H2].
    eexists. split; [exact H1 | exact H2].
Defined.

(* ================================================================== *)
(** * The time normalizer *)
(* ================================================================== *)

(** C8.  When [getMainThreadTasks] returns a forest, the forest is the store
    [pre] that the recursive passes leave, every task rewritten: with [t0] the
    original start time of the first task of the array, which is a root and
    whose start time is the timestamp of its event, and zero when the array is
    empty, start becomes [(start - t0) / 1000], end becomes [(end - t0) / 1000],
    and duration and self-time are divided by 1000. *)
Theorem time_normalizer (traceEvents : list TraceEvent) (out : Store) :
  getMainThreadTasks traceEvents = Ok out →
  ∃ pre t0,
    computedTasks traceEvents = Ok pre
    ∧ t0 = match pre !! 0 with Some first => startTime first | None => of_Z 0 end
    ∧ (∀ first, pre !! 0 = Some first →
         parent first = None ∧ startTime first = of_Z (ts (event first)))
    ∧ length out = length pre
    ∧ ∀ i t, pre !! i = Some t → ∃ t', out !! i = Some t' ∧ rebased t0 t t'.
Proof.
  intros H. destruct (getMainThreadTasks_Ok _ _ H) as (pre & Hpre & -> & _).
  destruct (computedTasks_facts _ _ Hpre) as (_ & _ & _ & F & _ & Hstart).
  exists pre, (firstTs_of pre). split; [exact Hpre|]. split; [reflexivity|].
  split; [|split].
  - intros first H0. split; [|by apply (Hstart 0)].
    destruct (parent first) as [p|] eqn:Hp; [|reflexivity].
    assert (p < 0); [|lia].
    eapply forest_parent_lt; [exact F|]. apply parent_of_Some. eauto.
  - apply length_fmap.
  - intros i t Ht. exists (normalize (firstTs_of pre) t). split.
    + by rewrite list_lookup_fmap, Ht.
    + unfold rebased. simpl. done.
Qed.

Lemma time_normalizer_witness :
  getMainThreadTasks scenarioA = Ok forestA
  ∧ ∃ pre t0,
      computedTasks scenarioA = Ok pre
      ∧ t0 = match pre !! 0 with Some first => startTime first | None => of_Z 0 end
      ∧ (∀ first, pre !! 0 = Some first →
           parent first = None ∧ startTime first = of_Z (ts (event first)))
      ∧ length forestA = length pre
      ∧ ∀ i t, pre !! i = Some t → ∃ t', forestA !! i = Some t' ∧ rebased t0 t t'.
Proof.
  assert (H : getMainThreadTasks scenarioA = Ok forestA) by (vm_compute; reflexivity).
  split; [exact H | exact (time_normalizer scenarioA forestA H)].
Defined.

(* ================================================================== *)
(** * Duration and self-time *)
(* ================================================================== *)





(* ================================================================== *)
(** * Attribution and classification *)
(* ================================================================== *)

Lemma taskURL_candidate (e : TraceEvent) : taskURL e = candidateURL e.
Proof.
  unfold taskURL, candidateURL, or_string.
  destruct (args_data e) as [d|]; simpl; [|reflexivity].
  destruct (truthy (data_url d)); [reflexivity|].
  by destruct (stackTrace d) as [[|frame frames]|].
Qed.

Lemma parent_of_normalize (firstTs : number) (st : Store) (i : nat) :
  parent_of (normalize firstTs <$> st) i = parent_of st i.
Proof. unfold parent_of. rewrite list_lookup_fmap. by destruct (st !! i). Qed.

Lemma children_of_normalize (firstTs : number) (st : Store) (i : nat) :
  children_of (normalize firstTs <$> st) i = children_of st i.
Proof. unfold children_of. rewrite list_lookup_fmap. by destruct (st !! i). Qed.

Lemma forest_normalize (firstTs : number) (st : Store) :
  forest st → forest (normalize firstTs <$> st).
Proof.
  apply forest_ext; intros i;
    [apply parent_of_normalize | apply children_of_normalize].
Qed.

(** The forest that is returned is a forest, and its tasks obey the two rules. *)
Lemma returned_forest (traceEvents : list TraceEvent) (out : Store) :
  getMainThreadTasks traceEvents = Ok out →
  forest out
  ∧ ∀ i t, out !! i = Some t →
      attributableURL t = resolveURL (event t) (parentURL_of out t)
      ∧ group t = resolveGroup (event t) (parentGroup_of out t).
Proof.
  intros H. destruct (getMainThreadTasks_Ok _ _ H) as (pre & Hpre & -> & _).
  destruct (computedTasks_facts _ _ Hpre) as (_ & _ & _ & F & Hc & _).
  split; [by apply forest_normalize|].
  intros i t Ht. apply list_lookup_fmap_Some in Ht as (t0 & -> & Ht0).
  destruct (Hc i t0 Ht0) as (_ & HU & HG).
  rewrite parentURL_normalize, parentGroup_normalize. simpl. by split.
Qed.

(** C4.  In every forest that is returned, the attributable URL of a task is the
    final URL of its parent whenever the parent has one, and only otherwise the
    candidate of the task itself: the explicit URL of the payload of its event
    if present, else the URL of the first frame of its call stack if present,
    else unresolved.  In particular every task below a task with a URL has that
    URL, whatever its own candidate.  (Having a URL, being present: truthy.) *)
Theorem attributable_url_rule (traceEvents : list TraceEvent) (out : Store)
    (i : nat) (t : TaskNode) :
  getMainThreadTasks traceEvents = Ok out →
  out !! i = Some t →
  attributableURL t
    = (if truthy (parentURL_of out t) then parentURL_of out t
       else candidateURL (event t))
  ∧ (∀ r tr, out !! r = Some tr → truthy (attributableURL tr) = true →
             within out r i → attributableURL t = attributableURL tr).
Proof.
  intros H Ht. destruct (returned_forest _ _ H) as (F & Hrule).
  split.
  - destruct (Hrule i t Ht) as (-> & _). unfold resolveURL, or_string.
    by rewrite taskURL_candidate.
  - intros r tr Hr Htruthy Hw. revert t Ht.
    induction Hw as [|j c Hw IH Hc]; intros t Ht; [congruence|].
    pose proof (forest_child_parent out F _ _ Hc) as Hp.
    apply parent_of_Some in Hp as (t' & Ht' & Hp). rewrite Ht in Ht'. injection Ht' as <-.
    apply elem_of_children_of in Hc as (tj & Hj & _).
    destruct (Hrule c t Ht) as (-> & _).
    unfold resolveURL, or_string, parentURL_of. rewrite Hp, Hj.
    by rewrite (IH tj Hj), Htruthy.
Qed.

Lemma attributable_url_rule_witness :
  getMainThreadTasks scenarioD = Ok forestD
  ∧ ∃ t, forestD !! 1 = Some t
         ∧ candidateURL (event t) = Some "https://example.com/b.js"
         ∧ parentURL_of forestD t = Some "https://example.com/a.js"
         ∧ attributableURL t = Some "https://example.com/a.js".
Proof.
  assert (H : getMainThreadTasks scenarioD = Ok forestD) by (vm_compute; reflexivity).
  split; [exact H|]. eexists. split; [reflexivity|].
  split; [reflexivity|]. split; [reflexivity|].
  exact (proj1 (attributable_url_rule scenarioD forestD 1 _ H eq_refl)).
Defined.

(** C2 fails as it is stated.  A task with a mapped event name under a parent
    of another group keeps the group of its own name: the parent does not come
    first. *)
Lemma own_group_comes_first :
  ∃ out p t,
    getMainThreadTasks layoutInFunctionCall = Ok out
    ∧ out !! 0 = Some p ∧ out !! 1 = Some t ∧ parent t = Some 0
    ∧ group p ≫= TaskGroups.id_of = Some "ScriptEvaluation"
    ∧ group t ≫= TaskGroups.id_of = Some "StyleLayout".
Proof.
  do 3 eexists. split; [vm_compute; reflexivity|].
  split; [reflexivity|]. split; [reflexivity|]. split; [reflexivity|].
  split; vm_compute; reflexivity.
Qed.

(** C2, as the code has it.  In every forest that is returned, the group of a
    task is what the reverse lookup gives for the name of its event when it
    gives something, and otherwise the final group of its parent when the parent
    has one.  The reverse lookup is the read [taskNameToGroup[name]]: it gives
    the group that lists the name and, for a name that no group lists but that
    every object inherits, such as [constructor], the inherited member. *)
Theorem group_rule (traceEvents : list TraceEvent) (out : Store)
    (i : nat) (t : TaskNode) :
  getMainThreadTasks traceEvents = Ok out →
  out !! i = Some t →
  match TaskGroups.taskNameToGroup_at (name (event t)) with
  | Some g => group t = Some g
  | None => ∀ g, parentGroup_of out t = Some g → group t = Some g
  end.
Proof.
  intros H Ht. destruct (returned_forest _ _ H) as (_ & Hrule).
  destruct (Hrule i t Ht) as (_ & ->). unfold resolveGroup.
  destruct (TaskGroups.taskNameToGroup_at (name (event t))) as [g|]; [reflexivity|].
  by intros g ->.
Qed.

Lemma group_rule_witness :
  getMainThreadTasks layoutInFunctionCall = Ok forestLayout
  ∧ ∃ t, forestLayout !! 1 = Some t
         ∧ match TaskGroups.taskNameToGroup_at (name (event t)) with
           | Some g => group t = Some g
           | None => ∀ g, parentGroup_of forestLayout t = Some g → group t = Some g
           end.
Proof.
  assert (H : getMainThreadTasks layoutInFunctionCall = Ok forestLayout)
    by (vm_compute; reflexivity).
  split; [exact H|]. eexists. split; [reflexivity|].
  exact (group_rule layoutInFunctionCall forestLayout 1 _ H eq_refl).
Defined.

(* ================================================================== *)
(** * A Begin event that is never closed *)
(* ================================================================== *)

(** C10.  If the reconstruction loop ends with a task that was opened by a Begin
    event and whose end time is still unresolved, then the end time, the
    duration and the self-time of the task are not finite after the recursive
    passes, and [getMainThreadTasks] fails with [InvalidTimingError]. *)
Theorem unclosed_begin_is_fatal (traceEvents : list TraceEvent) (st0 : Store)
    (i : nat) (t : TaskNode) :
  _createTasksFromEvents traceEvents = Ok st0 →
  st0 !! i = Some t →
  ph (event t) = "B" →
  endTime t = NaN →
  (∃ pre t1, computedTasks traceEvents = Ok pre ∧ pre !! i = Some t1
             ∧ event t1 = event t
             ∧ isFinite (endTime t1) = false
             ∧ isFinite (duration t1) = false
             ∧ isFinite (selfTime t1) = false)
  ∧ getMainThreadTasks traceEvents = Throw InvalidTimingError.
Proof.
  intros H0 Ht _ Hend.
  destruct (computedTasks_ok _ _ H0) as (pre & Hpre & Hsh & Hc).
  destruct (same_shape_lookup_Some _ _ i t Hsh Ht) as (t1 & Ht1 & Esk).
  destruct (skeleton_fields _ _ Esk) as (Eev & _ & _ & _ & Een).
  destruct (Hc i t1 Ht1) as ((Hd & Hs) & _).
  rewrite Een, Hend in Hd. simpl in Hd. rewrite Hd in Hs. simpl in Hs.
  split.
  - exists pre, t1. rewrite Een, Hend, Hd, Hs. done.
  - by eapply getMainThreadTasks_invalid.
Qed.

Lemma unclosed_begin_is_fatal_witness :
  _createTasksFromEvents unclosedBegin = Ok reconstructedUnclosed
  ∧ getMainThreadTasks unclosedBegin = Throw InvalidTimingError.
Proof.
  assert (H : _createTasksFromEvents unclosedBegin = Ok reconstructedUnclosed)
    by (vm_compute; reflexivity).
  split; [exact H|].
  exact (proj2 (unclosed_begin_is_fatal unclosedBegin reconstructedUnclosed 0 _
                  H eq_refl eq_refl eq_refl)).
Defined.

(* ================================================================== *)
(** * Intervals of parents and children *)
(* ================================================================== *)

(** C3 fails as it is stated.  A Complete task that starts inside another
    Complete task and outlasts it is made its child all the same: its interval
    is not contained in the interval of its parent. *)
Lemma child_outlasts_parent :
  ∃ out p c,
    getMainThreadTasks overlapping = Ok out
    ∧ out !! 0 = Some p ∧ out !! 1 = Some c ∧ parent c = Some 0
    ∧ num_eq (endTime p) (of_Z 100) ∧ num_eq (endTime c) (of_Z 1010)
    ∧ ¬ num_leq (endTime c) (endTime p).
Proof.
  do 3 eexists. split; [vm_compute; reflexivity|].
  split; [reflexivity|]. split; [reflexivity|]. split; [reflexivity|].
  split; [vm_compute; reflexivity|]. split; [vm_compute; reflexivity|].
  intros H. vm_compute in H. by apply H.
Qed.

(** The times of a task whose self-time is finite are finite. *)
Lemma finite_times (firstTs : number) (pre : Store) (i : nat) (t : TaskNode) :
  computed pre → pre !! i = Some t →
  isFinite (selfTime (normalize firstTs t)) = true →
  ∃ b e, startTime t = Num b ∧ endTime t = Num e.
Proof.
  intros Hc Ht Hfin. destruct (Hc i t Ht) as ((Hd & Hs) & _).
  simpl in Hfin. rewrite num_div_thousand in Hfin.
  destruct (selfTime t) as [s|] eqn:Es; [|discriminate Hfin].
  symmetry in Hs. apply num_sub_Num in Hs as (d & c & Ed & _ & _).
  rewrite Ed in Hd. symmetry in Hd. apply num_sub_Num in Hd as (e & b & Ee & Eb & _).
  by exists b, e.
Qed.

(** C3, as the code has it.  Let the timestamps of the events of the primary
    thread ascend.  In every forest that is returned, a task that has a parent
    starts no earlier than the parent, and ends no later than the parent when
    the parent was opened by a Begin event. *)
Theorem interval_containment (traceEvents : list TraceEvent)
    (startedInPageEvt : TraceEvent) (last : Z) (out : Store)
    (i p : nat) (t tp : TaskNode) :
  findTracingStartedEvt traceEvents = Ok startedInPageEvt →
  ascending startedInPageEvt last traceEvents →
  getMainThreadTasks traceEvents = Ok out →
  out !! i = Some t → parent t = Some p → out !! p = Some tp →
  num_leq (startTime tp) (startTime t)
  ∧ (ph (event tp) = "B" → num_leq (endTime t) (endTime tp)).
Proof.
  intros Hanchor Hasc H Ht Hp Htp.
  destruct (getMainThreadTasks_Ok _ _ H) as (pre & Hpre & -> & Hfin).
  destruct (computedTasks_facts _ _ Hpre) as (st0 & H0 & Hsh & _ & Hc & Hstart).
  destruct (firstTs_of_finite _ _ Hpre) as (f0 & Hf0).
  apply list_lookup_fmap_Some in Ht as (t1 & -> & Ht1).
  apply list_lookup_fmap_Some in Htp as (tp1 & -> & Htp1).
  simpl in Hp.
  (* the same two tasks when the reconstruction loop is over *)
  destruct (view_lookup_Some skeleton st0 pre i t1 Hsh Ht1) as (t0 & Ht0 & E).
  destruct (view_lookup_Some skeleton st0 pre p tp1 Hsh Htp1) as (tp0 & Htp0 & Ep).
  destruct (skeleton_fields _ _ E) as (Eev & _ & Epar & _ & Een).
  destruct (skeleton_fields _ _ Ep) as (Epev & _ & _ & _ & Epen).
  unfold _createTasksFromEvents in H0. rewrite Hanchor in H0. simpl in H0.
  apply bind_Ok in H0 as (s & Hs & [= <-]).
  pose proof (reconstructed_initial) as R0.
  destruct (timeline_loop startedInPageEvt traceEvents last initialState s Hasc R0
              (timeline_initial last) Hs) as (last' & [T1 T2 T3 T4 T5]).
  rewrite Epar in Hp.
  destruct (finite_times _ _ _ _ Hc Ht1 (Hfin i t1 Ht1)) as (b & e & Hb & He).
  destruct (finite_times _ _ _ _ Hc Htp1 (Hfin p tp1 Htp1)) as (bp & ep & Hbp & Hep).
  assert (Hf : isFinite (firstTs_of pre) = true) by by rewrite Hf0.
  split.
  - cbn [normalize startTime]. apply normalize_mono; [exact Hf|].
    rewrite (Hstart i t1 Ht1), (Hstart p tp1 Htp1). apply of_Z_mono.
    pose proof (T2 i t0 p tp0 Ht0 Hp Htp0) as Hle.
    by rewrite <- Eev, <- Epev in Hle.
  - cbn [normalize endTime]. intros HB. apply normalize_mono; [exact Hf|].
    rewrite Een, Epen.
    apply (T5 i t0 p tp0 Ht0 Hp Htp0); [by rewrite <- Epev | by rewrite <- Epen, Hep].
Qed.

Lemma interval_containment_witness :
  getMainThreadTasks scenarioA = Ok forestA
  ∧ ∃ t tp, forestA !! 2 = Some t ∧ parent t = Some 1 ∧ forestA !! 1 = Some tp
            ∧ ph (event tp) = "B"
            ∧ num_leq (startTime tp) (startTime t)
            ∧ num_leq (endTime t) (endTime tp).
Proof.
  assert (H : getMainThreadTasks scenarioA = Ok forestA) by (vm_compute; reflexivity).
  assert (Hasc : ascending (mkEvent "I" "TracingStartedInPage" baseTs None)
                   baseTs scenarioA).
  { cbn. unfold baseTs. repeat split; lia. }
  split; [exact H|]. do 2 eexists.
  split; [reflexivity|]. split; [reflexivity|]. split; [reflexivity|].
  split; [reflexivity|].
  pose proof (interval_containment scenarioA _ baseTs forestA 2 1 _ _
                ltac:(vm_compute; reflexivity) Hasc H eq_refl eq_refl eq_refl)
    as [Hs He].
  split; [exact Hs | exact (He eq_refl)].
Defined.

(* ================================================================== *)
(** * What the reconstruction loop records of the events *)
(* ================================================================== *)

Lemma createNewTaskNode_events (e : TraceEvent) (p : option nat) (st : Store) :
  event <$> _createNewTaskNode e p st = (event <$> st) ++ [e].
Proof.
  unfold _createNewTaskNode. rewrite fmap_app. simpl. f_equal.
  destruct p as [q|]; [|reflexivity].
  rewrite (list_fmap_alter event (push_child (length st)) id).
  - by apply list_alter_id.
  - by apply Forall_forall.
Qed.

Lemma createNewTaskNode_new_endTime (e : TraceEvent) (p : option nat) (st : Store) :
  ∃ t, _createNewTaskNode e p st !! length st = Some t
       ∧ event t = e ∧ endTime t = initialEndTime e.
Proof.
  unfold _createNewTaskNode. eexists. split.
  - assert (L : length (match p with Some q => alter (push_child (length st)) q st
                                 | None => st end) = length st).
    { destruct p; [apply length_alter | reflexivity]. }
    rewrite lookup_app_r; rewrite L; [|lia]. by rewrite Nat.sub_diag.
  - by split.
Qed.

Lemma relevant_phase (a e : TraceEvent) :
  relevant a e = true → ph e = "X" ∨ ph e = "B" ∨ ph e = "E".
Proof.
  unfold relevant, is_phase. intros H.
  apply andb_true_iff in H as [_ H].
  apply orb_true_iff in H as [H|H]; [apply orb_true_iff in H as [H|H]|];
    apply String.eqb_eq in H; auto.
Qed.

Lemma recorded_initial (a : TraceEvent) : recorded a [] initialState.
Proof. split; simpl; [reflexivity | | |]; intros *; rewrite lookup_nil; discriminate. Qed.

Lemma recorded_skip (a e : TraceEvent) (pre : list TraceEvent) (s : LoopState) :
  opens a e = false → recorded a pre s → recorded a (pre ++ [e]) s.
Proof.
  intros He [R1 R2 R3 R4]. split; [| exact R2 | exact R3 |].
  - rewrite List.filter_app. simpl. rewrite He. by rewrite app_nil_r.
  - intros i t Hi HB. destruct (R4 i t Hi HB) as [?|(e' & He' & ?)]; [by left|].
    right. exists e'. split; [|done]. apply elem_of_app. by left.
Qed.

Lemma recorded_create (a e : TraceEvent) (pre : list TraceEvent) (s : LoopState)
    (p : option nat) :
  opens a e = true → recorded a pre s →
  recorded a (pre ++ [e])
    {| tasks := _createNewTaskNode e p (tasks s);
       currentTask := Some (length (tasks s)) |}.
Proof.
  intros He [R1 R2 R3 R4].
  destruct (createNewTaskNode_new_endTime e p (tasks s)) as (tn & Hn & Hev & Hend).
  assert (Hold : ∀ i ti, _createNewTaskNode e p (tasks s) !! i = Some ti →
            i ≠ length (tasks s) →
            ∃ t0, tasks s !! i = Some t0 ∧ event ti = event t0 ∧ endTime ti = endTime t0).
  { intros i ti Hi Hne.
    assert (Hlt : i < length (tasks s)).
    { apply lookup_lt_Some in Hi. rewrite createNewTaskNode_length in Hi. lia. }
    destruct (lookup_lt_is_Some_2 _ i Hlt) as [t0 Ht0].
    rewrite (createNewTaskNode_old e p _ i t0 Ht0) in Hi.
    injection Hi as <-. exists t0. by case_decide. }
  split; simpl.
  - rewrite createNewTaskNode_events, R1, List.filter_app. simpl. by rewrite He.
  - intros i t Hi. destruct (decide (i = length (tasks s))) as [->|Hne].
    + rewrite Hn in Hi. injection Hi as <-. rewrite Hev.
      unfold opens, is_phase in He. apply andb_true_iff in He as [_ He].
      apply orb_true_iff in He as [He|He]; apply String.eqb_eq in He; auto.
    + destruct (Hold i t Hi Hne) as (t0 & Ht0 & -> & _). by eapply R2.
  - intros i t Hi HX. destruct (decide (i = length (tasks s))) as [->|Hne].
    + rewrite Hn in Hi. injection Hi as <-. rewrite Hend, Hev in *.
      unfold initialEndTime. apply String.eqb_eq in HX. by rewrite HX.
    + destruct (Hold i t Hi Hne) as (t0 & Ht0 & Ee & ->). rewrite Ee in *. by eapply R3.
  - intros i t Hi HB. destruct (decide (i = length (tasks s))) as [->|Hne].
    + rewrite Hn in Hi. injection Hi as <-. left. rewrite Hend. unfold initialEndTime.
      rewrite Hev in HB. rewrite HB. reflexivity.
    + destruct (Hold i t Hi Hne) as (t0 & Ht0 & Ee & ->). rewrite Ee in HB.
      destruct (R4 i t0 Ht0 HB) as [?|(e' & He' & ?)]; [by left|].
      right. exists e'. split; [|done]. apply elem_of_app. by left.
Qed.

Lemma recorded_close (a e : TraceEvent) (pre : list TraceEvent) (s : LoopState)
    (c : nat) (task : TaskNode) (cur : option nat) :
  closes a e = true → tasks s !! c = Some task → ph (event task) = "B" →
  recorded a pre s →
  recorded a (pre ++ [e])
    {| tasks := <[c := set_endTime (of_Z (ts e)) task]> (tasks s); currentTask := cur |}.
Proof.
  intros He Htask HB [R1 R2 R3 R4].
  assert (Hopens : opens a e = false).
  { unfold closes, opens, is_phase in *. apply andb_true_iff in He as [-> He].
    apply String.eqb_eq in He. by rewrite He. }
  split; simpl.
  - rewrite list_fmap_insert. simpl. rewrite list_insert_id.
    + rewrite R1, List.filter_app. simpl. by rewrite Hopens, app_nil_r.
    + by rewrite list_lookup_fmap, Htask.
  - intros i t Hi. apply list_lookup_insert_Some in Hi as [(<- & <- & _)|(_ & Hi)].
    + simpl. by right.
    + by eapply R2.
  - intros i t Hi HX. apply list_lookup_insert_Some in Hi as [(<- & <- & _)|(_ & Hi)].
    + simpl in HX. congruence.
    + by eapply R3.
  - intros i t Hi HBt. apply list_lookup_insert_Some in Hi as [(<- & <- & _)|(_ & Hi)].
    + right. exists e. split; [|done]. apply elem_of_app. right. by apply list_elem_of_singleton.
    + destruct (R4 i t Hi HBt) as [?|(e' & He' & ?)]; [by left|].
      right. exists e'. split; [|done]. apply elem_of_app. by left.
Qed.

Lemma recorded_loopBody (a e : TraceEvent) (pre : list TraceEvent) (s s' : LoopState) :
  recorded a pre s → loopBody a s e = Ok s' → recorded a (pre ++ [e]) s'.
Proof.
  intros R H. unfold loopBody in H. destruct (relevant a e) eqn:Hrel.
  2:{ injection H as <-. apply recorded_skip; [|exact R]. unfold opens. by rewrite Hrel. }
  unfold handleEvent in H. apply bind_Ok in H as (r & _ & H).
  destruct r as [c|].
  - destruct (is_phase e "X" || is_phase e "B") eqn:Hph.
    + injection H as <-. apply recorded_create; [|exact R]. unfold opens. by rewrite Hrel, Hph.
    + destruct (tasks s !! c) as [task|] eqn:Htask; [|discriminate H].
      destruct (String.eqb (ph (event task)) "B") eqn:HB; [|discriminate H].
      injection H as <-. apply String.eqb_eq in HB.
      apply recorded_close; try done.
      unfold closes. rewrite Hrel. simpl. unfold is_phase in *.
      destruct (relevant_phase a e Hrel) as [E|[E|E]]; rewrite E in *; done.
  - destruct (is_phase e "E") eqn:HE; [discriminate H|].
    injection H as <-. apply recorded_create; [|exact R].
    unfold opens. rewrite Hrel. simpl. unfold is_phase in *.
    destruct (relevant_phase a e Hrel) as [E|[E|E]]; rewrite E in *; done.
Qed.

Lemma recorded_loop (a : TraceEvent) (l : list TraceEvent) :
  ∀ (pre : list TraceEvent) (s s' : LoopState),
    recorded a pre s → foldM (loopBody a) s l = Ok s' → recorded a (pre ++ l) s'.
Proof.
  induction l as [|e l IH]; intros pre s s' R H.
  - injection H as <-. by rewrite app_nil_r.
  - simpl in H. apply bind_Ok in H as (s1 & H1 & H).
    replace (pre ++ e :: l) with ((pre ++ [e]) ++ l) by by rewrite <- app_assoc.
    eapply IH; [|exact H]. by eapply recorded_loopBody.
Qed.

(** What [_createTasksFromEvents] returns, in terms of the events. *)
Lemma createTasksFromEvents_recorded (traceEvents : list TraceEvent) (st : Store) :
  _createTasksFromEvents traceEvents = Ok st →
  ∃ a s, findTracingStartedEvt traceEvents = Ok a ∧ tasks s = st
         ∧ reconstructed s ∧ recorded a traceEvents s.
Proof.
  unfold _createTasksFromEvents. intros H.
  apply bind_Ok in H as (a & Ha & H). apply bind_Ok in H as (s & Hs & [= <-]).
  exists a, s. split; [exact Ha|]. split; [reflexivity|]. split.
  - eapply reconstructed_loop; [apply reconstructed_initial | exact Hs].
  - apply (recorded_loop a traceEvents [] initialState s (recorded_initial a) Hs).
Qed.

(** Where a returned forest comes from: the state [s] in which the
    reconstruction loop ends and the store [pre] the recursive passes leave. *)
Lemma returned_from (traceEvents : list TraceEvent) (out : Store) :
  getMainThreadTasks traceEvents = Ok out →
  ∃ a s pre,
    findTracingStartedEvt traceEvents = Ok a
    ∧ reconstructed s ∧ recorded a traceEvents s
    ∧ same_shape (tasks s) pre ∧ computed pre
    ∧ out = normalize (firstTs_of pre) <$> pre
    ∧ (∀ i t, pre !! i = Some t →
              isFinite (selfTime (normalize (firstTs_of pre) t)) = true)
    ∧ ∃ f0, firstTs_of pre = Num f0.
Proof.
  intros H. destruct (getMainThreadTasks_Ok _ _ H) as (pre & Hpre & Hout & Hfin).
  destruct (computedTasks_facts _ _ Hpre) as (st0 & H0 & Hsh & _ & Hc & _).
  destruct (createTasksFromEvents_recorded _ _ H0) as (a & s & Ha & <- & R & Rc).
  exists a, s, pre. split; [exact Ha|]. split; [exact R|]. split; [exact Rc|].
  split; [exact Hsh|]. split; [exact Hc|]. split; [exact Hout|]. split; [exact Hfin|].
  by eapply firstTs_of_finite.
Qed.

(** A task of the store the passes leave, and the task it was when the
    reconstruction loop ended: same event, links, start and end. *)
Lemma same_shape_task (st pre : Store) (i : nat) (t : TaskNode) :
  same_shape st pre → pre !! i = Some t →
  ∃ t0, st !! i = Some t0 ∧ event t = event t0 ∧ children t = children t0
        ∧ parent t = parent t0 ∧ startTime t = startTime t0 ∧ endTime t = endTime t0.
Proof.
  intros Hsh Ht.
  destruct (view_lookup_Some skeleton st pre i t Hsh Ht) as (t0 & Ht0 & E).
  exists t0. split; [exact Ht0|]. by apply skeleton_fields.
Qed.

Lemma firstTs_of_first (s : LoopState) (pre : Store) (first : TaskNode) :
  reconstructed s → same_shape (tasks s) pre → pre !! 0 = Some first →
  firstTs_of pre = of_Z (ts (event first)).
Proof.
  intros R Hsh H0. unfold firstTs_of. rewrite H0.
  destruct (same_shape_task _ _ _ _ Hsh H0) as (t0 & Ht0 & -> & _ & _ & -> & _).
  by apply (rec_fresh s R 0 t0).
Qed.

(* ================================================================== *)
(** * Begin and End events balance *)
(* ================================================================== *)

Lemma openBegins_app (st st' : Store) :
  openBegins (st ++ st') = openBegins st + openBegins st'.
Proof. unfold openBegins. by rewrite List.filter_app, length_app. Qed.

Lemma openBegins_alter (f : TaskNode → TaskNode) (st : Store) (i : nat) :
  (∀ t, isOpenBegin (f t) = isOpenBegin t) →
  openBegins (alter f i st) = openBegins st.
Proof.
  intros Hf. unfold openBegins. revert i.
  induction st as [|t st IH]; intros i; [reflexivity|].
  destruct i as [|i]; cbn.
  - rewrite Hf. by destruct (isOpenBegin t).
  - specialize (IH i). destruct (isOpenBegin t); cbn; by rewrite IH.
Qed.

Lemma openBegins_insert (st : Store) (c : nat) (t t' : TaskNode) :
  st !! c = Some t → isOpenBegin t = true → isOpenBegin t' = false →
  S (openBegins (<[c := t']> st)) = openBegins st.
Proof.
  unfold openBegins. revert c. induction st as [|u st IH]; intros c Hc Ht Ht'.
  - by rewrite lookup_nil in Hc.
  - destruct c as [|c]; cbn in *.
    + injection Hc as ->. by rewrite Ht, Ht'.
    + specialize (IH c Hc Ht Ht'). destruct (isOpenBegin u); cbn; by rewrite <- IH.
Qed.

Lemma openBegins_create (e : TraceEvent) (p : option nat) (st : Store) :
  openBegins (_createNewTaskNode e p st)
    = openBegins st + (if String.eqb (ph e) "B" then 1 else 0).
Proof.
  unfold _createNewTaskNode. rewrite openBegins_app. f_equal.
  - destruct p as [q|]; [|reflexivity]. by apply openBegins_alter.
  - unfold openBegins, isOpenBegin. simpl.
    destruct (String.eqb (ph e) "B") eqn:HB; [|reflexivity].
    apply String.eqb_eq in HB. by rewrite HB.
Qed.

(** The chain of the task that is created: the task and the chain of the cursor. *)
Lemma onchain_create (e : TraceEvent) (r : option nat) (st : Store) (j : nat) :
  forest st → (∀ c, r = Some c → c < length st) →
  onchain (_createNewTaskNode e r st) (Some (length st)) j
  ↔ j = length st ∨ onchain st r j.
Proof.
  intros F C. rewrite onchain_inv.
  rewrite createNewTaskNode_parent_of, decide_True by done.
  rewrite (onchain_agree st (_createNewTaskNode e r st) (length st) r j F); [done| |exact C].
  intros i Hi. rewrite createNewTaskNode_parent_of. rewrite decide_False; [done | lia].
Qed.

(** The chain of the parent of the task that is closed. *)
Lemma onchain_close (st : Store) (c : nat) (task : TaskNode) (x : number) (j : nat) :
  forest st → st !! c = Some task →
  onchain (<[c := set_endTime x task]> st) (parent task) j
  ↔ j ≠ c ∧ onchain st (Some c) j.
Proof.
  intros F Htask.
  assert (Hpar : parent task = parent_of st c) by (unfold parent_of; by rewrite Htask).
  assert (Hc : c < length st) by by eapply lookup_lt_Some.
  rewrite Hpar.
  rewrite (onchain_agree st (<[c := set_endTime x task]> st) (length st) _ j F).
  - rewrite onchain_inv. split; [|by intros [? [?|?]]].
    intros Hon. split; [|by right]. intros ->.
    destruct (parent_of st c) as [p|] eqn:Hp; [|by apply onchain_None in Hon].
    pose proof (onchain_le st _ _ F Hon p eq_refl).
    pose proof (forest_parent_lt st F _ _ Hp). lia.
  - intros i _. by apply parent_of_set_endTime.
  - intros p Hp. pose proof (forest_parent_lt st F _ _ Hp). lia.
Qed.

Lemma balanced_initial (a : TraceEvent) : balanced a [] initialState.
Proof. split; simpl; [|reflexivity]. intros *. rewrite lookup_nil. discriminate. Qed.

Lemma filter_snoc_length (f : TraceEvent → bool) (pre : list TraceEvent) (e : TraceEvent) :
  length (List.filter f (pre ++ [e]))
    = length (List.filter f pre) + (if f e then 1 else 0).
Proof.
  rewrite List.filter_app, length_app. simpl. by destruct (f e).
Qed.

Lemma balanced_loopBody (a e : TraceEvent) (pre : list TraceEvent) (s s' : LoopState) :
  reconstructed s → balanced a pre s → loopBody a s e = Ok s' →
  balanced a (pre ++ [e]) s'.
Proof.
  intros R [B1 B2] H. pose proof R as [F C _].
  unfold loopBody in H. destruct (relevant a e) eqn:Hrel.
  2:{ injection H as <-. split; [exact B1|].
      assert (Ec : closes a e = false) by (unfold closes; by rewrite Hrel).
      assert (Eb : begins a e = false) by (unfold begins; by rewrite Hrel).
      rewrite !filter_snoc_length, Ec, Eb. lia. }
  unfold handleEvent in H. apply bind_Ok in H as (r & Hr & H).
  destruct (closeOut_chain _ _ _ _ _ Hr) as [Hsub _].
  destruct (closeOut_ok (tasks s) (ts e) (length (tasks s)) (currentTask s) F)
    as (r' & Hr' & Hlen).
  { intros c Hc. split; by apply C. }
  rewrite Hr in Hr'. injection Hr' as <-.
  assert (Hcreate : balanced a (pre ++ [e])
            {| tasks := _createNewTaskNode e r (tasks s);
               currentTask := Some (length (tasks s)) |}
          ∨ is_phase e "E" = true).
  { destruct (is_phase e "E") eqn:HE; [by right|]. left.
    assert (HnE : ph e ≠ "E") by (by apply String.eqb_neq).
    split; simpl.
    - intros j t Hj Hon HB. apply (onchain_create e r (tasks s) j F Hlen) in Hon.
      destruct (createNewTaskNode_new_endTime e r (tasks s)) as (tn & Hn & Hev & Hend).
      destruct (decide (j = length (tasks s))) as [->|Hne].
      + rewrite Hn in Hj. injection Hj as <-. rewrite Hend. unfold initialEndTime.
        rewrite Hev in HB. by rewrite HB.
      + destruct Hon as [?|Hon]; [done|].
        assert (Hlt : j < length (tasks s)).
        { apply lookup_lt_Some in Hj. rewrite createNewTaskNode_length in Hj. lia. }
        destruct (lookup_lt_is_Some_2 _ j Hlt) as [t0 Ht0].
        rewrite (createNewTaskNode_old e r _ j t0 Ht0) in Hj. injection Hj as <-.
        assert (E : endTime (if decide (r = Some j) then push_child (length (tasks s)) t0
                             else t0) = endTime t0) by by case_decide.
        rewrite E. apply (B1 j t0 Ht0); [by apply Hsub|].
        revert HB. by case_decide.
    - assert (Ec : closes a e = false) by (unfold closes; by rewrite Hrel, HE).
      assert (Eb : begins a e = String.eqb (ph e) "B") by (unfold begins; by rewrite Hrel).
      rewrite openBegins_create, !filter_snoc_length, Ec, Eb.
      destruct (String.eqb (ph e) "B"); lia. }
  destruct r as [c|].
  - destruct (is_phase e "X" || is_phase e "B") eqn:Hph.
    + injection H as <-. destruct Hcreate as [?|HE]; [done|].
      unfold is_phase in *. apply String.eqb_eq in HE. rewrite HE in Hph. discriminate Hph.
    + destruct (tasks s !! c) as [task|] eqn:Htask; [|discriminate H].
      destruct (String.eqb (ph (event task)) "B") eqn:HB; [|discriminate H].
      injection H as <-. apply String.eqb_eq in HB.
      assert (HE : is_phase e "E" = true).
      { unfold is_phase in *.
        destruct (relevant_phase a e Hrel) as [E|[E|E]]; rewrite E in *; done. }
      assert (Hnan : endTime task = NaN).
      { apply (B1 c task Htask); [|exact HB]. apply Hsub, onchain_here. }
      split; simpl.
      * intros j t Hj Hon HBt.
        apply (onchain_close (tasks s) c task _ j F Htask) in Hon as [Hne Hon].
        rewrite list_lookup_insert_ne in Hj by done.
        apply (B1 j t Hj); [by apply Hsub | exact HBt].
      * assert (Ec : closes a e = true) by (unfold closes; by rewrite Hrel, HE).
        assert (Eb : begins a e = false).
        { unfold begins, is_phase in *. apply String.eqb_eq in HE. by rewrite Hrel, HE. }
        rewrite !filter_snoc_length, Ec, Eb.
        rewrite <- (openBegins_insert (tasks s) c task
                      (set_endTime (of_Z (ts e)) task) Htask) in B2.
        -- lia.
        -- unfold isOpenBegin. rewrite HB, Hnan. reflexivity.
        -- unfold isOpenBegin. simpl. by rewrite andb_false_r.
  - destruct (is_phase e "E") eqn:HE; [discriminate H|].
    injection H as <-. by destruct Hcreate.
Qed.

Lemma balanced_loop (a : TraceEvent) (l : list TraceEvent) :
  ∀ (pre : list TraceEvent) (s s' : LoopState),
    reconstructed s → balanced a pre s → foldM (loopBody a) s l = Ok s' →
    balanced a (pre ++ l) s'.
Proof.
  induction l as [|e l IH]; intros pre s s' R B H.
  - injection H as <-. by rewrite app_nil_r.
  - simpl in H. apply bind_Ok in H as (s1 & H1 & H).
    replace (pre ++ e :: l) with ((pre ++ [e]) ++ l) by by rewrite <- app_assoc.
    eapply IH; [|by eapply balanced_loopBody|exact H].
    by eapply reconstructed_loopBody.
Qed.

Lemma openBegins_zero (st : Store) :
  (∀ i t, st !! i = Some t → isFinite (endTime t) = true) → openBegins st = 0.
Proof.
  unfold openBegins. induction st as [|t st IH]; intros H; [reflexivity|].
  simpl. unfold isOpenBegin at 1. rewrite (H 0 t eq_refl), andb_false_r.
  apply IH. intros i u Hi. by apply (H (S i)).
Qed.
(* ================================================================== *)
(** * The initialisation loop of lib/task-groups.js *)
(* ================================================================== *)

Section Registry.

Import TaskGroups.

Lemma register_name_plain (group : TaskGroup) (r : Registry) (x : string) :
  x ≠ "__proto__" →
  register_name group r x
    = {| reg_groups := reg_groups r;
         reg_nameToGroup := <[x := group]> (reg_nameToGroup r);
         reg_proto := reg_proto r;
         reg_names := {[x]} ∪ reg_names r |}.
Proof.
  intros Hx. unfold register_name.
  destruct (String.eqb x "__proto__") eqn:E; [|reflexivity].
  by apply String.eqb_eq in E.
Qed.

(** The inner loop enters every name of the group, and nothing else. *)
Lemma register_names_lookup (group : TaskGroup) (names : list string) (r : Registry)
    (n : string) :
  "__proto__" ∉ names →
  reg_nameToGroup (foldl (register_name group) r names) !! n
    = if decide (n ∈ names) then Some group else reg_nameToGroup r !! n.
Proof.
  revert r. induction names as [|x names IH]; intros r Hp.
  - case_decide as H; [by apply elem_of_nil in H | reflexivity].
  - apply not_elem_of_cons in Hp as [Hx Hp].
    cbn [foldl]. rewrite IH by exact Hp. rewrite register_name_plain by done. simpl.
    destruct (decide (n ∈ names)) as [Hin|Hnin].
    + rewrite decide_True; [reflexivity | by right].
    + destruct (decide (x = n)) as [->|Hne].
      * rewrite decide_True by by left. by rewrite lookup_insert_eq.
      * rewrite lookup_insert_ne by done. rewrite decide_False; [reflexivity|].
        intros [->|?]%elem_of_cons; done.
Qed.

Lemma register_names_names (group : TaskGroup) (names : list string) (r : Registry)
    (n : string) :
  n ∈ reg_names (foldl (register_name group) r names) ↔ n ∈ names ∨ n ∈ reg_names r.
Proof.
  revert r. induction names as [|x names IH]; intros r.
  - simpl. split; [by right | intros [H|H]; [by apply elem_of_nil in H | exact H]].
  - cbn [foldl]. rewrite IH.
    assert (E : reg_names (register_name group r x) = {[x]} ∪ reg_names r).
    { unfold register_name. by destruct (String.eqb x "__proto__"). }
    rewrite E, elem_of_union, elem_of_singleton, elem_of_cons. tauto.
Qed.

Lemma register_names_dom (group : TaskGroup) (names : list string) (r : Registry) :
  "__proto__" ∉ names →
  dom (reg_nameToGroup r) = reg_names r →
  dom (reg_nameToGroup (foldl (register_name group) r names))
    = reg_names (foldl (register_name group) r names).
Proof.
  revert r. induction names as [|x names IH]; intros r Hp H; [exact H|].
  apply not_elem_of_cons in Hp as [Hx Hp].
  cbn [foldl]. apply IH; [exact Hp|].
  rewrite register_name_plain by done. simpl. by rewrite dom_insert_L, H.
Qed.

Lemma register_names_groups (group : TaskGroup) (names : list string) (r : Registry) :
  reg_groups (foldl (register_name group) r names) = reg_groups r.
Proof.
  revert r. induction names as [|x names IH]; intros r; simpl; [reflexivity|].
  rewrite IH. unfold register_name. by destruct (String.eqb x "__proto__").
Qed.

Lemma register_names_proto (group : TaskGroup) (names : list string) (r : Registry) :
  "__proto__" ∉ names →
  reg_proto (foldl (register_name group) r names) = reg_proto r.
Proof.
  revert r. induction names as [|x names IH]; intros r Hp; simpl; [reflexivity|].
  apply not_elem_of_cons in Hp as [Hx Hp].
  rewrite IH by exact Hp. by rewrite register_name_plain.
Qed.

(** [group.id = groupId] reaches the group under the key, which is there once. *)
Lemma assign_id_middle (done todo : list (string * TaskGroup)) (key : string)
    (g : TaskGroup) :
  key ∉ done.*1 →
  assign_id key (done ++ (key, g) :: todo) = done ++ (key, set_id key g) :: todo.
Proof.
  induction done as [|[k g0] done IH]; intros Hk; simpl.
  - by rewrite String.eqb_refl.
  - apply not_elem_of_cons in Hk as [Hne Hk]. simpl in Hne.
    destruct (String.eqb k key) eqn:E; [by apply String.eqb_eq in E|].
    by rewrite IH.
Qed.

Lemma built_step (done todo : list (string * TaskGroup)) (key : string)
    (g : TaskGroup) (r : Registry) :
  key ∉ done.*1 → "__proto__" ∉ traceEventNames g →
  built done ((key, g) :: todo) r →
  built (done ++ [(key, g)]) todo (register_group r (key, g)).
Proof.
  intros Hk Hp [B1 B2 B3 B4 B5]. unfold register_group.
  change (traceEventNames (set_id key g)) with (traceEventNames g).
  split.
  - rewrite register_names_groups. simpl. rewrite B1.
    rewrite assign_id_middle by (by rewrite <- list_fmap_compose).
    by rewrite fmap_app, <- app_assoc.
  - by rewrite register_names_proto.
  - by apply register_names_dom.
  - intros n. rewrite register_names_names. simpl. rewrite B4. split.
    + intros [H|(k & g0 & Hin & Hn)].
      * exists key, g. split; [apply elem_of_app; right; by apply list_elem_of_singleton|].
        exact H.
      * exists k, g0. split; [apply elem_of_app; by left | exact Hn].
    + intros (k & g0 & [Hin|Hin]%elem_of_app & Hn).
      * right. eauto.
      * apply list_elem_of_singleton in Hin. injection Hin as -> ->. by left.
  - intros n g'. rewrite register_names_lookup by exact Hp. simpl.
    case_decide as Hn.
    + intros [= <-]. exists key, g.
      split; [apply elem_of_app; right; by apply list_elem_of_singleton|]. by split.
    + intros H. destruct (B5 n g' H) as (k & g0 & Hin & ? & ?).
      exists k, g0. split; [apply elem_of_app; by left | done].
Qed.

Lemma built_loop (todo : list (string * TaskGroup)) :
  ∀ (done : list (string * TaskGroup)) (r : Registry),
    NoDup (done ++ todo).*1 →
    (∀ key g, (key, g) ∈ todo → "__proto__" ∉ traceEventNames g) →
    built done todo r → built (done ++ todo) [] (foldl register_group r todo).
Proof.
  induction todo as [|[key g] todo IH]; intros done r Hnd Hp B.
  - simpl. by rewrite app_nil_r.
  - cbn [foldl]. replace (done ++ (key, g) :: todo) with ((done ++ [(key, g)]) ++ todo)
      by (by rewrite <- app_assoc).
    apply IH.
    + by rewrite <- app_assoc.
    + intros k g0 Hin. apply (Hp k g0). by right.
    + apply built_step; [| |exact B].
      * rewrite fmap_app in Hnd. apply NoDup_app in Hnd as (_ & Hnd & _).
        intros Hin. apply (Hnd key Hin). by left.
      * apply (Hp key g). by left.
Qed.

(** X13.  Let an object literal have the entries [entries], in the order of
    [Object.entries], its keys distinct and its values object literals of
    their own, none of which lists the name [__proto__].  The loop leaves the
    object with the same keys in the same order, each group having its key as
    [id]; the prototype of [taskNameToGroup] is unchanged; the set
    [traceEventNames] is the set of the keys of [taskNameToGroup], and these
    are the names that some group lists; and the group that [taskNameToGroup]
    holds under a name is a group that lists the name, with its [id] set. *)
Theorem registry_of_literal (entries : list (string * TaskGroup)) :
  NoDup entries.*1 →
  (∀ key g, (key, g) ∈ entries → "__proto__" ∉ traceEventNames g) →
  let r := initialise entries in
  reg_groups r = (λ kg, (kg.1, set_id kg.1 kg.2)) <$> entries
  ∧ reg_proto r = None
  ∧ dom (reg_nameToGroup r) = reg_names r
  ∧ (∀ n, n ∈ reg_names r ↔ ∃ key g, (key, g) ∈ entries ∧ n ∈ traceEventNames g)
  ∧ (∀ n g', reg_nameToGroup r !! n = Some g' →
       ∃ key g, (key, g) ∈ entries ∧ n ∈ traceEventNames g ∧ g' = set_id key g).
Proof.
  intros Hnd Hp r.
  destruct (built_loop entries [] (emptyRegistry entries) Hnd Hp) as [B1 B2 B3 B4 B5].
  - split.
    + reflexivity.
    + reflexivity.
    + apply dom_empty_L.
    + intros n. simpl. split; [intros H; by apply not_elem_of_empty in H|].
      intros (? & ? & H & _). by apply elem_of_nil in H.
    + intros n g' H. simpl in H. by rewrite lookup_empty in H.
  - cbn [app] in B1, B4, B5. rewrite app_nil_r in B1. subst r. unfold initialise.
    split; [exact B1|]. split; [exact B2|]. split; [exact B3|].
    split; [exact B4 | exact B5].
Qed.

Lemma registry_of_literal_witness :
  reg_groups registry = (λ kg, (kg.1, set_id kg.1 kg.2)) <$> taskGroups_literal
  ∧ reg_proto registry = None
  ∧ dom (reg_nameToGroup registry) = reg_names registry.
Proof.
  assert (Hnd : NoDup taskGroups_literal.*1).
  { apply (bool_decide_unpack _). vm_compute. reflexivity. }
  assert (Hp : ∀ key g, (key, g) ∈ taskGroups_literal →
                        "__proto__" ∉ traceEventNames g).
  { intros key g Hin. unfold taskGroups_literal in Hin.
    repeat (apply elem_of_cons in Hin as [[= -> ->]|Hin];
            [apply (bool_decide_unpack _); vm_compute; reflexivity|]).
    by apply elem_of_nil in Hin. }
  destruct (registry_of_literal taskGroups_literal Hnd Hp) as (H1 & H2 & H3 & _).
  split; [exact H1|]. split; [exact H2 | exact H3].
Defined.

End Registry.

(* ================================================================== *)
(** * Execution timings by URL *)
(* ================================================================== *)

Section Bootup.

Import BootupTime.


Lemma map_set_keys {V : Type} (key : string) (v : V) (m : list (string * V)) :
  (map_set key v m).*1
    = if decide (key ∈ m.*1) then m.*1 else m.*1 ++ [key].
Proof.
  induction m as [|[k v0] m IH].
  - destruct (decide (key ∈ ([] : list (string * V)).*1)) as [E|E];
      [by apply elem_of_nil in E | reflexivity].
  - cbn [map_set]. destruct (String.eqb k key) eqn:Ek; rewrite !fmap_cons; cbn [fst].
    + apply String.eqb_eq in Ek as ->. rewrite decide_True; [reflexivity | by left].
    + apply String.eqb_neq in Ek. rewrite IH.
      destruct (decide (key ∈ m.*1)) as [Hin|Hnin].
      * rewrite decide_True; [reflexivity | by right].
      * rewrite decide_False; [reflexivity|]. intros [->|?]%elem_of_cons; done.
Qed.

Lemma map_get_is_Some {V : Type} (key : string) (m : list (string * V)) :
  is_Some (map_get key m) ↔ key ∈ m.*1.
Proof.
  induction m as [|[k v0] m IH]; simpl.
  - split; [by intros [? ?] | intros H; by apply elem_of_nil in H].
  - destruct (String.eqb k key) eqn:Ek.
    + apply String.eqb_eq in Ek as ->. split; [by left | by eexists].
    + apply String.eqb_neq in Ek. rewrite IH. split; [by right|].
      intros [->|?]%elem_of_cons; done.
Qed.

Lemma chargeTask_cases (multiplier : number) (result : ExecutionTimings) (t : TaskNode) :
  (skipped t ∧ chargeTask multiplier result t = Some result)
  ∨ ∃ u, attributableURL t = Some u ∧ chargeable u
         ∧ chargeTask multiplier result t
           = match group t with
             | None => None
             | Some g =>
               Some (map_set u
                  (<[groupKey g :=
                       num_add (or_zero (default ∅ (map_get u result) !! groupKey g))
                               (num_mul (selfTime t) multiplier)]>
                     (default ∅ (map_get u result)))
                  result)
             end.
Proof.
  unfold chargeTask, skipped, chargeable.
  destruct (attributableURL t) as [u|]; [|left; split; [discriminate | reflexivity]].
  simpl. destruct (String.eqb u "") eqn:E1; simpl.
  { apply String.eqb_eq in E1. left. split; [|reflexivity]. intros ? [= <-] [? _]. done. }
  destruct (String.eqb u "about:blank") eqn:E2.
  { apply String.eqb_eq in E2. left. split; [|reflexivity]. intros ? [= <-] [_ ?]. done. }
  apply String.eqb_neq in E1, E2. right. exists u. by repeat split.
Qed.

(** The keys of the result: the keys there were, and the URLs that were charged. *)
Lemma chargeTasks_keys (multiplier : number) (tasks : list TaskNode) :
  ∀ (r0 result : ExecutionTimings),
    chargeTasks multiplier r0 tasks = Some result →
    NoDup r0.*1 →
    NoDup result.*1
    ∧ ∀ u, u ∈ result.*1
           ↔ u ∈ r0.*1 ∨ ∃ t, t ∈ tasks ∧ attributableURL t = Some u ∧ chargeable u.
Proof.
  induction tasks as [|t tasks IH]; intros r0 result H Hnd.
  - injection H as <-. split; [exact Hnd|]. intros u. split; [by left|].
    intros [?|(t & Ht & _)]; [done | by apply elem_of_nil in Ht].
  - simpl in H. destruct (chargeTask multiplier r0 t) as [r1|] eqn:H1; [|discriminate H].
    destruct (chargeTask_cases multiplier r0 t) as [[Hskip E]|(u0 & Hu0 & Hch & E)];
      rewrite E in H1.
    + injection H1 as <-. destruct (IH r0 result H Hnd) as [Hnd' Hkeys].
      split; [exact Hnd'|]. intros u. rewrite Hkeys. split.
      * intros [?|(t' & Ht' & ?)]; [by left|]. right. exists t'. split; [by right | done].
      * intros [?|(t' & [->|Ht']%elem_of_cons & Hu & Hc)]; [by left | |].
        -- exfalso. by apply (Hskip u).
        -- right. by exists t'.
    + destruct (group t) as [g|]; [|discriminate H1]. injection H1 as <-.
      match type of H with chargeTasks _ (map_set _ ?v _) _ = _ => set (v0 := v) in * end.
      assert (Hk1 : ∀ u, u ∈ (map_set u0 v0 r0).*1 ↔ u = u0 ∨ u ∈ r0.*1).
      { intros u. rewrite map_set_keys. case_decide as Hin.
        - split; [by right | by intros [->|?]].
        - rewrite elem_of_app, list_elem_of_singleton. tauto. }
      destruct (IH _ result H) as [Hnd' Hkeys].
      { rewrite map_set_keys. case_decide as Hin; [exact Hnd|].
        apply NoDup_app. split; [exact Hnd|]. split; [|apply NoDup_singleton].
        intros x Hx ->%list_elem_of_singleton. done. }
      split; [exact Hnd'|]. intros u. rewrite Hkeys, Hk1. split.
      * intros [[->|?]|(t' & Ht' & ?)].
        -- right. exists t. split; [by left | done].
        -- by left.
        -- right. exists t'. split; [by right | done].
      * intros [?|(t' & [->|Ht']%elem_of_cons & Hu & Hc)].
        -- left. by right.
        -- left. left. congruence.
        -- right. by exists t'.
Qed.

(** The loop throws exactly when it meets a task with a chargeable URL and no
    group. *)
Lemma chargeTasks_None (multiplier : number) (tasks : list TaskNode) :
  ∀ r0, chargeTasks multiplier r0 tasks = None
        ↔ ∃ t u, t ∈ tasks ∧ attributableURL t = Some u ∧ chargeable u ∧ group t = None.
Proof.
  induction tasks as [|t tasks IH]; intros r0.
  - split; [discriminate|]. intros (t & u & Ht & _). by apply elem_of_nil in Ht.
  - simpl.
    destruct (chargeTask_cases multiplier r0 t) as [[Hskip E]|(u0 & Hu0 & Hch & E)];
      rewrite E.
    + rewrite IH. split.
      * intros (t' & u & Ht' & ?). exists t', u. split; [by right | done].
      * intros (t' & u & [->|Ht']%elem_of_cons & Hu & Hc & Hg).
        -- exfalso. by apply (Hskip u).
        -- by exists t', u.
    + destruct (group t) as [g|] eqn:Hg.
      * rewrite IH. split.
        -- intros (t' & u & Ht' & ?). exists t', u. split; [by right | done].
        -- intros (t' & u & [->|Ht']%elem_of_cons & Hu & Hc & Hg').
           ++ congruence.
           ++ by exists t', u.
      * split; [|done]. intros _. exists t, u0. split; [by left | done].
Qed.





End Bootup.

(* ================================================================== *)
(** * Siblings do not overlap *)
(* ================================================================== *)

Lemma siblings_create (s : LoopState) (e : TraceEvent) :
  reconstructed s → timeline (ts e) s → ordered_siblings (tasks s) →
  ordered_siblings (_createNewTaskNode e (currentTask s) (tasks s)).
Proof.
  intros [F C Fr] T Hsib i1 i2 t1 t2 H1 H2 Hlt Hpar.
  set (st := tasks s) in *. set (r := currentTask s) in *.
  destruct (createNewTaskNode_new e r st) as (tn & Hn & Hev & Hp & _ & Hstart & _).
  assert (Hold : ∀ i ti, _createNewTaskNode e r st !! i = Some ti → i ≠ length st →
            ∃ t0, st !! i = Some t0 ∧ parent ti = parent t0
                  ∧ startTime ti = startTime t0 ∧ endTime ti = endTime t0).
  { intros i ti Hi Hne.
    assert (Hlti : i < length st).
    { apply lookup_lt_Some in Hi. rewrite createNewTaskNode_length in Hi. lia. }
    destruct (lookup_lt_is_Some_2 st i Hlti) as [t0 Ht0].
    rewrite (createNewTaskNode_old e r st i t0 Ht0) in Hi.
    injection Hi as <-. exists t0. by case_decide. }
  assert (Hle2 : i2 ≤ length st).
  { apply lookup_lt_Some in H2. rewrite createNewTaskNode_length in H2. lia. }
  destruct (Hold i1 t1 H1 ltac:(lia)) as (t10 & Ht10 & Ep1 & _ & Ee1).
  destruct (decide (i2 = length st)) as [->|Hne].
  - rewrite Hn in H2. injection H2 as <-. rewrite Hstart, Ee1.
    apply (tl_closed _ _ T i1 t10 Ht10). fold st r.
    rewrite Hp, Ep1 in Hpar. intros Hon.
    destruct r as [c|]; [|by apply onchain_None in Hon].
    pose proof (onchain_le st _ _ F Hon c eq_refl).
    assert (c < i1); [|lia].
    eapply forest_parent_lt; [exact F|]. apply parent_of_Some. eauto.
  - destruct (Hold i2 t2 H2 Hne) as (t20 & Ht20 & Ep2 & Es2 & _).
    rewrite Ee1, Es2. apply (Hsib i1 i2 t10 t20 Ht10 Ht20 Hlt). congruence.
Qed.

Lemma siblings_close (s : LoopState) (e : TraceEvent) (c : nat) (task : TaskNode) :
  timeline (ts e) s → ordered_siblings (tasks s) →
  currentTask s = Some c → tasks s !! c = Some task → ph (event task) = "B" →
  ordered_siblings (<[c := set_endTime (of_Z (ts e)) task]> (tasks s)).
Proof.
  intros T Hsib Hcur Htask HB i1 i2 t1 t2 H1 H2 Hlt Hpar.
  assert (Hnan : endTime task = NaN).
  { apply (tl_open _ _ T c task Htask); [|exact HB]. rewrite Hcur. apply onchain_here. }
  apply list_lookup_insert_Some in H1 as [(<- & <- & _)|(Hne1 & H1)];
    apply list_lookup_insert_Some in H2 as [(<- & <- & _)|(Hne2 & H2)]; try lia.
  - exfalso. simpl in Hpar.
    pose proof (Hsib c i2 task t2 Htask H2 Hlt Hpar) as Hle. by rewrite Hnan in Hle.
  - simpl in *. by apply (Hsib i1 c t1 task).
  - by apply (Hsib i1 i2 t1 t2).
Qed.

Lemma siblings_handleEvent (last : Z) (s s' : LoopState) (e : TraceEvent) :
  (last ≤ ts e)%Z → reconstructed s → timeline last s → ordered_siblings (tasks s) →
  handleEvent s e = Ok s' → ordered_siblings (tasks s').
Proof.
  intros Hle R T Hsib H. unfold handleEvent in H.
  apply bind_Ok in H as (r & Hr & H).
  pose proof (timeline_closeOut last (ts e) s r Hle T Hr) as T'.
  assert (R' : reconstructed {| tasks := tasks s; currentTask := r |}).
  { destruct R as [F C Fr]. split; simpl; [exact F | | exact Fr].
    destruct (closeOut_ok (tasks s) (ts e) (length (tasks s)) (currentTask s) F)
      as (r' & Hr' & Hlen).
    { intros c Hc. split; by apply C. }
    rewrite Hr in Hr'. injection Hr' as <-. exact Hlen. }
  destruct r as [c|].
  - destruct (is_phase e "X" || is_phase e "B").
    + injection H as <-. apply (siblings_create _ e R' T' Hsib).
    + destruct (tasks s !! c) as [task|] eqn:Htask; [|discriminate H].
      destruct (String.eqb (ph (event task)) "B") eqn:HB; [|discriminate H].
      injection H as <-. apply String.eqb_eq in HB.
      by apply (siblings_close _ e c task T' Hsib).
  - destruct (is_phase e "E"); [discriminate H|].
    injection H as <-. apply (siblings_create _ e R' T' Hsib).
Qed.

Lemma siblings_loop (a : TraceEvent) (l : list TraceEvent) :
  ∀ (last : Z) (s s' : LoopState),
    ascending a last l → reconstructed s → timeline last s →
    ordered_siblings (tasks s) →
    foldM (loopBody a) s l = Ok s' → ordered_siblings (tasks s').
Proof.
  induction l as [|e l IH]; intros last s s' Hasc R T Hsib H.
  - by injection H as <-.
  - simpl in H, Hasc. apply bind_Ok in H as (s1 & H1 & H).
    pose proof (reconstructed_loopBody _ _ _ _ R H1) as R1.
    unfold loopBody in H1. destruct (relevant a e).
    + destruct Hasc as [Hle Hasc].
      apply (IH (ts e) s1 s' Hasc R1); [| |exact H].
      * exact (timeline_handleEvent last s s1 e Hle R T H1).
      * exact (siblings_handleEvent last s s1 e Hle R T Hsib H1).
    + injection H1 as <-. by apply (IH last s s').
Qed.

(* ================================================================== *)
(** * Tasks do not end before they start *)
(* ================================================================== *)

Lemma forward_create (e : TraceEvent) (p : option nat) (st : Store) :
  (ph e = "X" → (0 ≤ default 0 (dur e))%Z) →
  forward st → forward (_createNewTaskNode e p st).
Proof.
  intros Hdur F i t Ht.
  destruct (decide (i = length st)) as [->|Hne].
  - destruct (createNewTaskNode_new e p st) as (tn & Hn & _ & _ & _ & Hstart & _).
    destruct (createNewTaskNode_new_endTime e p st) as (tn' & Hn' & _ & Hend).
    rewrite Hn in Hn'. injection Hn' as <-. rewrite Hn in Ht. injection Ht as <-.
    rewrite Hstart, Hend. unfold initialEndTime.
    destruct (String.eqb (ph e) "X") eqn:HX; [|by left].
    apply String.eqb_eq in HX. right. specialize (Hdur HX).
    apply num_add_nonneg; [apply of_Z_isDouble | by apply of_Z_mono | reflexivity].
  - assert (Hlt : i < length st).
    { apply lookup_lt_Some in Ht. rewrite createNewTaskNode_length in Ht. lia. }
    destruct (lookup_lt_is_Some_2 st i Hlt) as [t0 Ht0].
    rewrite (createNewTaskNode_old e p st i t0 Ht0) in Ht. injection Ht as <-.
    specialize (F i t0 Ht0). by case_decide.
Qed.

Lemma forward_handleEvent (last : Z) (s s' : LoopState) (e : TraceEvent) :
  (last ≤ ts e)%Z → (ph e = "X" → (0 ≤ default 0 (dur e))%Z) →
  reconstructed s → timeline last s → forward (tasks s) →
  handleEvent s e = Ok s' → forward (tasks s').
Proof.
  intros Hle Hdur R T F H. unfold handleEvent in H.
  apply bind_Ok in H as (r & Hr & H).
  destruct r as [c|].
  - destruct (is_phase e "X" || is_phase e "B").
    + injection H as <-. by apply forward_create.
    + destruct (tasks s !! c) as [task|] eqn:Htask; [|discriminate H].
      destruct (String.eqb (ph (event task)) "B"); [|discriminate H].
      injection H as <-. intros i t Ht. simpl in Ht.
      apply list_lookup_insert_Some in Ht as [(<- & <- & _)|(_ & Ht)];
        [|by apply (F i t)].
      right. cbn [set_endTime startTime endTime].
      destruct (rec_fresh s R c task Htask) as (-> & _).
      pose proof (tl_start _ _ T c task Htask). apply of_Z_mono. lia.
  - destruct (is_phase e "E"); [discriminate H|].
    injection H as <-. by apply forward_create.
Qed.

Lemma forward_loop (a : TraceEvent) (l : list TraceEvent) :
  ∀ (last : Z) (s s' : LoopState),
    ascending a last l → durationsNonNegative a l →
    reconstructed s → timeline last s → forward (tasks s) →
    foldM (loopBody a) s l = Ok s' → forward (tasks s').
Proof.
  induction l as [|e l IH]; intros last s s' Hasc Hdur R T F H.
  - by injection H as <-.
  - simpl in H, Hasc. apply bind_Ok in H as (s1 & H1 & H).
    assert (Hdur' : durationsNonNegative a l).
    { intros e' Hin. apply Hdur. by right. }
    pose proof (reconstructed_loopBody _ _ _ _ R H1) as R1.
    unfold loopBody in H1. destruct (relevant a e) eqn:Hrel.
    + destruct Hasc as [Hle Hasc].
      apply (IH (ts e) s1 s' Hasc Hdur' R1); [| |exact H].
      * exact (timeline_handleEvent last s s1 e Hle R T H1).
      * apply (forward_handleEvent last s s1 e Hle); try done.
        apply Hdur; [by left | exact Hrel].
    + injection H1 as <-. by apply (IH last s s').
Qed.

(* ================================================================== *)
(** * The returned tasks and the events of the trace *)
(* ================================================================== *)

(** X1.  The array that is returned holds one task for each event of the main
    thread of phase X or B, in the order of the events: the events of the tasks
    are those events. *)
Theorem tasks_are_opening_events (traceEvents : list TraceEvent)
    (startedInPageEvt : TraceEvent) (out : Store) :
  findTracingStartedEvt traceEvents = Ok startedInPageEvt →
  getMainThreadTasks traceEvents = Ok out →
  event <$> out = List.filter (opens startedInPageEvt) traceEvents.
Proof.
  intros Ha H.
  destruct (returned_from _ _ H) as (a & s & pre & Ha' & R & Rc & Hsh & _ & -> & _ & _).
  rewrite Ha in Ha'. injection Ha' as <-.
  rewrite <- (rcd_events _ _ _ Rc), <- list_fmap_compose.
  apply list_eq. intros i. rewrite !list_lookup_fmap.
  destruct (pre !! i) as [t|] eqn:Ht.
  - destruct (same_shape_task _ _ _ _ Hsh Ht) as (t0 & Ht0 & Eev & _).
    rewrite Ht0. simpl. by rewrite Eev.
  - apply lookup_ge_None in Ht. rewrite (same_shape_length _ _ Hsh) in Ht.
    by rewrite (lookup_ge_None_2 (tasks s) i).
Qed.

Lemma tasks_are_opening_events_witness :
  event <$> forestA = List.filter (opens (mkEvent "I" "TracingStartedInPage" baseTs None))
                        scenarioA.
Proof.
  apply tasks_are_opening_events; vm_compute; reflexivity.
Defined.

(** X2.  The start time of a returned task is the timestamp of its event,
    counted from the timestamp of the event of the first task and divided by
    1000; the first task starts at 0. *)
Theorem start_time_of_event (traceEvents : list TraceEvent) (out : Store)
    (i : nat) (t first : TaskNode) :
  getMainThreadTasks traceEvents = Ok out →
  out !! 0 = Some first → out !! i = Some t →
  startTime t
    = num_div (num_sub (of_Z (ts (event t))) (of_Z (ts (event first)))) (of_Z 1000)
  ∧ num_eq (startTime first) (of_Z 0).
Proof.
  intros H H0 Ht.
  destruct (returned_from _ _ H) as (a & s & pre & _ & R & _ & Hsh & _ & -> & _ & _).
  apply list_lookup_fmap_Some in H0 as (f0 & -> & Hf0).
  apply list_lookup_fmap_Some in Ht as (t0 & -> & Ht0).
  rewrite (firstTs_of_first s pre f0 R Hsh Hf0).
  assert (Hstart : ∀ j tj, pre !! j = Some tj → startTime tj = of_Z (ts (event tj))).
  { intros j tj Hj.
    destruct (same_shape_task _ _ _ _ Hsh Hj) as (tj0 & Hj0 & -> & _ & _ & -> & _).
    by apply (rec_fresh s R j tj0). }
  simpl. rewrite (Hstart i t0 Ht0), (Hstart 0 f0 Hf0). split; [reflexivity|].
  rewrite num_div_thousand. cbn [of_Z num_sub num_eq].
  set (x := round (inject_Z (ts (event f0)))).
  assert (E : (x - x == 0)%Q) by ring. rewrite (round_comp _ _ E).
  change (round 0) with 0%Q.
  assert (E' : (0 / inject_Z 1000 == 0)%Q) by reflexivity.
  by rewrite (round_comp _ _ E').
Qed.

Lemma start_time_of_event_witness :
  ∃ t first, forestA !! 0 = Some first ∧ forestA !! 2 = Some t
    ∧ startTime t
      = num_div (num_sub (of_Z (ts (event t))) (of_Z (ts (event first)))) (of_Z 1000)
    ∧ num_eq (startTime first) (of_Z 0).
Proof.
  do 2 eexists. split; [reflexivity|]. split; [reflexivity|].
  apply (start_time_of_event scenarioA forestA 2); vm_compute; reflexivity.
Defined.

(** X3.  Let a task that is returned be opened by a Complete event whose
    timestamp and [dur], 0 when the event has none, are not negative, and
    which ends before [2 ^ 53]: then these integers are doubles and no
    rounding takes place before the division.  The duration of the task is
    [dur / 1000], and its end time is the end [ts + dur] of the event, counted
    from the timestamp of the event of the first task and divided by 1000. *)
Theorem complete_task_times (traceEvents : list TraceEvent) (out : Store)
    (i : nat) (t first : TaskNode) :
  getMainThreadTasks traceEvents = Ok out →
  out !! 0 = Some first → out !! i = Some t → ph (event t) = "X" →
  (0 ≤ ts (event t))%Z → (0 ≤ default 0 (dur (event t)))%Z →
  (ts (event t) + default 0 (dur (event t)) < 2 ^ 53)%Z →
  duration t = num_div (of_Z (default 0%Z (dur (event t)))) (of_Z 1000)
  ∧ endTime t
    = num_div (num_sub (of_Z (ts (event t) + default 0%Z (dur (event t))))
                       (of_Z (ts (event first))))
              (of_Z 1000).
Proof.
  intros H H0 Ht HX Hts Hdur Hend53.
  destruct (returned_from _ _ H)
    as (a & s & pre & _ & R & Rc & Hsh & Hc & -> & _ & _).
  apply list_lookup_fmap_Some in H0 as (f0 & -> & Hf0).
  apply list_lookup_fmap_Some in Ht as (t1 & -> & Ht1). simpl in HX.
  rewrite (firstTs_of_first s pre f0 R Hsh Hf0).
  destruct (same_shape_task _ _ _ _ Hsh Ht1) as (t0 & Ht0 & Eev & _ & _ & Est & Een).
  destruct (Hc i t1 Ht1) as ((Hd & _) & _).
  rewrite Eev in HX.
  pose proof (rcd_complete _ _ _ Rc i t0 Ht0 HX) as Hend.
  destruct (rec_fresh s R i t0 Ht0) as (Hstart & _).
  cbn [normalize duration endTime event].
  rewrite Hd, Een, Est, Hend, Hstart, Eev.
  cbn [normalize event] in Hts, Hdur, Hend53. rewrite Eev in Hts, Hdur, Hend53.
  rewrite of_Z_add by lia. rewrite (of_Z_sub (_ + _)) by lia.
  split; [|reflexivity]. f_equal. f_equal. lia.
Qed.

Lemma complete_task_times_witness :
  ∃ t first, forestA !! 0 = Some first ∧ forestA !! 2 = Some t ∧ ph (event t) = "X"
    ∧ duration t = num_div (of_Z (default 0%Z (dur (event t)))) (of_Z 1000)
    ∧ endTime t
      = num_div (num_sub (of_Z (ts (event t) + default 0%Z (dur (event t))))
                         (of_Z (ts (event first))))
                (of_Z 1000).
Proof.
  do 2 eexists. split; [reflexivity|]. split; [reflexivity|]. split; [reflexivity|].
  apply (complete_task_times scenarioA forestA 2);
    first [ by (vm_compute; reflexivity) | by (vm_compute; discriminate) ].
Defined.

(** X4.  A returned task that was opened by a Begin event ends at the timestamp
    of an End event of the main thread that the trace holds, counted from the
    timestamp of the event of the first task and divided by 1000. *)
Theorem begin_task_end (traceEvents : list TraceEvent) (startedInPageEvt : TraceEvent)
    (out : Store) (i : nat) (t first : TaskNode) :
  findTracingStartedEvt traceEvents = Ok startedInPageEvt →
  getMainThreadTasks traceEvents = Ok out →
  out !! 0 = Some first → out !! i = Some t → ph (event t) = "B" →
  ∃ e, e ∈ traceEvents ∧ closes startedInPageEvt e = true
       ∧ endTime t
         = num_div (num_sub (of_Z (ts e)) (of_Z (ts (event first)))) (of_Z 1000).
Proof.
  intros Ha H H0 Ht HB.
  destruct (returned_from _ _ H) as (a & s & pre & Ha' & R & Rc & Hsh & Hc & -> & Hfin & _).
  rewrite Ha in Ha'. injection Ha' as <-.
  apply list_lookup_fmap_Some in H0 as (f0 & -> & Hf0).
  apply list_lookup_fmap_Some in Ht as (t1 & -> & Ht1). simpl in HB.
  rewrite (firstTs_of_first s pre f0 R Hsh Hf0).
  destruct (same_shape_task _ _ _ _ Hsh Ht1) as (t0 & Ht0 & Eev & _ & _ & _ & Een).
  destruct (finite_times _ _ _ _ Hc Ht1 (Hfin i t1 Ht1)) as (b & e & _ & He).
  rewrite Eev in HB.
  destruct (rcd_begin _ _ _ Rc i t0 Ht0 HB) as [Hnan|(ev & Hin & Hcl & Hend)];
    [congruence|].
  exists ev. split; [exact Hin|]. split; [exact Hcl|]. simpl. by rewrite Een, Hend.
Qed.

Lemma begin_task_end_witness :
  ∃ e t first, forestA !! 0 = Some first ∧ forestA !! 1 = Some t ∧ ph (event t) = "B"
    ∧ e ∈ scenarioA
    ∧ closes (mkEvent "I" "TracingStartedInPage" baseTs None) e = true
    ∧ endTime t
      = num_div (num_sub (of_Z (ts e)) (of_Z (ts (event first)))) (of_Z 1000).
Proof.
  destruct (begin_task_end scenarioA (mkEvent "I" "TracingStartedInPage" baseTs None)
              forestA 1 _ _ eq_refl ltac:(vm_compute; reflexivity)
              eq_refl eq_refl eq_refl) as (e & Hin & Hcl & Hend).
  exists e. do 2 eexists. split; [reflexivity|]. split; [reflexivity|].
  split; [reflexivity|]. split; [exact Hin|]. split; [exact Hcl | exact Hend].
Defined.

(* ================================================================== *)
(** * The returned tasks form a forest *)
(* ================================================================== *)

(** X5.  In the array that is returned [parent] and [children] mirror each
    other: the parent of a task comes before it in the array and has it among
    its children; each child of a task comes after it and has it as parent; and
    no task is twice the child of a task. *)
Theorem returned_links (traceEvents : list TraceEvent) (out : Store)
    (i : nat) (t : TaskNode) :
  getMainThreadTasks traceEvents = Ok out → out !! i = Some t →
  (∀ p, parent t = Some p → p < i ∧ ∃ tp, out !! p = Some tp ∧ i ∈ children tp)
  ∧ (∀ c, c ∈ children t → i < c ∧ ∃ tc, out !! c = Some tc ∧ parent tc = Some i)
  ∧ NoDup (children t).
Proof.
  intros H Ht. destruct (returned_forest _ _ H) as (F & _).
  pose proof (children_of_Some out i t Ht) as Hch.
  split; [|split].
  - intros p Hp.
    assert (Hpo : parent_of out i = Some p) by (apply parent_of_Some; eauto).
    split; [by eapply forest_parent_lt|].
    apply (forest_parent_child out F) in Hpo.
    apply elem_of_children_of in Hpo as (tp & Htp & Hin). eauto.
  - intros c Hc. rewrite <- Hch in Hc. split; [by eapply child_gt|].
    apply (forest_child_parent out F) in Hc.
    apply parent_of_Some in Hc as (tc & Htc & Hp). eauto.
  - rewrite <- Hch. by apply forest_children_nodup.
Qed.

Lemma returned_links_witness :
  ∃ t, forestA !! 1 = Some t
    ∧ (∀ p, parent t = Some p → p < 1 ∧ ∃ tp, forestA !! p = Some tp ∧ 1 ∈ children tp)
    ∧ (∀ c, c ∈ children t → 1 < c ∧ ∃ tc, forestA !! c = Some tc ∧ parent tc = Some 1)
    ∧ NoDup (children t).
Proof.
  eexists. split; [reflexivity|].
  apply (returned_links scenarioA forestA 1); vm_compute; reflexivity.
Defined.

(** X6.  Every task of the array that is returned is reached from exactly one
    task without parent by going down the [children]. *)
Theorem one_root (traceEvents : list TraceEvent) (out : Store) (i : nat) :
  getMainThreadTasks traceEvents = Ok out → i < length out →
  ∃ r, (r < length out ∧ parent_of out r = None ∧ within out r i)
       ∧ ∀ r', parent_of out r' = None → within out r' i → r' = r.
Proof.
  intros H Hi. destruct (returned_forest _ _ H) as (F & _).
  destruct (below_a_root out F i Hi) as (r & Hr & Hroot & Hw).
  exists r. split; [done|]. intros r' Hroot' Hw'.
  by apply (roots_unique out r' r i F).
Qed.

Lemma one_root_witness :
  ∃ r, (r < length forestA ∧ parent_of forestA r = None ∧ within forestA r 2)
       ∧ ∀ r', parent_of forestA r' = None → within forestA r' 2 → r' = r.
Proof.
  apply (one_root scenarioA forestA 2); [vm_compute; reflexivity | vm_compute; lia].
Defined.

(* ================================================================== *)
(** * Where groups and URLs come from *)
(* ================================================================== *)

(** X8.  In the forest that is returned, the group of a task that has one is
    what the read [taskNameToGroup[name]] gives for the event name of the task
    itself or of one of its ancestors: no group comes from anywhere else. *)
Theorem group_comes_from_a_name (traceEvents : list TraceEvent) (out : Store)
    (i : nat) (t : TaskNode) (g : GroupValue) :
  getMainThreadTasks traceEvents = Ok out → out !! i = Some t →
  group t = Some g →
  ∃ a ta, within out a i ∧ out !! a = Some ta
          ∧ TaskGroups.taskNameToGroup_at (name (event ta)) = Some g.
Proof.
  intros H. destruct (returned_forest _ _ H) as (F & Hrule).
  revert t. induction i as [i IH] using lt_wf_ind. intros t Ht Eg.
  destruct (Hrule i t Ht) as (_ & Hg).
  unfold resolveGroup in Hg. rewrite taskGroups_at_other in Hg.
  destruct (TaskGroups.taskNameToGroup_at (name (event t))) as [g0|] eqn:Hown;
    simpl in Hg.
  { exists i, t. split; [apply within_self|]. split; [exact Ht|]. congruence. }
  unfold parentGroup_of in Hg. destruct (parent t) as [p|] eqn:Hp;
    [|simpl in Hg; congruence].
  assert (Hpo : parent_of out i = Some p) by (apply parent_of_Some; eauto).
  pose proof (forest_parent_lt out F _ _ Hpo) as Hlt.
  pose proof (forest_parent_child out F _ _ Hpo) as Hchild.
  destruct (out !! p) as [tp|] eqn:Htp.
  2:{ apply elem_of_children_of in Hchild as (? & ? & _). congruence. }
  assert (Hg' : group t = group tp) by (rewrite Hg; by destruct (group tp)).
  rewrite Hg' in Eg. destruct (IH p Hlt tp Htp Eg) as (a & ta & Hw & Ha & Hl).
  exists a, ta. split; [|done]. by eapply within_child.
Qed.

Lemma group_comes_from_a_name_witness :
  ∃ t g a ta, forestLayout !! 1 = Some t ∧ group t = Some g
              ∧ within forestLayout a 1 ∧ forestLayout !! a = Some ta
              ∧ TaskGroups.taskNameToGroup_at (name (event ta)) = Some g.
Proof.
  destruct (group_comes_from_a_name layoutInFunctionCall forestLayout 1 _ _
              ltac:(vm_compute; reflexivity) eq_refl eq_refl)
    as (a & ta & Hw & Ha & Hg).
  do 2 eexists. exists a, ta. split; [reflexivity|]. split; [reflexivity|].
  split; [exact Hw|]. split; [exact Ha | exact Hg].
Defined.

(** X9.  In the forest that is returned, the attributable URL of a task is the
    candidate URL of the task itself or of one of its ancestors. *)
Theorem url_comes_from_a_candidate (traceEvents : list TraceEvent) (out : Store)
    (i : nat) (t : TaskNode) :
  getMainThreadTasks traceEvents = Ok out → out !! i = Some t →
  ∃ a ta, within out a i ∧ out !! a = Some ta
          ∧ attributableURL t = candidateURL (event ta).
Proof.
  intros H. destruct (returned_forest _ _ H) as (F & Hrule).
  revert t. induction i as [i IH] using lt_wf_ind. intros t Ht.
  destruct (Hrule i t Ht) as (Hu & _).
  unfold resolveURL, or_string in Hu. rewrite taskURL_candidate in Hu.
  destruct (truthy (parentURL_of out t)) eqn:Htr.
  2:{ exists i, t. split; [apply within_self|]. by split. }
  unfold parentURL_of in Hu, Htr. destruct (parent t) as [p|] eqn:Hp; [|discriminate Htr].
  destruct (out !! p) as [tp|] eqn:Htp; [|discriminate Htr].
  assert (Hpo : parent_of out i = Some p) by (apply parent_of_Some; eauto).
  pose proof (forest_parent_lt out F _ _ Hpo) as Hlt.
  pose proof (forest_parent_child out F _ _ Hpo) as Hchild.
  destruct (IH p Hlt tp Htp) as (a & ta & Hw & Ha & Hc).
  exists a, ta. split; [by eapply within_child|]. split; [exact Ha | congruence].
Qed.

Lemma url_comes_from_a_candidate_witness :
  ∃ t a ta, forestD !! 1 = Some t ∧ within forestD a 1 ∧ forestD !! a = Some ta
            ∧ attributableURL t = candidateURL (event ta).
Proof.
  destruct (url_comes_from_a_candidate scenarioD forestD 1 _
              ltac:(vm_compute; reflexivity) eq_refl) as (a & ta & Hw & Ha & Hu).
  eexists. exists a, ta. split; [reflexivity|]. split; [exact Hw|].
  split; [exact Ha | exact Hu].
Defined.

(* ================================================================== *)
(** * When the engine throws *)
(* ================================================================== *)






(** X11.  A trace in which no event of the main thread has phase X, B or E
    yields the empty forest. *)
Theorem no_relevant_event (traceEvents : list TraceEvent) (startedInPageEvt : TraceEvent) :
  findTracingStartedEvt traceEvents = Ok startedInPageEvt →
  (∀ e, e ∈ traceEvents → relevant startedInPageEvt e = false) →
  getMainThreadTasks traceEvents = Ok [].
Proof.
  intros Ha Hnone.
  assert (Hloop : ∀ l s, (∀ e, e ∈ l → relevant startedInPageEvt e = false) →
            foldM (loopBody startedInPageEvt) s l = Ok s).
  { induction l as [|e l IH]; intros s Hl; [reflexivity|].
    simpl. unfold loopBody at 1. rewrite (Hl e) by by left. simpl.
    apply IH. intros e' He'. apply Hl. by right. }
  unfold getMainThreadTasks, computedTasks, _createTasksFromEvents.
  rewrite Ha. simpl. rewrite (Hloop _ _ Hnone). reflexivity.
Qed.

Lemma no_relevant_event_witness :
  getMainThreadTasks [mkEvent "I" "TracingStartedInPage" 0 None;
                      mkEvent "R" "navigationStart" 10 None] = Ok [].
Proof.
  apply (no_relevant_event _ (mkEvent "I" "TracingStartedInPage" 0 None)); [reflexivity|].
  intros e He. apply elem_of_cons in He as [->|He]; [reflexivity|].
  apply list_elem_of_singleton in He as ->. reflexivity.
Defined.

(** X12.  A trace for which [getMainThreadTasks] returns a forest has as many
    End events as Begin events on the main thread. *)
Theorem accepted_trace_is_balanced (traceEvents : list TraceEvent)
    (startedInPageEvt : TraceEvent) (out : Store) :
  findTracingStartedEvt traceEvents = Ok startedInPageEvt →
  getMainThreadTasks traceEvents = Ok out →
  length (List.filter (begins startedInPageEvt) traceEvents)
    = length (List.filter (closes startedInPageEvt) traceEvents).
Proof.
  intros Ha H.
  destruct (getMainThreadTasks_Ok _ _ H) as (pre & Hpre & _ & Hfin).
  destruct (computedTasks_facts _ _ Hpre) as (st0 & H0 & Hsh & _ & Hc & _).
  unfold _createTasksFromEvents in H0. rewrite Ha in H0. simpl in H0.
  apply bind_Ok in H0 as (s & Hs & [= <-]).
  pose proof (balanced_loop startedInPageEvt traceEvents [] initialState s
                reconstructed_initial (balanced_initial _) Hs) as [_ Hcount].
  simpl in Hcount. rewrite openBegins_zero in Hcount; [by rewrite <- Hcount|].
  intros i t Ht.
  assert (Hi : i < length pre).
  { rewrite (same_shape_length _ _ Hsh). by eapply lookup_lt_Some. }
  destruct (lookup_lt_is_Some_2 pre i Hi) as [t1 Ht1].
  destruct (finite_times _ _ _ _ Hc Ht1 (Hfin i t1 Ht1)) as (b & e & _ & He).
  destruct (same_shape_task _ _ _ _ Hsh Ht1) as (t0 & Ht0 & _ & _ & _ & _ & Een).
  rewrite Ht in Ht0. injection Ht0 as <-. by rewrite <- Een, He.
Qed.

Lemma accepted_trace_is_balanced_witness :
  length (List.filter (begins (mkEvent "I" "TracingStartedInPage" baseTs None)) scenarioA)
    = length (List.filter (closes (mkEvent "I" "TracingStartedInPage" baseTs None))
                scenarioA).
Proof.
  apply (accepted_trace_is_balanced scenarioA _ forestA); vm_compute; reflexivity.
Defined.

(* ================================================================== *)
(** * The taxonomy, both ways *)
(* ================================================================== *)

(** X14.  In the taxonomy of the module no event name is listed twice: the
    reverse lookup gives a group for a name exactly when that group of
    [taskGroups] lists the name; and the [id] of each group of [taskGroups] is
    its key. *)
Theorem taxonomy_lookup (n : string) (g : TaskGroup) :
  (taskNameToGroup !! n = Some g
   ↔ ∃ key, TaskGroups.get key taskGroups = Some g ∧ n ∈ TaskGroups.traceEventNames g)
  ∧ (∀ key, TaskGroups.get key taskGroups = Some g → TaskGroups.id g = key).
Proof.
  split; [split|].
  - intros H. apply elem_of_map_to_list in H.
    set (l := map_to_list taskNameToGroup) in H. vm_compute in l. subst l.
    repeat (apply elem_of_cons in H as [H|H];
      [simplify_eq;
       match goal with |- ∃ key, _ = Some ?x ∧ _ => exists (TaskGroups.id x) end;
       split; [vm_compute; reflexivity | apply list_elem_of_In; simpl; tauto] |]).
    by apply elem_of_nil in H.
  - intros (key & Hget & Hn).
    set (l := taskGroups) in Hget. vm_compute in l. subst l.
    cbn [TaskGroups.get] in Hget.
    repeat (destruct (String.eqb _ key);
      [injection Hget as <-; simpl in Hn;
       repeat (apply elem_of_cons in Hn as [->|Hn]; [vm_compute; reflexivity|]);
       by apply elem_of_nil in Hn |]).
    discriminate Hget.
  - intros key Hget.
    set (l := taskGroups) in Hget. vm_compute in l. subst l.
    cbn [TaskGroups.get] in Hget.
    repeat (destruct (String.eqb _ key) eqn:E;
      [injection Hget as <-; apply String.eqb_eq in E; exact E | clear E]).
    discriminate Hget.
Qed.

(* ================================================================== *)
(** * [BootupTime.getExecutionTimingsByURL] *)
(* ================================================================== *)

(** X15.  The keys of the map that [getExecutionTimingsByURL] returns are the
    attributable URLs of the tasks other than the empty string and
    [about:blank], each of them once. *)
Theorem execution_timings_keys (tasks : list TaskNode) (multiplier : number)
    (result : BootupTime.ExecutionTimings) :
  BootupTime.getExecutionTimingsByURL tasks multiplier = Some result →
  NoDup result.*1
  ∧ ∀ u, is_Some (BootupTime.map_get u result)
         ↔ ∃ t, t ∈ tasks ∧ attributableURL t = Some u ∧ chargeable u.
Proof.
  intros H. destruct (chargeTasks_keys multiplier tasks [] result H (NoDup_nil_2))
    as [Hnd Hkeys].
  split; [exact Hnd|]. intros u. rewrite map_get_is_Some, Hkeys. simpl. split.
  - intros [H0|?]; [by apply elem_of_nil in H0 | done].
  - by right.
Qed.

Lemma execution_timings_keys_witness :
  BootupTime.getExecutionTimingsByURL forestD (Num 1) = Some timingsD
  ∧ NoDup timingsD.*1
  ∧ is_Some (BootupTime.map_get "https://example.com/a.js" timingsD).
Proof.
  assert (Ht : ∃ t, t ∈ forestD ∧ attributableURL t = Some "https://example.com/a.js"
                    ∧ chargeable "https://example.com/a.js").
  { eexists. split; [by left|]. split; [reflexivity|]. split; discriminate. }
  assert (H : BootupTime.getExecutionTimingsByURL forestD (Num 1) = Some timingsD)
    by (vm_compute; reflexivity).
  split; [exact H|].
  destruct (execution_timings_keys forestD (Num 1) timingsD H) as [Hnd Hkeys].
  split; [exact Hnd|]. apply (proj2 (Hkeys _)). exact Ht.
Defined.

(** X16.  [getExecutionTimingsByURL] throws exactly when one of the tasks has an
    attributable URL other than the empty string and [about:blank], and no
    group. *)
Theorem execution_timings_throw (tasks : list TaskNode) (multiplier : number) :
  BootupTime.getExecutionTimingsByURL tasks multiplier = None
  ↔ ∃ t u, t ∈ tasks ∧ attributableURL t = Some u ∧ chargeable u ∧ group t = None.
Proof. apply chargeTasks_None. Qed.



(** X18.  Let the timestamps of the events of the main thread ascend.  In the
    forest that is returned, of two tasks with the same parent, or without
    parent both, the one that comes first in the array ends no later than the
    other one starts: siblings, and the trees of the forest, do not overlap. *)
Theorem siblings_do_not_overlap (traceEvents : list TraceEvent)
    (startedInPageEvt : TraceEvent) (last : Z) (out : Store)
    (i1 i2 : nat) (t1 t2 : TaskNode) :
  findTracingStartedEvt traceEvents = Ok startedInPageEvt →
  ascending startedInPageEvt last traceEvents →
  getMainThreadTasks traceEvents = Ok out →
  out !! i1 = Some t1 → out !! i2 = Some t2 → i1 < i2 → parent t1 = parent t2 →
  num_leq (endTime t1) (startTime t2).
Proof.
  intros Ha Hasc H H1 H2 Hlt Hpar.
  destruct (getMainThreadTasks_Ok _ _ H) as (pre & Hpre & -> & _).
  destruct (computedTasks_facts _ _ Hpre) as (st0 & H0 & Hsh & _ & _ & _).
  destruct (firstTs_of_finite _ _ Hpre) as (f0 & Hf0).
  apply list_lookup_fmap_Some in H1 as (u1 & -> & Hu1).
  apply list_lookup_fmap_Some in H2 as (u2 & -> & Hu2). simpl in Hpar.
  destruct (same_shape_task _ _ _ _ Hsh Hu1) as (v1 & Hv1 & _ & _ & Ep1 & _ & Ee1).
  destruct (same_shape_task _ _ _ _ Hsh Hu2) as (v2 & Hv2 & _ & _ & Ep2 & Es2 & _).
  unfold _createTasksFromEvents in H0. rewrite Ha in H0. simpl in H0.
  apply bind_Ok in H0 as (s & Hs & [= <-]).
  assert (Hsib : ordered_siblings (tasks s)).
  { apply (siblings_loop startedInPageEvt traceEvents last initialState s Hasc
             reconstructed_initial (timeline_initial last)); [|exact Hs].
    intros ? ? ? ? Hx. simpl in Hx. by rewrite lookup_nil in Hx. }
  pose proof (Hsib i1 i2 v1 v2 Hv1 Hv2 Hlt ltac:(congruence)) as Hle.
  cbn [normalize startTime endTime]. rewrite Ee1, Es2.
  apply normalize_mono; [by rewrite Hf0 | exact Hle].
Qed.

Lemma siblings_do_not_overlap_witness :
  ∃ t1 t2, forestRoots !! 0 = Some t1 ∧ forestRoots !! 1 = Some t2
           ∧ parent t1 = parent t2
           ∧ num_leq (endTime t1) (startTime t2).
Proof.
  assert (Hasc : ascending (mkEvent "I" "TracingStartedInPage" 0 None) 0 twoRoots).
  { cbn. repeat split; lia. }
  do 2 eexists. split; [reflexivity|]. split; [reflexivity|]. split; [reflexivity|].
  apply (siblings_do_not_overlap twoRoots _ 0 forestRoots 0 1 _ _
           ltac:(vm_compute; reflexivity) Hasc);
    [vm_compute; reflexivity | reflexivity | reflexivity | lia | reflexivity].
Defined.

(** X19.  Let the timestamps of the events of the main thread ascend, and let
    none of its Complete events have a negative [dur].  Then no returned task
    ends before it starts, and no duration is negative. *)
Theorem tasks_run_forward (traceEvents : list TraceEvent)
    (startedInPageEvt : TraceEvent) (last : Z) (out : Store)
    (i : nat) (t : TaskNode) :
  findTracingStartedEvt traceEvents = Ok startedInPageEvt →
  ascending startedInPageEvt last traceEvents →
  durationsNonNegative startedInPageEvt traceEvents →
  getMainThreadTasks traceEvents = Ok out →
  out !! i = Some t →
  num_leq (startTime t) (endTime t) ∧ num_leq (of_Z 0) (duration t).
Proof.
  intros Ha Hasc Hdur H Ht.
  destruct (getMainThreadTasks_Ok _ _ H) as (pre & Hpre & -> & Hfin).
  destruct (computedTasks_facts _ _ Hpre) as (st0 & H0 & Hsh & _ & Hc & _).
  destruct (firstTs_of_finite _ _ Hpre) as (f0 & Hf0).
  apply list_lookup_fmap_Some in Ht as (u & -> & Hu).
  destruct (finite_times _ _ _ _ Hc Hu (Hfin i u Hu)) as (b & e & Eb & Ee).
  destruct (Hc i u Hu) as ((Hd & _) & _).
  destruct (same_shape_task _ _ _ _ Hsh Hu) as (v & Hv & _ & _ & _ & Es & Ee').
  unfold _createTasksFromEvents in H0. rewrite Ha in H0. simpl in H0.
  apply bind_Ok in H0 as (s & Hs & [= <-]).
  assert (F : forward (tasks s)).
  { apply (forward_loop startedInPageEvt traceEvents last initialState s Hasc Hdur
             reconstructed_initial (timeline_initial last)); [|exact Hs].
    intros ? ? Hx. simpl in Hx. by rewrite lookup_nil in Hx. }
  destruct (F i v Hv) as [Hnan|Hle]; [congruence|].
  rewrite <- Es, <- Ee' in Hle.
  cbn [normalize startTime endTime duration]. split.
  - apply normalize_mono; [by rewrite Hf0 | exact Hle].
  - rewrite Hd. by apply num_div_thousand_nonneg, num_sub_nonneg.
Qed.

Lemma tasks_run_forward_witness :
  ∃ t, forestRoots !! 1 = Some t
       ∧ num_leq (startTime t) (endTime t) ∧ num_leq (of_Z 0) (duration t).
Proof.
  assert (Hasc : ascending (mkEvent "I" "TracingStartedInPage" 0 None) 0 twoRoots).
  { cbn. repeat split; lia. }
  assert (Hdur : durationsNonNegative (mkEvent "I" "TracingStartedInPage" 0 None)
                   twoRoots).
  { intros e He _ _. unfold twoRoots in He.
    repeat (apply elem_of_cons in He as [->|He]; [vm_compute; congruence|]).
    by apply elem_of_nil in He. }
  eexists. split; [reflexivity|].
  apply (tasks_run_forward twoRoots _ 0 forestRoots 1 _
           ltac:(vm_compute; reflexivity) Hasc Hdur);
    [vm_compute; reflexivity | reflexivity].
Defined.
